(** * myGoRPC, package [client]: the call-multiplexing RPC client

    A shallow embedding of [client/client.go].  The client keeps a table of
    pending calls keyed by sequence number, a sender path ([send]) that
    registers a call and writes it through the codec, and one receiver loop
    ([receive]) that matches responses to pending calls.

    Go objects reached through pointers ([*Call], [chan *Call]) live in
    explicit heaps, so that the aliasing between the pending table, the
    caller and the completion channel is the one of the source.  The two
    mutexes are modelled by atomicity: every function below that locks
    [client.mu] is one state transformer, and the interleaving model at the
    end of the file takes exactly these transformers as its atomic steps,
    with [client.sending] as an explicit lock. *)

From Stdlib Require Import ZArith String.
From stdpp Require Import base option list gmap strings.

(** ** Values of the Go runtime that the client handles *)

(** [uint64] arithmetic: [client.seq++] wraps at 2^64. *)
Definition wrap64 (z : Z) : Z := (z mod 2 ^ 64)%Z.

(** [interface{}] values (arguments and reply targets), opaque to the
    client.  [any_nil] is the nil interface. *)
Inductive any : Type :=
| any_nil
| any_val (v : Z).

(** Go [error] values.  [ErrShutdown] is the package-level sentinel
    [errors.New("connection has been shut down")]; the other constructors
    are the ways an error reaches the client: [errors.New], [fmt.Errorf]
    with a single argument, and errors produced outside this package
    (codec, network). *)
Inductive error : Type :=
| ErrShutdown
| errors_New (text : string)
| fmt_Errorf (format : string)
| ext_error (text : string).

#[global] Instance error_eq_dec : EqDecision error.
Proof. solve_decision. Defined.

(** [err.Error()].  For [fmt_Errorf] the text is the format string itself
    (exact when the format has no verb). *)
Definition Error_text (e : error) : string :=
  match e with
  | ErrShutdown => "connection has been shut down"
  | errors_New t => t
  | fmt_Errorf f => f
  | ext_error t => t
  end.

(** Outcome of running a piece of Go code to completion: it returns, it
    blocks for ever on a channel operation, or it panics. *)
Inductive result (A : Type) : Type :=
| Ret (a : A)
| Block
| Panic (msg : string).
Arguments Ret {A} a.
Arguments Block {A}.
Arguments Panic {A} msg.

#[global] Instance result_ret : MRet result := λ A a, Ret a.
#[global] Instance result_bind : MBind result := λ A B k r,
  match r with
  | Ret a => k a
  | Block => Block
  | Panic m => Panic m
  end.

(** ** Package [codec] (imported by the client)

    Only the interface is used: the client never looks inside a codec. *)
Module codec.

(** [codec.Header]: the record framing each request and response. *)
Record Header : Type := {
  Service : string;
  Method : string;
  Seq : Z;
  Error : string
}.

(** The zero value of [Header] ([var header codec.Header]). *)
Definition zero : Header :=
  {| Service := ""; Method := ""; Seq := 0; Error := "" |}.

(** Modelled from the spec: the [codec.Codec] interface, whose declaration
    is in a package outside the sources at hand.  The spec lists
    [writeHeaderAndBody(header, body) → error], [readHeader(out header) →
    error], [readBody(target-or-nil) → error] and [close() → error]; the
    client calls them as [Write], [ReadHeader], [ReadBody] and [Close].
    A codec owns its connection: each method transforms the codec's state
    [C].  [ReadHeader] fills the header it is given; what [ReadBody]
    stores through a non-nil target lands in caller-owned memory, which
    the client never reads. *)
Class Codec (C : Type) : Type := {
  Close : C → C * option error;
  ReadHeader : C → C * Header * option error;
  ReadBody : C → any → C * option error;
  Write : C → Header → any → C * option error
}.

End codec.

(** ** Data model of package [client] *)

(** A [*Call] is an index into the heap of calls, a [chan *Call] an index
    into the heap of channels. *)
Abbreviation ptr := nat (only parsing).
Abbreviation chan := nat (only parsing).

Record Call : Type := {
  Seq : Z;
  Service : string;
  Method : string;
  Args : any;
  Reply : any;
  Error : option error;
  Done : chan
}.

(** A buffered channel of [*Call]: capacity and queued elements, oldest
    first.  [chan_sent] is the history of every element ever sent on the
    channel; the code has no such field, it is there to count completion
    events after a receiver has taken them out of the buffer. *)
Record Chan : Type := {
  chan_cap : nat;
  chan_buf : list ptr;
  chan_sent : list ptr
}.

Definition make_chan (capacity : nat) : Chan :=
  {| chan_cap := capacity; chan_buf := []; chan_sent := [] |}.

(** [ch <- p]: [None] when the send cannot proceed (buffer full, or no
    buffer at all and nobody receiving). *)
Definition chan_send (p : ptr) (ch : Chan) : option Chan :=
  if decide (length (chan_buf ch) < chan_cap ch)
  then Some {| chan_cap := chan_cap ch;
               chan_buf := chan_buf ch ++ [p];
               chan_sent := chan_sent ch ++ [p] |}
  else None.

(** [<-ch]: [None] when the buffer is empty. *)
Definition chan_recv (ch : Chan) : option (ptr * Chan) :=
  match chan_buf ch with
  | [] => None
  | p :: rest =>
      Some (p, {| chan_cap := chan_cap ch; chan_buf := rest;
                  chan_sent := chan_sent ch |})
  end.

Section client.
Context {C : Type} `{!codec.Codec C}.

(** The [Client] struct.  [option] is only stored, never read by the
    functions below, and is left out; [sending] and [mu] are the two
    mutexes (see the header of the file). *)
Record Client : Type := {
  cc : C;
  header : codec.Header;
  seq : Z;
  pending : gmap Z ptr;
  closing : bool;
  shutdown : bool
}.

(** The state a goroutine of the package can touch. *)
Record World : Type := {
  client : Client;
  calls : list Call;
  chans : list Chan
}.

(** *** Field updates *)

Definition set_cc (c : C) (cl : Client) : Client :=
  {| cc := c; header := header cl; seq := seq cl; pending := pending cl;
     closing := closing cl; shutdown := shutdown cl |}.
Definition set_header (h : codec.Header) (cl : Client) : Client :=
  {| cc := cc cl; header := h; seq := seq cl; pending := pending cl;
     closing := closing cl; shutdown := shutdown cl |}.
Definition set_seq (s : Z) (cl : Client) : Client :=
  {| cc := cc cl; header := header cl; seq := s; pending := pending cl;
     closing := closing cl; shutdown := shutdown cl |}.
Definition set_pending (m : gmap Z ptr) (cl : Client) : Client :=
  {| cc := cc cl; header := header cl; seq := seq cl; pending := m;
     closing := closing cl; shutdown := shutdown cl |}.
Definition set_closing (b : bool) (cl : Client) : Client :=
  {| cc := cc cl; header := header cl; seq := seq cl; pending := pending cl;
     closing := b; shutdown := shutdown cl |}.
Definition set_shutdown (b : bool) (cl : Client) : Client :=
  {| cc := cc cl; header := header cl; seq := seq cl; pending := pending cl;
     closing := closing cl; shutdown := b |}.

Definition with_client (f : Client → Client) (w : World) : World :=
  {| client := f (client w); calls := calls w; chans := chans w |}.
Definition with_calls (f : list Call → list Call) (w : World) : World :=
  {| client := client w; calls := f (calls w); chans := chans w |}.
Definition with_chans (f : list Chan → list Chan) (w : World) : World :=
  {| client := client w; calls := calls w; chans := f (chans w) |}.

Definition Call_set_Seq (s : Z) (c : Call) : Call :=
  {| Seq := s; Service := Service c; Method := Method c; Args := Args c;
     Reply := Reply c; Error := Error c; Done := Done c |}.
Definition Call_set_Error (e : error) (c : Call) : Call :=
  {| Seq := Seq c; Service := Service c; Method := Method c; Args := Args c;
     Reply := Reply c; Error := Some e; Done := Done c |}.

(** [call.Seq = s] and [call.Error = e] through the pointer. *)
Definition store_Seq (p : ptr) (s : Z) : World → World :=
  with_calls (alter (Call_set_Seq s) p).
Definition store_Error (p : ptr) (e : error) : World → World :=
  with_calls (alter (Call_set_Error e) p).

(** *** [func (call *Call) done()]

    [call.Done <- call].  A dangling pointer cannot be built in Go; the
    model answers it with a nil dereference. *)
Definition Call_done (p : ptr) (w : World) : result World :=
  match calls w !! p with
  | None => Panic "invalid memory address or nil pointer dereference"
  | Some c =>
      match chans w !! Done c with
      | None => Block
      | Some ch =>
          match chan_send p ch with
          | None => Block
          | Some ch' => Ret (with_chans (<[Done c := ch']>) w)
          end
      end
  end.

(** *** [func (client *Client) Close() error] *)
Definition Close (w : World) : World * option error :=
  if closing (client w) then (w, Some ErrShutdown)
  else
    let w1 := with_client (set_closing true) w in
    let '(c', e) := codec.Close (cc (client w1)) in
    (with_client (set_cc c') w1, e).

(** *** [func (client *Client) IsAvailable() bool] *)
Definition IsAvailable (w : World) : bool :=
  negb (shutdown (client w)) && negb (closing (client w)).

(** *** [func (client *Client) registerCall(call *Call) (uint64, error)] *)
Definition registerCall (p : ptr) (w : World) : World * (Z * option error) :=
  if closing (client w) || shutdown (client w) then (w, (0%Z, Some ErrShutdown))
  else
    let s := seq (client w) in
    let w1 := store_Seq p s w in
    let w2 := with_client (set_pending (<[s := p]> (pending (client w1)))) w1 in
    let w3 := with_client (set_seq (wrap64 (seq (client w2) + 1))) w2 in
    (w3, (s, None)).

(** *** [func (client *Client) removeCall(seq uint64) *Call] *)
Definition removeCall (s : Z) (w : World) : World * option ptr :=
  let call := pending (client w) !! s in
  (with_client (set_pending (delete s (pending (client w)))) w, call).

(** *** [func (client *Client) terminateCalls(err error)]

    The body of [for _, call := range client.pending], run over the
    calls of the table in the order [l]. *)
Fixpoint terminate_range (err : error) (l : list ptr) (w : World) : result World :=
  match l with
  | [] => Ret w
  | p :: rest =>
      w1 ← Call_done p (store_Error p err w);
      terminate_range err rest w1
  end.

(** Go leaves the iteration order of a map open; the model takes the
    order of [map_to_list]. *)
Definition terminateCalls (err : error) (w : World) : result World :=
  let w1 := with_client (set_shutdown true) w in
  terminate_range err (map_to_list (pending (client w1))).*2 w1.

(** *** [func newClientCodec(cc codec.Codec, opt *server.Option) *Client]

    The new client; [go client.receive()] starts the receiver. *)
Definition newClientCodec (c : C) : Client :=
  {| cc := c; header := codec.zero; seq := 1; pending := ∅;
     closing := false; shutdown := false |}.

Definition new_world (c : C) : World :=
  {| client := newClientCodec c; calls := []; chans := [] |}.

(** *** [func (client *Client) receive()]

    One pass through the body of [for err == nil].  The result carries
    the value of the loop variable [err] at the end of the pass; a failed
    [ReadHeader] leaves through [break] with the same [err]. *)
Definition receive_pass (w : World) : result (World * option error) :=
  let '(c1, h, e) := codec.ReadHeader (cc (client w)) in
  let w := with_client (set_cc c1) w in
  match e with
  | Some err => Ret (w, Some err)
  | None =>
      let '(w, call) := removeCall (codec.Seq h) w in
      match call with
      | None =>
          let '(c2, e2) := codec.ReadBody (cc (client w)) any_nil in
          Ret (with_client (set_cc c2) w, e2)
      | Some p =>
          if decide (codec.Error h ≠ "") then
            let w := store_Error p (fmt_Errorf (codec.Error h)) w in
            let '(c2, e2) := codec.ReadBody (cc (client w)) any_nil in
            let w := with_client (set_cc c2) w in
            w ← Call_done p w;
            Ret (w, e2)
          else
            let '(c2, e2) :=
              codec.ReadBody (cc (client w))
                (default any_nil (Reply <$> calls w !! p)) in
            let w := with_client (set_cc c2) w in
            let w :=
              match e2 with
              | Some err =>
                  store_Error p (errors_New ("reading body " +:+ Error_text err)) w
              | None => w
              end in
            w ← Call_done p w;
            Ret (w, e2)
      end
  end.

(** Where the receiver stands after some passes: still in the loop, or
    out of it with [err] and [terminateCalls(err)] done. *)
Inductive receiver : Type :=
| Looping
| Terminated (err : error).

(** [receive], followed for at most [fuel] passes of the loop. *)
Fixpoint receive (fuel : nat) (w : World) : result (World * receiver) :=
  match fuel with
  | O => Ret (w, Looping)
  | S fuel' =>
      '(w1, err) ← receive_pass w;
      match err with
      | None => receive fuel' w1
      | Some e =>
          w2 ← terminateCalls e w1;
          Ret (w2, Terminated e)
      end
  end.

(** *** [func (client *Client) send(call *Call)] *)
Definition send (p : ptr) (w : World) : result World :=
  let '(w, (s, err)) := registerCall p w in
  match err with
  | Some e => Call_done p (store_Error p e w)
  | None =>
      match calls w !! p with
      | None => Panic "invalid memory address or nil pointer dereference"
      | Some call =>
          let h := {| codec.Service := Service call;
                      codec.Method := Method call;
                      codec.Seq := s;
                      codec.Error := "" |} in
          let w := with_client (set_header h) w in
          let '(c', werr) :=
            codec.Write (cc (client w)) (header (client w)) (Args call) in
          let w := with_client (set_cc c') w in
          match werr with
          | None => Ret w
          | Some e =>
              let '(w, removed) := removeCall s w in
              match removed with
              | Some q => Call_done q (store_Error q e w)
              | None => Ret w
              end
          end
      end
  end.

(** *** [func (client *Client) Go(service, method, args, reply, done) *Call]

    [done] is [None] for a nil channel.  [cap] of a channel the heap does
    not hold is read as 0. *)
Definition cap (w : World) (d : chan) : nat :=
  default 0 (chan_cap <$> chans w !! d).

Definition Go (service method : string) (args reply : any)
    (done : option chan) (w : World) : result (World * ptr) :=
  '(w, d) ←
    match done with
    | None =>
        Ret (with_chans (λ l, l ++ [make_chan 10]) w, length (chans w))
    | Some d =>
        if decide (cap w d = 0)
        then Panic "rpc client: done channel is unbuffered"
        else Ret (w, d)
    end;
  let call := {| Seq := 0; Service := service; Method := method;
                 Args := args; Reply := reply; Error := None; Done := d |} in
  let p := length (calls w) in
  let w := with_calls (λ l, l ++ [call]) w in
  w ← send p w;
  Ret (w, p).

(** *** [func (client *Client) Call(service, method, args, reply) error]

    [<-call.Done] without a receiver goroutine in sight: when the channel
    is empty the caller waits. *)
Definition Client_Call (service method : string) (args reply : any)
    (w : World) : result (World * option error) :=
  let d := length (chans w) in
  let w := with_chans (λ l, l ++ [make_chan 1]) w in
  '(w, p) ← Go service method args reply (Some d) w;
  match calls w !! p with
  | None => Panic "invalid memory address or nil pointer dereference"
  | Some c =>
      match chans w !! Done c with
      | None => Block
      | Some ch =>
          match chan_recv ch with
          | None => Block
          | Some (q, ch') =>
              let w := with_chans (<[Done c := ch']>) w in
              Ret (w, default None (Error <$> calls w !! q))
          end
      end
  end.

End client.

Arguments Client C : clear implicits.
Arguments World C : clear implicits.

(** ** A scripted codec, for the examples

    Reads and writes follow a script: [headers] and [bodies] are the
    outcomes of the coming [ReadHeader] and [ReadBody] calls (an exhausted
    script reads as end of stream), [writes] the outcomes of the coming
    [Write] calls (an exhausted script accepts every write).  [written]
    logs the headers written and [closed] counts the calls of [Close]. *)
Module fake.

Record t : Type := {
  headers : list (codec.Header * option error);
  bodies : list (option error);
  writes : list (option error);
  written : list codec.Header;
  closed : nat
}.

Definition EOF : error := ext_error "EOF".

Definition Close (f : t) : t * option error :=
  ({| headers := headers f; bodies := bodies f; writes := writes f;
      written := written f; closed := S (closed f) |}, None).

Definition ReadHeader (f : t) : t * codec.Header * option error :=
  match headers f with
  | [] => (f, codec.zero, Some EOF)
  | (h, e) :: rest =>
      ({| headers := rest; bodies := bodies f; writes := writes f;
          written := written f; closed := closed f |}, h, e)
  end.

Definition ReadBody (f : t) (target : any) : t * option error :=
  match bodies f with
  | [] => (f, Some EOF)
  | e :: rest =>
      ({| headers := headers f; bodies := rest; writes := writes f;
          written := written f; closed := closed f |}, e)
  end.

Definition Write (f : t) (h : codec.Header) (body : any) : t * option error :=
  match writes f with
  | [] =>
      ({| headers := headers f; bodies := bodies f; writes := [];
          written := written f ++ [h]; closed := closed f |}, None)
  | e :: rest =>
      ({| headers := headers f; bodies := bodies f; writes := rest;
          written := written f ++ [h]; closed := closed f |}, e)
  end.

#[global] Instance fake_codec : codec.Codec t :=
  {| codec.Close := Close; codec.ReadHeader := ReadHeader;
     codec.ReadBody := ReadBody; codec.Write := Write |}.

(** A codec whose stream will deliver the given responses. *)
Definition script (hs : list (codec.Header * option error))
    (bs ws : list (option error)) : t :=
  {| headers := hs; bodies := bs; writes := ws; written := []; closed := 0 |}.

Definition idle : t := script [] [] [].

(** A response header. *)
Definition response (s : Z) (e : string) : codec.Header * option error :=
  ({| codec.Service := ""; codec.Method := ""; codec.Seq := s;
      codec.Error := e |}, None).

End fake.

(** ** Observations on a world *)

Section observe.
Context {C : Type} `{!codec.Codec C}.

(** The [Error] field behind a pointer. *)
Definition Error_of (w : World C) (p : ptr) : option error :=
  c ← calls w !! p; Error c.

(** The [Seq] field behind a pointer. *)
Definition Seq_of (w : World C) (p : ptr) : option Z :=
  Seq <$> calls w !! p.

(** The number of completion events delivered so far for the call behind
    [p]: how often [p] was sent on its own [Done] channel. *)
Definition delivered (w : World C) (p : ptr) : nat :=
  match calls w !! p with
  | Some c =>
      match chans w !! Done c with
      | Some ch => length (filter (λ q, q = p) (chan_sent ch))
      | None => 0
      end
  | None => 0
  end.

(** The [Done] channel of the call behind [p] exists and takes [n] more
    elements without blocking. *)
Definition room_for (n : nat) (w : World C) (p : ptr) : Prop :=
  match calls w !! p with
  | Some c =>
      match chans w !! Done c with
      | Some ch => length (chan_buf ch) + n ≤ chan_cap ch
      | None => False
      end
  | None => False
  end.

#[global] Instance room_for_dec n w p : Decision (room_for n w p).
Proof.
  unfold room_for. destruct (calls w !! p) as [c|]; [|apply _].
  destruct (chans w !! Done c); apply _.
Defined.

(** The calls of [l] that are completed on the channel of the call
    behind [p]. *)
Definition sharing (w : World C) (l : list ptr) (p : ptr) : nat :=
  length (filter (λ q, Done <$> calls w !! q = Done <$> calls w !! p) l).

(** Every call of [l] exists, and its [Done] channel exists and takes,
    without blocking, one element for each call of [l] that is completed
    on it. *)
Definition room_for_all (l : list ptr) (w : World C) : Prop :=
  Forall (λ p, room_for (sharing w l p) w p) l.

#[global] Instance room_for_all_dec l w : Decision (room_for_all l w).
Proof. unfold room_for_all. apply _. Defined.

(** The channel after one more send. *)
Definition chan_push (p : ptr) (ch : Chan) : Chan :=
  {| chan_cap := chan_cap ch; chan_buf := chan_buf ch ++ [p];
     chan_sent := chan_sent ch ++ [p] |}.

(** The header [send] prepares for a call registered under [s]. *)
Definition request_header (c : Call) (s : Z) : codec.Header :=
  {| codec.Service := Service c; codec.Method := Method c;
     codec.Seq := s; codec.Error := "" |}.

(** The calls of the pending table, in the order [terminateCalls] goes
    through them. *)
Definition pending_calls (w : World C) : list ptr :=
  (map_to_list (pending (client w))).*2.

(** What [receive] does after a pass that ended with [err]. *)
Definition after_pass (n : nat) (w : World C) (err : option error)
    : result (World C * receiver) :=
  match err with
  | None => receive n w
  | Some e => w2 ← terminateCalls e w; Ret (w2, Terminated e)
  end.

(** The registrations of a connection, in the order in which they get
    hold of [client.mu], with what each of them returns. *)
Fixpoint registerCalls (ps : list ptr) (w : World C)
    : World C * list (Z * option error) :=
  match ps with
  | [] => (w, [])
  | p :: rest =>
      let '(w1, r) := registerCall p w in
      let '(w2, rs) := registerCalls rest w1 in
      (w2, r :: rs)
  end.

End observe.

(** ** Goroutines: the interleaving model

    Callers run [Go] (and with it [send]) in goroutines of their own while
    the one receiver runs [receive].  A state holds the shared world, the
    holder of [client.sending] and one program counter per goroutine.  A
    goroutine moves by one statement of the source at a time; a section
    under [client.mu] is one move, except for the loop of
    [terminateCalls], which can wait on a channel with [mu] held and is
    therefore gone through call by call. *)

(** A goroutine inside [send(call)].  The goroutine of index [t] sends the
    call of index [t]: [Go] builds the call and calls [send] itself. *)
Inductive send_pc : Type :=
| SStart                                  (* before [client.sending.Lock()] *)
| SLocked                                 (* before [registerCall] *)
| SRegFailed (e : error)                  (* before [call.Error = err] *)
| SRegistered (s : Z)                     (* before the header is set and written *)
| SWriteFailed (s : Z) (e : error)        (* before [removeCall(seq)] *)
| SRemoved (call : option nat) (e : error) (* before [if call != nil] *)
| SDeliver (call : nat)                   (* before [call.done()] *)
| SUnlock                                 (* before the deferred [Unlock] *)
| SReturned.

(** The receiver goroutine inside [receive]. *)
Inductive recv_pc : Type :=
| RLoop                                   (* before [ReadHeader] *)
| RHeader (h : codec.Header)              (* before [removeCall(header.Seq)] *)
| RNoCall                                 (* case [call == nil] *)
| RRemote (call : nat) (h : codec.Header) (* case [header.Error != ""] *)
| RNormal (call : nat)                    (* default case *)
| RDeliver (call : nat) (err : option error)  (* before [call.done()] *)
| RExit (err : error)                     (* loop left; before [sending.Lock()] *)
| RLocked (err : error)                   (* before [mu.Lock()] *)
| RRange (err : error) (rest : list nat)  (* in the loop, before [call.Error = err] *)
| RRangeDone (err : error) (call : nat) (rest : list nat) (* before [call.done()] *)
| RReturned (err : error).

(** Who holds [client.sending]. *)
Inductive holder : Type :=
| HSender (t : nat)
| HReceiver.

(** What the scheduler and the callers can do. *)
Inductive event : Type :=
| EMake (capacity : nat)       (* a caller makes a channel *)
| EGo (service method : string) (args reply : any) (done : option nat)
                               (* a caller enters [Go], up to the call of [send] *)
| ESend (t : nat)              (* goroutine [t] makes its next move in [send] *)
| EReceive                     (* the receiver makes its next move *)
| EClose                       (* a caller runs [Close] *)
| ETake (d : nat).             (* a caller receives from the channel [d] *)

Section goroutines.
Context {C : Type} `{!codec.Codec C}.

Record State : Type := {
  world : World C;
  sending : option holder;
  senders : list send_pc;
  recv : recv_pc
}.

Definition set_world (w : World C) (st : State) : State :=
  {| world := w; sending := sending st; senders := senders st;
     recv := recv st |}.
Definition set_sending (h : option holder) (st : State) : State :=
  {| world := world st; sending := h; senders := senders st;
     recv := recv st |}.
Definition set_senders (l : list send_pc) (st : State) : State :=
  {| world := world st; sending := sending st; senders := l;
     recv := recv st |}.
Definition set_recv (pc : recv_pc) (st : State) : State :=
  {| world := world st; sending := sending st; senders := senders st;
     recv := pc |}.

(** [client.mu] is held across moves only inside the loop of
    [terminateCalls]. *)
Definition mu_held (st : State) : bool :=
  match recv st with
  | RRange _ _ | RRangeDone _ _ _ => true
  | _ => false
  end.

(** The state after [Go] has built its call, right before [send]. *)
Definition Go_enter (service method : string) (args reply : any)
    (done : option nat) (st : State) : option State :=
  let w := world st in
  '(w, d) ←
    match done with
    | None => Some (with_chans (λ l, l ++ [make_chan 10]) w, length (chans w))
    | Some d => if decide (cap w d = 0) then None else Some (w, d)
    end;
  let call := {| Seq := 0; Service := service; Method := method;
                 Args := args; Reply := reply; Error := None; Done := d |} in
  Some (set_senders (senders st ++ [SStart])
          (set_world (with_calls (λ l, l ++ [call]) w) st)).

(** One move of goroutine [t] in [send], from [pc]: the new program
    counter and the new state, or [None] when the goroutine has to wait. *)
Definition send_move (t : nat) (pc : send_pc) (st : State)
    : option (send_pc * State) :=
  let w := world st in
  match pc with
  | SStart =>
      match sending st with
      | None => Some (SLocked, set_sending (Some (HSender t)) st)
      | Some _ => None
      end
  | SLocked =>
      if mu_held st then None
      else
        let '(w, (s, err)) := registerCall t w in
        Some (match err with
              | Some e => SRegFailed e
              | None => SRegistered s
              end, set_world w st)
  | SRegFailed e => Some (SDeliver t, set_world (store_Error t e w) st)
  | SRegistered s =>
      call ← calls w !! t;
      let w := with_client (set_header (request_header call s)) w in
      let '(c', werr) :=
        codec.Write (cc (client w)) (header (client w)) (Args call) in
      let w := with_client (set_cc c') w in
      Some (match werr with
            | None => SUnlock
            | Some e => SWriteFailed s e
            end, set_world w st)
  | SWriteFailed s e =>
      if mu_held st then None
      else
        let '(w, removed) := removeCall s w in
        Some (SRemoved removed e, set_world w st)
  | SRemoved (Some q) e => Some (SDeliver q, set_world (store_Error q e w) st)
  | SRemoved None e => Some (SUnlock, st)
  | SDeliver q =>
      match Call_done q w with
      | Ret w => Some (SUnlock, set_world w st)
      | _ => None
      end
  | SUnlock => Some (SReturned, set_sending None st)
  | SReturned => None
  end.

(** Where the receiver goes when a pass has ended with [err]. *)
Definition next_pass (err : option error) : recv_pc :=
  match err with
  | None => RLoop
  | Some e => RExit e
  end.

(** One move of the receiver. *)
Definition receive_move (st : State) : option State :=
  let w := world st in
  match recv st with
  | RLoop =>
      let '(c1, h, e) := codec.ReadHeader (cc (client w)) in
      let w := with_client (set_cc c1) w in
      Some (set_recv (match e with
                      | Some err => RExit err
                      | None => RHeader h
                      end) (set_world w st))
  | RHeader h =>
      let '(w, call) := removeCall (codec.Seq h) w in
      Some (set_recv (match call with
                      | None => RNoCall
                      | Some p =>
                          if decide (codec.Error h ≠ "") then RRemote p h
                          else RNormal p
                      end) (set_world w st))
  | RNoCall =>
      let '(c2, e2) := codec.ReadBody (cc (client w)) any_nil in
      Some (set_recv (next_pass e2) (set_world (with_client (set_cc c2) w) st))
  | RRemote p h =>
      let w := store_Error p (fmt_Errorf (codec.Error h)) w in
      let '(c2, e2) := codec.ReadBody (cc (client w)) any_nil in
      Some (set_recv (RDeliver p e2)
              (set_world (with_client (set_cc c2) w) st))
  | RNormal p =>
      let '(c2, e2) :=
        codec.ReadBody (cc (client w))
          (default any_nil (Reply <$> calls w !! p)) in
      let w := with_client (set_cc c2) w in
      let w :=
        match e2 with
        | Some err =>
            store_Error p (errors_New ("reading body " +:+ Error_text err)) w
        | None => w
        end in
      Some (set_recv (RDeliver p e2) (set_world w st))
  | RDeliver p e2 =>
      match Call_done p w with
      | Ret w => Some (set_recv (next_pass e2) (set_world w st))
      | _ => None
      end
  | RExit err =>
      match sending st with
      | None => Some (set_recv (RLocked err) (set_sending (Some HReceiver) st))
      | Some _ => None
      end
  | RLocked err =>
      let w := with_client (set_shutdown true) w in
      Some (set_recv (RRange err (pending_calls w)) (set_world w st))
  | RRange err (p :: rest) =>
      Some (set_recv (RRangeDone err p rest) (set_world (store_Error p err w) st))
  | RRangeDone err p rest =>
      match Call_done p w with
      | Ret w => Some (set_recv (RRange err rest) (set_world w st))
      | _ => None
      end
  | RRange err [] => Some (set_recv (RReturned err) (set_sending None st))
  | RReturned _ => None
  end.

(** One step of the system. *)
Definition step (e : event) (st : State) : option State :=
  match e with
  | EMake capacity =>
      Some (set_world (with_chans (λ l, l ++ [make_chan capacity]) (world st)) st)
  | EGo service method args reply done =>
      Go_enter service method args reply done st
  | ESend t =>
      pc ← senders st !! t;
      '(pc', st') ← send_move t pc st;
      Some (set_senders (<[t := pc']> (senders st')) st')
  | EReceive => receive_move st
  | EClose =>
      if mu_held st then None
      else Some (set_world (Close (world st)).1 st)
  | ETake d =>
      ch ← chans (world st) !! d;
      '(_, ch') ← chan_recv ch;
      Some (set_world (with_chans (<[d := ch']>) (world st)) st)
  end.

(** A run: the events of a schedule, one after the other. *)
Fixpoint exec (es : list event) (st : State) : option State :=
  match es with
  | [] => Some st
  | e :: es' => st' ← step e st; exec es' st'
  end.

(** The state [newClientCodec] leaves: a new client, the receiver
    started. *)
Definition init (c : C) : State :=
  {| world := new_world c; sending := None; senders := []; recv := RLoop |}.

(** *** A goroutine on its own

    The moves of one goroutine with nobody else moving, to compare them
    with the functions of the package. *)

(** The moves of goroutine [t] in [send], one after the other with nobody
    else moving, until it has returned. *)
Fixpoint run_send (fuel : nat) (t : nat) (pc : send_pc) (st : State)
    : option (State) :=
  match pc, fuel with
  | SReturned, _ => Some st
  | _, O => None
  | _, S fuel' =>
      '(pc', st') ← send_move t pc st; run_send fuel' t pc' st'
  end.

(** The moves of the receiver through one pass of its loop. *)
Definition pass_end (pc : recv_pc) : bool :=
  match pc with RLoop | RExit _ => true | _ => false end.

Fixpoint run_pass (fuel : nat) (st : State) : option (State) :=
  match fuel with
  | O => None
  | S fuel' =>
      st' ← receive_move st;
      if pass_end (recv st') then Some st' else run_pass fuel' st'
  end.

(** The moves of the receiver from the exit of its loop to its return. *)
Fixpoint run_terminate (fuel : nat) (st : State) : option (State) :=
  match recv st, fuel with
  | RReturned _, _ => Some st
  | _, O => None
  | _, S fuel' => st' ← receive_move st; run_terminate fuel' st'
  end.

(** *** Who owes a call its completion

    A call that is not completed yet is in the hands of whoever will
    complete it: the pending table (until the client is shut down), a
    goroutine in [send], or the receiver. *)

Definition count (p : nat) (l : list nat) : nat :=
  length (filter (λ q, q = p) l).

Definition pending_owes (w : World C) (p : nat) : nat :=
  if shutdown (client w) then 0 else count p (pending_calls w).

Definition sender_owes (t : nat) (pc : send_pc) (p : nat) : nat :=
  match pc with
  | SStart | SLocked | SRegFailed _ => if decide (p = t) then 1 else 0
  | SRemoved (Some q) _ | SDeliver q => if decide (p = q) then 1 else 0
  | _ => 0
  end.

Definition senders_owe (l : list send_pc) (p : nat) : nat :=
  sum_list (imap (λ t pc, sender_owes t pc p) l).

Definition receiver_owes (pc : recv_pc) (p : nat) : nat :=
  match pc with
  | RRemote q _ | RNormal q | RDeliver q _ => if decide (p = q) then 1 else 0
  | RRange _ rest => count p rest
  | RRangeDone _ q rest => (if decide (p = q) then 1 else 0) + count p rest
  | _ => 0
  end.

Definition owed (st : State) (p : nat) : nat :=
  pending_owes (world st) p + senders_owe (senders st) p
  + receiver_owes (recv st) p.

(** Every goroutine has returned from [send] and the receiver from
    [receive]. *)
Definition quiescent (st : State) : Prop :=
  Forall (λ pc, pc = SReturned) (senders st) ∧
  ∃ err, recv st = RReturned err.

(** *** The invariant of the system *)

Definition in_send (pc : send_pc) : bool :=
  match pc with SStart | SReturned => false | _ => true end.
Definition registered (pc : send_pc) : bool :=
  match pc with SRegistered _ | SWriteFailed _ _ => true | _ => false end.
Definition terminating (pc : recv_pc) : bool :=
  match pc with RLocked _ | RRange _ _ | RRangeDone _ _ _ => true | _ => false end.
Definition shut (pc : recv_pc) : bool :=
  match pc with RRange _ _ | RRangeDone _ _ _ | RReturned _ => true | _ => false end.

Definition exists_call (w : World C) (p : nat) : nat :=
  if decide (p < length (calls w)) then 1 else 0.

(** Goroutines that have been through [registerCall]. *)
Definition started (pc : send_pc) : nat :=
  match pc with SStart | SLocked => 0 | _ => 1 end.
Definition numbered (l : list send_pc) : nat :=
  sum_list (imap (λ _ pc, started pc) l).

(** The connection has not used up the sequence numbers of a [uint64]. *)
Definition in_range (w : World C) : Prop :=
  (Z.of_nat (length (calls w)) < 2 ^ 64 - 1)%Z.

Record invariant (st : State) : Prop := {
  inv_threads : length (senders st) = length (calls (world st));
  inv_sent : ∀ d ch q, chans (world st) !! d = Some ch →
    q ∈ chan_sent ch → q < length (calls (world st));
  inv_lock_sender : ∀ t pc, senders st !! t = Some pc →
    in_send pc = true → sending st = Some (HSender t);
  inv_lock_receiver : terminating (recv st) = true →
    sending st = Some HReceiver;
  inv_shutdown : shutdown (client (world st)) = shut (recv st);
  inv_registered : ∀ t pc, senders st !! t = Some pc →
    registered pc = true → shutdown (client (world st)) = false;
  inv_owed : ∀ p,
    owed st p + delivered (world st) p ≤ exists_call (world st) p;
  inv_numbers : in_range (world st) →
    (1 ≤ seq (client (world st)) ≤ 1 + Z.of_nat (numbered (senders st)))%Z ∧
    (∀ k p, pending (client (world st)) !! k = Some p →
       (1 ≤ k < seq (client (world st)))%Z) ∧
    (∀ p, owed st p + delivered (world st) p = exists_call (world st) p)
}.

Definition lock_move (t : nat) (pc pc' : send_pc) (st st1 : State) : Prop :=
  match pc with
  | SStart =>
      sending st = None ∧ sending st1 = Some (HSender t) ∧ pc' = SLocked
  | SUnlock => sending st1 = None ∧ pc' = SReturned
  | SReturned => False
  | _ => sending st1 = sending st ∧ in_send pc' = true
  end.

Definition sent_from (w w' : World C) : Prop :=
  ∀ d ch x, chans w' !! d = Some ch → x ∈ chan_sent ch →
    x < length (calls w) ∨ ∃ ch0, chans w !! d = Some ch0 ∧ x ∈ chan_sent ch0.

Definition recv_lock_move (st st1 : State) : Prop :=
  match recv st with
  | RExit _ =>
      sending st = None ∧ sending st1 = Some HReceiver ∧
      terminating (recv st1) = true ∧ shut (recv st1) = false
  | RLocked _ => sending st1 = sending st ∧ terminating (recv st1) = true
  | RRange _ [] =>
      sending st1 = None ∧ terminating (recv st1) = false ∧
      shut (recv st1) = true
  | RReturned _ => False
  | pc =>
      sending st1 = sending st ∧ terminating (recv st1) = terminating pc ∧
      shut (recv st1) = shut pc
  end.

(** The numbers the calls carry: 0 for a call that has not been
    registered, and otherwise the numbers from 1 to the counter, each on
    one call. *)
Record numbering (st : State) : Prop := {
  num_range : ∀ t s, Seq_of (world st) t = Some s →
    (0 ≤ s < seq (client (world st)))%Z;
  num_distinct : ∀ t1 t2 s, Seq_of (world st) t1 = Some s →
    Seq_of (world st) t2 = Some s → s ≠ 0%Z → t1 = t2;
  num_all : ∀ s, (1 ≤ s < seq (client (world st)))%Z →
    ∃ t, Seq_of (world st) t = Some s;
  num_unsent : ∀ t pc s, senders st !! t = Some pc → started pc = 0 →
    Seq_of (world st) t = Some s → s = 0%Z
}.

End goroutines.

Arguments State C : clear implicits.

Section mover.
Context {C : Type} `{!codec.Codec C}.

(** What the goroutine that makes the move [e] owes to the call [p]:
    callers that make a channel, enter [Go], close the client or take a
    call from a channel owe nothing. *)
Definition mover_owes (e : event) (st : State C) (p : nat) : nat :=
  match e with
  | ESend t => default 0 ((λ pc, sender_owes t pc p) <$> senders st !! t)
  | EReceive => receiver_owes (recv st) p
  | _ => 0
  end.

End mover.

(** Unfolding one move. *)
Ltac unfold_moves :=
  cbn [send_move mbind option_bind];
  unfold receive_move, set_sending, set_world, set_senders, set_recv;
  cbn [world sending senders recv mbind option_bind pass_end next_pass].

(** ** Worlds for the examples *)

(** A client on an idle stream that the user has closed. *)
Definition closed_world : World fake.t := (Close (new_world fake.idle)).1.

(** A client whose receiver met the end of the stream at its first read. *)
Definition shut_world : World fake.t :=
  match receive 1 (new_world fake.idle) with
  | Ret (w, _) => w
  | _ => new_world fake.idle
  end.

(** Hypotheses on a concrete world are settled by evaluation. *)
Ltac by_evaluation := apply (bool_decide_unpack _); vm_compute; exact I.

(** A body that does not decode. *)
Definition bad_body : error := ext_error "gob: type mismatch".

(** Two calls sent on a fresh client, [Arith.Add] as number 1 and
    [Arith.Mul] as number 2.  The stream holds the two responses in
    that order; the body of the first one does not decode. *)
Definition two_calls : World fake.t :=
  let c := fake.script [fake.response 1 ""; fake.response 2 ""]
             [Some bad_body; None] [] in
  match Go "Arith" "Add" (any_val 2) (any_val 0) None (new_world c) with
  | Ret (w, _) =>
      match Go "Arith" "Mul" (any_val 2) (any_val 0) None w with
      | Ret (w, _) => w
      | _ => w
      end
  | _ => new_world c
  end.

(** One call is pending as number 1; the stream first delivers a
    response for number 7, which nobody waits for, then the response
    for number 1. *)
Definition orphaned : World fake.t :=
  let c := fake.script [fake.response 7 ""; fake.response 1 ""]
             [None; None] [] in
  match Go "Arith" "Add" (any_val 2) (any_val 0) None (new_world c) with
  | Ret (w, _) => w
  | _ => new_world c
  end.

(** A new call, as [Go] builds it. *)
Definition fresh_call : Call :=
  {| Seq := 0; Service := "Arith"; Method := "Add"; Args := any_val 2;
     Reply := any_val 0; Error := None; Done := 0 |}.

(** A new client with [n] calls built and not yet sent. *)
Definition unsent (n : nat) : World fake.t :=
  {| client := newClientCodec fake.idle;
     calls := replicate n fresh_call;
     chans := [make_chan 10] |}.


(** A stream that already holds the response for number 1, under a
    connection on which the first write fails. *)
Definition racing : fake.t :=
  fake.script [fake.response 1 ""] [None] [Some (ext_error "broken pipe")].

(** The receiver wins: the call is registered, the receiver reads the
    response and takes the call out of the table, the write fails, the
    receiver completes the call, the sender finds the table empty.  Then
    the stream ends and the receiver terminates; the caller takes the
    call from its channel. *)
Definition receiver_first : list event :=
  [EGo "Arith" "Add" (any_val 2) (any_val 0) None;
   ESend 0; ESend 0;
   EReceive; EReceive;
   ESend 0;
   EReceive; EReceive;
   ESend 0; ESend 0; ESend 0;
   EReceive; EReceive; EReceive; EReceive;
   ETake 0].

(** The sender wins: the write fails and the sender takes the call out of
    the table and completes it before the receiver has looked at the
    response, which then finds nobody waiting. *)
Definition sender_first : list event :=
  [EGo "Arith" "Add" (any_val 2) (any_val 0) None;
   ESend 0; ESend 0; ESend 0; ESend 0; ESend 0; ESend 0; ESend 0;
   EReceive; EReceive; EReceive;
   EReceive; EReceive; EReceive; EReceive;
   ETake 0].

(** ** Package [server] (imported by the client) *)
Module server.

(** Modelled from the spec: the [server.Option] struct, declared in a
    package outside the sources at hand.  It is the resolved configuration
    of a connection; the client reads and writes two of its fields, the
    protocol number [RpcNumber] and the name of the codec [CodecType]. *)
Record Option : Type := {
  RpcNumber : Z;
  CodecType : string
}.

Definition set_RpcNumber (n : Z) (o : Option) : Option :=
  {| RpcNumber := n; CodecType := CodecType o |}.
Definition set_CodecType (t : string) (o : Option) : Option :=
  {| RpcNumber := RpcNumber o; CodecType := t |}.

End server.

(** ** Setting a connection up: [parseOptions], [NewClient], [Dial] *)

(** Modelled from the spec: what the set-up takes from outside the
    package, by the way [client.go] uses it.  [net.Dial] acts on the
    network [Net] and gives a connection or an error; a connection [Conn]
    is closed, and written to by [json.NewEncoder(conn).Encode]; the map
    [codec.NewCodecFuncMap], of the package [codec] outside the sources at
    hand, gives for the name of a codec the function that builds the
    codec on a connection, or nothing (a nil function). *)
Class Transport (Net Conn C : Type) : Type := {
  net_Dial : string → string → Net → Net * (Conn + error);
  conn_Close : Conn → Conn * option error;
  json_Encode : Conn → server.Option → Conn * option error;
  NewCodecFuncMap : string → option (Conn → C)
}.

Section setup.
Context {Net Conn C : Type} `{!codec.Codec C} `{!Transport Net Conn C}.

(** A [*server.Option] is [None] for nil or an index into the heap of
    options; [DefaultOption] is the address of [server.DefaultOption]. *)
Variable DefaultOption : nat.

(** *** [func parseOptions(opts ...*server.Option)]

    The option of the caller is changed in place, and it is the caller's
    own pointer that comes back. *)
Definition parseOptions (opts : list (option nat)) (h : list server.Option)
    : result (list server.Option * (option nat * option error)) :=
  match opts with
  | [] | None :: _ => Ret (h, (Some DefaultOption, None))
  | Some o :: _ =>
      if decide (length opts ≠ 1)
      then Ret (h, (None, Some (errors_New "options are more than 1")))
      else
        match h !! DefaultOption, h !! o with
        | Some d, Some _ =>
            let h := alter (server.set_RpcNumber (server.RpcNumber d)) o h in
            match h !! DefaultOption, h !! o with
            | Some d, Some opt =>
                let h :=
                  if decide (server.CodecType opt = "")
                  then alter (server.set_CodecType (server.CodecType d)) o h
                  else h in
                Ret (h, (Some o, None))
            | _, _ =>
                Panic "invalid memory address or nil pointer dereference"
            end
        | _, _ => Panic "invalid memory address or nil pointer dereference"
        end
  end.

(** The text of [fmt.Errorf("invalid codec type %s ", t)]: the verb [%s]
    prints the string as it is. *)
Definition invalid_codec_type (t : string) : error :=
  fmt_Errorf ("invalid codec type " +:+ t +:+ " ").

(** *** [func NewClient(conn net.Conn, opt *server.Option)]

    The result holds the connection as [NewClient] leaves it.  The lines
    written with [log.Println] are not modelled. *)
Definition NewClient (conn : Conn) (opt : option nat)
    (h : list server.Option)
    : result (Conn * (option (Client C) * option error)) :=
  match opt ≫= (h !!.) with
  | None => Panic "invalid memory address or nil pointer dereference"
  | Some o =>
      match NewCodecFuncMap (server.CodecType o) with
      | None => Ret (conn, (None, Some (invalid_codec_type (server.CodecType o))))
      | Some f =>
          let '(conn, err) := json_Encode conn o in
          match err with
          | Some e =>
              let '(conn, _) := conn_Close conn in
              Ret (conn, (None, Some e))
          | None => Ret (conn, (Some (newClientCodec (f conn)), None))
          end
      end
  end.

(** What [Dial] leaves behind and returns: the network, the heap of
    options, the connection if one was made, the client and the error. *)
Record Dialed : Type := {
  dialed_net : Net;
  dialed_options : list server.Option;
  dialed_conn : option Conn;
  dialed_client : option (Client C);
  dialed_err : option error
}.

(** *** [func Dial(network, address string, opts ...*server.Option)] *)
Definition Dial (network address : string) (opts : list (option nat))
    (n : Net) (h : list server.Option) : result Dialed :=
  '(h, (opt, err)) ← parseOptions opts h;
  match err with
  | Some e =>
      Ret {| dialed_net := n; dialed_options := h; dialed_conn := None;
             dialed_client := None; dialed_err := Some e |}
  | None =>
      let '(n, dialed) := net_Dial network address n in
      match dialed with
      | inr e =>
          Ret {| dialed_net := n; dialed_options := h; dialed_conn := None;
                 dialed_client := None; dialed_err := Some e |}
      | inl conn =>
          '(conn, (client, err)) ← NewClient conn opt h;
          (* the deferred function *)
          let conn :=
            match client with
            | None => (conn_Close conn).1
            | Some _ => conn
            end in
          Ret {| dialed_net := n; dialed_options := h;
                 dialed_conn := Some conn;
                 dialed_client := client; dialed_err := err |}
      end
  end.

End setup.

(** A scripted transport, for the examples: the network counts the calls
    of [net.Dial] and refuses the address ["down"]; a connection counts
    its closes and logs the options written to it, and fails to take an
    option whose codec is called ["slow"]; the codecs known are ["gob"]
    and ["slow"]. *)
Module fake_net.

Record conn : Type := {
  closes : nat;
  wrote : list server.Option
}.

Definition Dial (network address : string) (n : nat) : nat * (conn + error) :=
  if decide (address = "down")
  then (S n, inr (ext_error "connection refused"))
  else (S n, inl {| closes := 0; wrote := [] |}).

Definition Close (c : conn) : conn * option error :=
  ({| closes := S (closes c); wrote := wrote c |}, None).

Definition Encode (c : conn) (o : server.Option) : conn * option error :=
  if decide (server.CodecType o = "slow")
  then (c, Some (ext_error "write timeout"))
  else ({| closes := closes c; wrote := wrote c ++ [o] |}, None).

Definition codecs (t : string) : option (conn → fake.t) :=
  if decide (t = "gob") then Some (λ _, fake.idle)
  else if decide (t = "slow") then Some (λ _, fake.idle)
  else None.

#[global] Instance transport : Transport nat conn fake.t :=
  {| net_Dial := Dial; conn_Close := Close; json_Encode := Encode;
     NewCodecFuncMap := codecs |}.

(** [server.DefaultOption] at address 0, and three options of a caller. *)
Definition options : list server.Option :=
  [{| server.RpcNumber := 4242; server.CodecType := "gob" |};
   {| server.RpcNumber := 7; server.CodecType := "" |};
   {| server.RpcNumber := 7; server.CodecType := "slow" |};
   {| server.RpcNumber := 7; server.CodecType := "xml" |}].

End fake_net.

(** What [parseOptions] makes of the caller's option [opt] when the
    default is [d]. *)
Definition parsed (d opt : server.Option) : server.Option :=
  {| server.RpcNumber := server.RpcNumber d;
     server.CodecType :=
       if decide (server.CodecType opt = "") then server.CodecType d
       else server.CodecType opt |}.

(** ** What [Go] leaves behind *)

Section call_made.
Context {C : Type} `{!codec.Codec C}.

(** The call [Go] builds, once registered under [n]. *)
Definition sent_call (service method : string) (args reply : any)
    (n : Z) (d : nat) : Call :=
  {| Seq := n; Service := service; Method := method; Args := args;
     Reply := reply; Error := None; Done := d |}.

(** The channel [Go] completes the call on: the caller's, or a new one. *)
Definition done_chan (w : World C) (done : option nat) : nat :=
  match done with
  | None => length (chans w)
  | Some d => d
  end.

Definition chans_after_Go (w : World C) (done : option nat) : list Chan :=
  match done with
  | None => chans w ++ [make_chan 10]
  | Some _ => chans w
  end.

(** The world [Go] leaves when the client is available and [Write] has
    returned the codec [c']: the call is on the heap with its number,
    and the table still holds [table]. *)
Definition after_Go (w : World C) (service method : string)
    (args reply : any) (done : option nat) (c' : C)
    (table : gmap Z nat) : World C :=
  let n := seq (client w) in
  let call := sent_call service method args reply n (done_chan w done) in
  {| client :=
       {| cc := c'; header := request_header call n;
          seq := wrap64 (n + 1); pending := table;
          closing := false; shutdown := false |};
     calls := calls w ++ [call];
     chans := chans_after_Go w done |}.

(** The table maps every number to a call that carries it. *)
Definition table_numbers (w : World C) : Prop :=
  ∀ k p, pending (client w) !! k = Some p → Seq_of w p = Some k.

End call_made.

(** ** More worlds and schedules for the examples *)

(** One call sent on a fresh client as number 1; the stream holds its
    response, with a body that decodes. *)
Definition answered : World fake.t :=
  let c := fake.script [fake.response 1 ""] [None] [] in
  match Go "Arith" "Add" (any_val 2) (any_val 0) None (new_world c) with
  | Ret (w, _) => w
  | _ => new_world c
  end.

(** One call sent as number 1; the server answers with an error. *)
Definition refused : World fake.t :=
  let c := fake.script [fake.response 1 "rpc server: no such method"]
             [None] [] in
  match Go "Arith" "Sub" (any_val 2) (any_val 0) None (new_world c) with
  | Ret (w, _) => w
  | _ => new_world c
  end.




(** Two calls sent with one channel of capacity 1 for both. *)
Definition one_channel : World fake.t :=
  let w := with_chans (λ l, l ++ [make_chan 1]) (new_world fake.idle) in
  match Go "Arith" "Add" (any_val 2) (any_val 0) (Some 0) w with
  | Ret (w, _) =>
      match Go "Arith" "Mul" (any_val 2) (any_val 0) (Some 0) w with
      | Ret (w, _) => w
      | _ => w
      end
  | _ => w
  end.

(** The header of the request [Arith.Add] sent as number 1. *)
Definition Add_request : codec.Header :=
  {| codec.Service := "Arith"; codec.Method := "Add"; codec.Seq := 1;
     codec.Error := "" |}.

(** A schedule with two callers: the first one has registered its call
    and is about to write, the second one waits for [client.sending]. *)
Definition two_callers : list event :=
  [EGo "Arith" "Add" (any_val 2) (any_val 0) None;
   EGo "Arith" "Mul" (any_val 2) (any_val 0) None;
   ESend 0; ESend 0].

(** ** The pending-call registry *)

Section registry.
Context {C : Type} `{!codec.Codec C}.
Implicit Types (w : World C) (p : ptr).

(** C6. [registerCall] on a client that is closing or shut down returns
    [(0, ErrShutdown)] and leaves the whole state as it was; otherwise it
    returns the current counter with a nil error, writes that number
    into the call, stores the call under it in [pending] and advances
    the counter by one ([uint64] arithmetic); nothing else changes. *)
Theorem registerCall_spec w p :
  let '(w', (s, err)) := registerCall p w in
  if closing (client w) || shutdown (client w)
  then w' = w ∧ s = 0%Z ∧ err = Some ErrShutdown
  else
    s = seq (client w) ∧ err = None ∧
    pending (client w') = <[seq (client w) := p]> (pending (client w)) ∧
    seq (client w') = wrap64 (seq (client w) + 1) ∧
    calls w' = alter (Call_set_Seq (seq (client w))) p (calls w) ∧
    (∀ c, calls w !! p = Some c → Seq_of w' p = Some (seq (client w))) ∧
    cc (client w') = cc (client w) ∧
    header (client w') = header (client w) ∧
    closing (client w') = false ∧ shutdown (client w') = false ∧
    chans w' = chans w.
Proof.
  unfold registerCall.
  destruct (closing (client w)) eqn:Hc, (shutdown (client w)) eqn:Hs; simpl;
    try done.
  repeat split; try done.
  intros c Hp. unfold Seq_of. simpl.
  by rewrite list_lookup_alter_eq, Hp.
Qed.

End registry.

(** ** Delivering a completion *)

Section delivery.
Context {C : Type} `{!codec.Codec C}.
Implicit Types (w : World C) (p q : ptr).

Lemma lookup_snoc {A} (l : list A) (x : A) : (l ++ [x]) !! length l = Some x.
Proof. by apply list_lookup_middle. Qed.

Lemma alter_snoc {A} (f : A → A) (l : list A) (x : A) :
  alter f (length l) (l ++ [x]) = l ++ [f x].
Proof.
  rewrite alter_app_r_alt by lia.
  by replace (length l - length l) with 0 by lia.
Qed.

Lemma insert_snoc {A} (l : list A) (x y : A) :
  <[length l := y]> (l ++ [x]) = l ++ [y].
Proof.
  rewrite insert_app_r_alt by lia.
  by replace (length l - length l) with 0 by lia.
Qed.

Lemma chan_send_room p ch :
  length (chan_buf ch) < chan_cap ch → chan_send p ch = Some (chan_push p ch).
Proof. intros. unfold chan_send. by rewrite decide_True. Qed.

Lemma chan_send_Some p ch ch' :
  chan_send p ch = Some ch' →
  ch' = chan_push p ch ∧ length (chan_buf ch) < chan_cap ch.
Proof. unfold chan_send. case_decide; naive_solver. Qed.

(** [done] on a call whose channel has room returns, with the call at
    the back of its channel and nothing else touched. *)
Lemma Call_done_room w p c ch :
  calls w !! p = Some c → chans w !! Done c = Some ch →
  length (chan_buf ch) < chan_cap ch →
  Call_done p w = Ret (with_chans (<[Done c := chan_push p ch]>) w).
Proof.
  intros Hc Hch Hroom. unfold Call_done.
  by rewrite Hc, Hch, chan_send_room.
Qed.

Lemma Call_done_Ret w p w' :
  Call_done p w = Ret w' →
  ∃ c ch, calls w !! p = Some c ∧ chans w !! Done c = Some ch ∧
    length (chan_buf ch) < chan_cap ch ∧
    w' = with_chans (<[Done c := chan_push p ch]>) w.
Proof.
  unfold Call_done. intros Hd.
  destruct (calls w !! p) as [c|] eqn:Hc; [|done].
  destruct (chans w !! Done c) as [ch|] eqn:Hch; [|done].
  destruct (chan_send p ch) as [ch'|] eqn:Hs; [|done].
  apply chan_send_Some in Hs as [-> ?]. exists c, ch. naive_solver.
Qed.

Lemma filter_snoc_eq (p : ptr) l :
  length (filter (λ q, q = p) (l ++ [p])) = S (length (filter (λ q, q = p) l)).
Proof.
  rewrite filter_app, length_app. simpl.
  rewrite filter_cons_True by done. simpl. lia.
Qed.

Lemma filter_snoc_ne (p q : ptr) l :
  q ≠ p →
  length (filter (λ x, x = p) (l ++ [q])) = length (filter (λ x, x = p) l).
Proof.
  intros. rewrite filter_app, length_app. simpl.
  rewrite filter_cons_False by done. simpl. lia.
Qed.

(** How the counters move when [q] is pushed on the channel [d]. *)
Lemma delivered_push w p q c d ch :
  calls w !! q = Some c → Done c = d → chans w !! d = Some ch →
  delivered (with_chans (<[d := chan_push q ch]>) w) p =
  if decide (p = q) then S (delivered w p) else delivered w p.
Proof.
  intros Hc <- Hch. unfold delivered. simpl.
  destruct (calls w !! p) as [cp|] eqn:Hp.
  - destruct (decide (Done cp = Done c)) as [Heq|Hne].
    + rewrite Heq, Hch.
      rewrite list_lookup_insert_eq by (by eapply lookup_lt_Some).
      simpl. case_decide as Hpq.
      * subst. apply filter_snoc_eq.
      * apply filter_snoc_ne. congruence.
    + rewrite list_lookup_insert_ne by done.
      case_decide as Hpq; [|done].
      subst. congruence.
  - case_decide; [|done]. subst. congruence.
Qed.

End delivery.

(** ** The facade on a client that is no longer available *)

Section unavailable.
Context {C : Type} `{!codec.Codec C}.
Implicit Types (w : World C) (p q : ptr).

(** [send] on a closing or shut-down client: nothing is registered and
    nothing is written; the call gets [ErrShutdown] and is delivered. *)
Lemma send_unavailable w p c ch :
  closing (client w) || shutdown (client w) = true →
  calls w !! p = Some c → chans w !! Done c = Some ch →
  length (chan_buf ch) < chan_cap ch →
  send p w =
    Ret (with_chans (<[Done c := chan_push p ch]>) (store_Error p ErrShutdown w)).
Proof.
  intros Hu Hc Hch Hroom. unfold send, registerCall. rewrite Hu.
  apply Call_done_room with (c := Call_set_Error ErrShutdown c); try done.
  simpl. by rewrite list_lookup_alter_eq, Hc.
Qed.

(** [Go] with a nil [done] on an unavailable client. *)
Lemma Go_nil_unavailable w s m a r :
  closing (client w) || shutdown (client w) = true →
  ∃ w', Go s m a r None w = Ret (w', length (calls w)) ∧
    Error_of w' (length (calls w)) = Some ErrShutdown ∧
    delivered w' (length (calls w)) = 1 ∧
    client w' = client w.
Proof.
  intros Hu. unfold Go. simpl.
  set (c0 := {| Seq := 0; Service := s; Method := m; Args := a; Reply := r;
                Error := None; Done := length (chans w) |}).
  set (w2 := with_calls _ _).
  rewrite (send_unavailable w2 (length (calls w)) c0 (make_chan 10));
    [|done|apply lookup_snoc|apply lookup_snoc|simpl; lia].
  simpl. eexists. split; [done|].
  unfold Error_of, delivered. simpl.
  rewrite alter_snoc, lookup_snoc. simpl.
  rewrite insert_snoc, lookup_snoc. simpl.
  by rewrite filter_cons_True.
Qed.

(** [Go] with a caller's channel that has room, on an unavailable
    client. *)
Lemma Go_chan_unavailable w s m a r d ch :
  closing (client w) || shutdown (client w) = true →
  chans w !! d = Some ch → length (chan_buf ch) < chan_cap ch →
  ∃ w', Go s m a r (Some d) w = Ret (w', length (calls w)) ∧
    Error_of w' (length (calls w)) = Some ErrShutdown ∧
    Done <$> calls w' !! length (calls w) = Some d ∧
    chans w' !! d = Some (chan_push (length (calls w)) ch) ∧
    client w' = client w.
Proof.
  intros Hu Hd Hroom. unfold Go, cap. rewrite Hd. simpl.
  rewrite decide_False by lia. simpl.
  set (c0 := {| Seq := 0; Service := s; Method := m; Args := a; Reply := r;
                Error := None; Done := d |}).
  set (w2 := with_calls _ _).
  rewrite (send_unavailable w2 (length (calls w)) c0 ch);
    [|done|apply lookup_snoc|done|done].
  simpl. eexists. split; [done|].
  unfold Error_of. simpl.
  rewrite alter_snoc, lookup_snoc. simpl.
  rewrite list_lookup_insert_eq by (by eapply lookup_lt_Some). done.
Qed.

(** [Call] on an unavailable client returns [ErrShutdown], which it
    reads from the call it receives on the completion channel. *)
Lemma Call_unavailable w s m a r :
  closing (client w) || shutdown (client w) = true →
  ∃ w', Client_Call s m a r w = Ret (w', Some ErrShutdown) ∧
    client w' = client w.
Proof.
  intros Hu. unfold Client_Call.
  set (w1 := with_chans _ w).
  destruct (Go_chan_unavailable w1 s m a r (length (chans w)) (make_chan 1))
    as (w' & HGo & Herr & Hdone & Hch & Hcl);
    [done|apply lookup_snoc|simpl; lia|].
  rewrite HGo. simpl.
  unfold Error_of in Herr. simpl in Herr, Hdone.
  destruct (calls w' !! length (calls w)) as [c|] eqn:Hc; [|done].
  simpl in Herr, Hdone. injection Hdone as ->.
  simpl in Hch. rewrite Hch. simpl.
  rewrite Hc. simpl. rewrite Herr.
  eexists. split; [done|exact Hcl].
Qed.

(** C5. [Close] on a client that is not closing sets [closing] and hands
    the codec to its own [Close], whose result it returns.  A second
    [Close] returns [ErrShutdown] and leaves the state, the codec
    included, as it is.  Once [closing] is set, every [Go] (with a nil
    channel, or with a channel that has room) returns a call whose error
    is [ErrShutdown], every [Call] returns [ErrShutdown], and nothing is
    registered or written. *)
Theorem Close_then_unavailable w :
  closing (client w) = false →
  ∃ w1 e1, Close w = (w1, e1) ∧
    closing (client w1) = true ∧
    (cc (client w1), e1) = codec.Close (cc (client w)) ∧
    ∀ w2, closing (client w2) = true →
      Close w2 = (w2, Some ErrShutdown) ∧
      ∀ s m a r,
        (∃ w3, Go s m a r None w2 = Ret (w3, length (calls w2)) ∧
           Error_of w3 (length (calls w2)) = Some ErrShutdown ∧
           client w3 = client w2) ∧
        (∀ d ch, chans w2 !! d = Some ch →
           length (chan_buf ch) < chan_cap ch →
           ∃ w3, Go s m a r (Some d) w2 = Ret (w3, length (calls w2)) ∧
             Error_of w3 (length (calls w2)) = Some ErrShutdown ∧
             client w3 = client w2) ∧
        (∃ w3, Client_Call s m a r w2 = Ret (w3, Some ErrShutdown) ∧
           client w3 = client w2).
Proof.
  intros Hc. unfold Close at 1. rewrite Hc. simpl.
  destruct (codec.Close (cc (client w))) as [c' e] eqn:Hcl.
  eexists _, _. split; [done|]. split; [done|]. split; [done|].
  intros w2 H2. split; [unfold Close; by rewrite H2|].
  intros s m a r.
  assert (closing (client w2) || shutdown (client w2) = true) as Hu
    by (by rewrite H2).
  split; [|split].
  - destruct (Go_nil_unavailable w2 s m a r Hu) as (w3 & ? & ? & ? & ?).
    by exists w3.
  - intros d ch Hd Hroom.
    destruct (Go_chan_unavailable w2 s m a r d ch Hu Hd Hroom)
      as (w3 & ? & ? & ? & ? & ?).
    by exists w3.
  - by apply Call_unavailable.
Qed.

(** C10. On a client that the receiver has shut down ([shutdown] set)
    and that nobody has closed yet ([closing] clear), [Close] does not
    answer [ErrShutdown] on its own account: it sets [closing], runs the
    codec's [Close] and returns what the codec returned. *)
Theorem Close_after_shutdown w :
  shutdown (client w) = true → closing (client w) = false →
  Close w =
    (with_client (set_cc (codec.Close (cc (client w))).1)
       (with_client (set_closing true) w),
     (codec.Close (cc (client w))).2) ∧
  closing (client (Close w).1) = true ∧
  shutdown (client (Close w).1) = true.
Proof.
  intros Hs Hc. unfold Close. rewrite Hc. simpl.
  destruct (codec.Close (cc (client w))) as [c' e]. simpl.
  by rewrite Hs.
Qed.

End unavailable.

(** ** The sender *)

Section sender.
Context {C : Type} `{!codec.Codec C}.
Implicit Types (w : World C) (p q : ptr).

Lemma delivered_store_Error w p q e :
  delivered (store_Error q e w) p = delivered w p.
Proof.
  unfold delivered, store_Error. simpl.
  destruct (decide (q = p)) as [->|Hne].
  - rewrite list_lookup_alter_eq. by destruct (calls w !! p).
  - by rewrite list_lookup_alter_ne.
Qed.

Lemma delivered_store_Seq w p q s :
  delivered (store_Seq q s w) p = delivered w p.
Proof.
  unfold delivered, store_Seq. simpl.
  destruct (decide (q = p)) as [->|Hne].
  - rewrite list_lookup_alter_eq. by destruct (calls w !! p).
  - by rewrite list_lookup_alter_ne.
Qed.

(** [send], run without interference, on a call whose channel has room:
    it returns, and
    - on an unavailable client the call is completed with [ErrShutdown]
      and the client is untouched;
    - after a successful write the call is pending under the sequence
      number it was given, not completed;
    - after a failed write the call is out of the table again and
      completed with the write error. *)
Lemma send_cases w p c ch :
  calls w !! p = Some c → chans w !! Done c = Some ch →
  length (chan_buf ch) < chan_cap ch →
  ∃ w', send p w = Ret w' ∧
    if closing (client w) || shutdown (client w) then
      Error_of w' p = Some ErrShutdown ∧
      delivered w' p = S (delivered w p) ∧ client w' = client w ∧
      chans w' = <[Done c := chan_push p ch]> (chans w)
    else
      let s := seq (client w) in
      let '(c', werr) :=
        codec.Write (cc (client w)) (request_header c s) (Args c) in
      cc (client w') = c' ∧ header (client w') = request_header c s ∧
      seq (client w') = wrap64 (s + 1) ∧ Seq_of w' p = Some s ∧
      match werr with
      | None =>
          pending (client w') = <[s := p]> (pending (client w)) ∧
          Error_of w' p = Error c ∧ delivered w' p = delivered w p ∧
          chans w' = chans w
      | Some e =>
          pending (client w') = delete s (pending (client w)) ∧
          Error_of w' p = Some e ∧ delivered w' p = S (delivered w p) ∧
          chans w' = <[Done c := chan_push p ch]> (chans w)
      end.
Proof.
  intros Hc Hch Hroom.
  destruct (closing (client w) || shutdown (client w)) eqn:Hu.
  - rewrite (send_unavailable w p c ch) by done.
    eexists. split; [done|]. split; [|split; [|done]].
    + unfold Error_of. simpl. by rewrite list_lookup_alter_eq, Hc.
    + rewrite (delivered_push (store_Error p ErrShutdown w) p p
                 (Call_set_Error ErrShutdown c) (Done c) ch).
      * rewrite decide_True by done. by rewrite delivered_store_Error.
      * simpl. by rewrite list_lookup_alter_eq, Hc.
      * done.
      * done.
  - unfold send, registerCall. rewrite Hu. simpl.
    rewrite list_lookup_alter_eq, Hc. simpl.
    fold (request_header c (seq (client w))).
    destruct (codec.Write (cc (client w)) (request_header c (seq (client w)))
                (Args c)) as [c' [e|]] eqn:Hw; simpl.
    + rewrite lookup_insert_eq.
      set (w3 := store_Error p e _).
      rewrite (Call_done_room w3 p
                 (Call_set_Error e (Call_set_Seq (seq (client w)) c)) ch);
        [| |done|done].
      2:{ subst w3. simpl. rewrite list_lookup_alter_eq.
          by rewrite list_lookup_alter_eq, Hc. }
      eexists. split; [done|]. simpl.
      split; [done|]. split; [done|]. split; [done|]. split.
      { unfold Seq_of. simpl. rewrite list_lookup_alter_eq.
        by rewrite list_lookup_alter_eq, Hc. }
      split; [by rewrite delete_insert_eq|]. split.
      { unfold Error_of. simpl. rewrite list_lookup_alter_eq.
        by rewrite list_lookup_alter_eq, Hc. }
      split; [|done].
      rewrite (delivered_push w3 p p
                 (Call_set_Error e (Call_set_Seq (seq (client w)) c))
                 (Done c) ch).
      * rewrite decide_True by done. f_equal. subst w3.
        rewrite delivered_store_Error.
        unfold delivered. simpl. rewrite list_lookup_alter_eq, Hc. done.
      * subst w3. simpl. rewrite list_lookup_alter_eq.
        by rewrite list_lookup_alter_eq, Hc.
      * done.
      * done.
    + eexists. split; [done|]. simpl.
      split; [done|]. split; [done|]. split; [done|]. split.
      { unfold Seq_of. simpl. by rewrite list_lookup_alter_eq, Hc. }
      split; [done|]. split.
      { unfold Error_of. simpl. by rewrite list_lookup_alter_eq, Hc. }
      split; [|done].
      unfold delivered. simpl. by rewrite list_lookup_alter_eq, Hc.
Qed.

(** Whatever [send] does, the heap of calls keeps its size and the
    [Done] field of every call. *)
Lemma send_Done w p w' :
  send p w = Ret w' → ∀ q, Done <$> calls w' !! q = Done <$> calls w !! q.
Proof.
  assert (∀ (f : Call → Call) (l : list Call) i q,
            (∀ c, Done (f c) = Done c) →
            Done <$> alter f i l !! q = Done <$> l !! q) as Halter.
  { intros f l i q Hf. destruct (decide (i = q)) as [->|].
    - rewrite list_lookup_alter_eq. destruct (l !! q); simpl; by f_equal.
    - by rewrite list_lookup_alter_ne. }
  unfold send, registerCall.
  destruct (closing (client w) || shutdown (client w)); simpl.
  - intros (c & ch & _ & _ & _ & ->)%Call_done_Ret q. simpl.
    by apply Halter.
  - destruct (alter _ p (calls w) !! p) as [c|] eqn:Hc; [|done].
    destruct (codec.Write _ _ _) as [c' [e|]]; simpl.
    + rewrite lookup_insert_eq.
      intros (c2 & ch & _ & _ & _ & ->)%Call_done_Ret q. simpl.
      rewrite Halter by done. by apply Halter.
    + intros [= <-] q. simpl. by apply Halter.
Qed.

End sender.

(** ** The facade: [Go] and the completion channel *)

Section facade.
Context {C : Type} `{!codec.Codec C}.
Implicit Types (w : World C) (p q : ptr).

(** C9. [Go] with a nil [done] makes a new channel of capacity 10 for
    the call and returns the call: it neither panics nor waits, whatever
    the state of the client and whatever the codec answers, and at its
    return the channel holds at most the one completion of this call.
    [Go] with a caller's channel of capacity 0 panics before a call is
    built. *)
Theorem Go_done_channel w s m a r :
  (∀ d, cap w d = 0 →
     Go s m a r (Some d) w = Panic "rpc client: done channel is unbuffered") ∧
  ∃ w' ch, Go s m a r None w = Ret (w', length (calls w)) ∧
    chans w !! length (chans w) = None ∧
    Done <$> calls w' !! length (calls w) = Some (length (chans w)) ∧
    chans w' !! length (chans w) = Some ch ∧
    chan_cap ch = 10 ∧ length (chan_buf ch) ≤ 1.
Proof.
  split.
  { intros d Hcap. unfold Go. by rewrite decide_True. }
  unfold Go. simpl.
  set (c0 := {| Seq := 0; Service := s; Method := m; Args := a; Reply := r;
                Error := None; Done := length (chans w) |}).
  set (w2 := with_calls _ _).
  assert (calls w2 !! length (calls w) = Some c0) as Hc0
    by apply lookup_snoc.
  assert (chans w2 !! Done c0 = Some (make_chan 10)) as Hch0
    by apply lookup_snoc.
  destruct (send_cases w2 (length (calls w)) c0 (make_chan 10) Hc0 Hch0)
    as (w' & Hsend & Hcases); [simpl; lia|].
  rewrite Hsend. simpl.
  assert (chans w' = chans w2 ∨
          chans w' = <[Done c0 := chan_push (length (calls w)) (make_chan 10)]>
                       (chans w2)) as Hchans.
  { revert Hcases. cbv zeta.
    destruct (closing (client w2) || shutdown (client w2)).
    - intros Hcases. right. apply Hcases.
    - destruct (codec.Write _ _ _) as [c' [e|]]; intros Hcases.
      + right. apply Hcases.
      + left. apply Hcases. }
  pose proof (send_Done _ _ _ Hsend (length (calls w))) as HDone.
  rewrite Hc0 in HDone. simpl in HDone.
  destruct Hchans as [Heq|Heq].
  - exists w', (make_chan 10). rewrite Heq. simpl.
    split; [done|]. split; [apply lookup_ge_None_2; lia|].
    split; [done|]. split; [apply lookup_snoc|]. simpl. lia.
  - exists w', (chan_push (length (calls w)) (make_chan 10)).
    rewrite Heq. simpl.
    split; [done|]. split; [apply lookup_ge_None_2; lia|].
    split; [done|]. split; [by rewrite insert_snoc, lookup_snoc|].
    simpl. lia.
Qed.

(** [Go] with a nil [done] on an unavailable client: the call is in the
    new channel. *)
Lemma Go_nil_unavailable_chan w s m a r :
  closing (client w) || shutdown (client w) = true →
  ∃ w', Go s m a r None w = Ret (w', length (calls w)) ∧
    Error_of w' (length (calls w)) = Some ErrShutdown ∧
    delivered w' (length (calls w)) = 1 ∧
    Done <$> calls w' !! length (calls w) = Some (length (chans w)) ∧
    chans w' !! length (chans w)
    = Some (chan_push (length (calls w)) (make_chan 10)) ∧
    client w' = client w.
Proof.
  intros Hu. unfold Go. simpl.
  set (c0 := {| Seq := 0; Service := s; Method := m; Args := a; Reply := r;
                Error := None; Done := length (chans w) |}).
  set (w2 := with_calls _ _).
  rewrite (send_unavailable w2 (length (calls w)) c0 (make_chan 10));
    [|done|apply lookup_snoc|apply lookup_snoc|simpl; lia].
  simpl. eexists. split; [done|].
  unfold Error_of, delivered. simpl.
  rewrite alter_snoc, lookup_snoc. simpl.
  rewrite insert_snoc, lookup_snoc. simpl.
  by rewrite filter_cons_True.
Qed.

(** C8, as the code has it.  On a client that is closing or shut down,
    [registerCall] returns [ErrShutdown] to its caller, and so does
    [Close] on a closing client.  The caller of [registerCall] is
    [send], which stores the error in the call and delivers the call on
    its [Done] channel: with the client untouched, the call ends with
    [ErrShutdown] as its error and one completion more than before.  So
    [Go] returns normally, with a call that carries [ErrShutdown] and is
    in its channel (the new one for a nil [done], or the caller's when
    that has room), and [Call] returns [ErrShutdown], read from the call
    it has received on the channel. *)
Theorem ErrShutdown_through_completion w :
  closing (client w) || shutdown (client w) = true →
  (∀ p, registerCall p w = (w, (0%Z, Some ErrShutdown))) ∧
  (closing (client w) = true → Close w = (w, Some ErrShutdown)) ∧
  (∀ p c ch,
     calls w !! p = Some c → chans w !! Done c = Some ch →
     length (chan_buf ch) < chan_cap ch →
     ∃ w', send p w = Ret w' ∧
       Error_of w' p = Some ErrShutdown ∧
       delivered w' p = S (delivered w p) ∧
       chans w' !! Done c = Some (chan_push p ch) ∧
       client w' = client w) ∧
  (∀ s m a r,
     ∃ w', Go s m a r None w = Ret (w', length (calls w)) ∧
       Error_of w' (length (calls w)) = Some ErrShutdown ∧
       delivered w' (length (calls w)) = 1 ∧
       Done <$> calls w' !! length (calls w) = Some (length (chans w)) ∧
       chans w' !! length (chans w)
       = Some (chan_push (length (calls w)) (make_chan 10)) ∧
       client w' = client w) ∧
  (∀ s m a r d ch,
     chans w !! d = Some ch → length (chan_buf ch) < chan_cap ch →
     ∃ w', Go s m a r (Some d) w = Ret (w', length (calls w)) ∧
       Error_of w' (length (calls w)) = Some ErrShutdown ∧
       Done <$> calls w' !! length (calls w) = Some d ∧
       chans w' !! d = Some (chan_push (length (calls w)) ch) ∧
       client w' = client w) ∧
  (∀ s m a r,
     ∃ w', Client_Call s m a r w = Ret (w', Some ErrShutdown) ∧
       client w' = client w).
Proof.
  intros Hu. split; [|split; [|split; [|split; [|split]]]].
  - intros p. unfold registerCall. by rewrite Hu.
  - intros Hc. unfold Close. by rewrite Hc.
  - intros p c ch Hc Hch Hroom.
    destruct (send_cases w p c ch Hc Hch Hroom) as (w' & Hsend & Hcases).
    rewrite Hu in Hcases. destruct Hcases as (He & Hd & Hcl & Hchans).
    exists w'. repeat split; try done.
    rewrite Hchans. apply list_lookup_insert_eq. by eapply lookup_lt_Some.
  - intros s m a r. by apply Go_nil_unavailable_chan.
  - intros s m a r d ch. by apply Go_chan_unavailable.
  - intros s m a r. by apply Call_unavailable.
Qed.

End facade.

(** ** Bulk termination *)

Section termination.
Context {C : Type} `{!codec.Codec C}.
Implicit Types (w : World C) (p q : ptr).

Lemma elem_of_pending_calls w p :
  p ∈ pending_calls w ↔ ∃ k, pending (client w) !! k = Some p.
Proof.
  unfold pending_calls. rewrite list_elem_of_fmap. split.
  - intros ([k q] & -> & Hin). exists k. by apply elem_of_map_to_list.
  - intros [k Hk]. exists (k, p). split; [done|].
    by apply elem_of_map_to_list.
Qed.

Lemma Error_of_store_Error w p q e :
  Error_of (store_Error q e w) p =
  if decide (p = q) then (calls w !! p) ≫= (λ _, Some e) else Error_of w p.
Proof.
  unfold Error_of, store_Error. simpl. case_decide as Hpq.
  - subst. rewrite list_lookup_alter_eq. by destruct (calls w !! q).
  - by rewrite list_lookup_alter_ne.
Qed.

















End termination.

(** ** The receiver *)

Section receiver.
Context {C : Type} `{!codec.Codec C}.
Implicit Types (w : World C) (p q : ptr).

Lemma receive_S n w :
  receive (S n) w = '(w1, err) ← receive_pass w; after_pass n w1 err.
Proof. done. Qed.

(** C7. When the header read has no call under its sequence number, the
    pass reads the body with a nil target, completes nobody and leaves
    the table, the calls and the channels as they are: only the codec
    has moved on.  The loop variable is the outcome of that body read,
    so that after a good read the loop goes on with the next header. *)
Theorem receive_no_matching_call w c1 h c2 e2 n :
  codec.ReadHeader (cc (client w)) = (c1, h, None) →
  pending (client w) !! codec.Seq h = None →
  codec.ReadBody c1 any_nil = (c2, e2) →
  receive_pass w = Ret (with_client (set_cc c2) w, e2) ∧
  receive (S n) w = after_pass n (with_client (set_cc c2) w) e2 ∧
  receive (S n) w =
    match e2 with
    | None => receive n (with_client (set_cc c2) w)
    | Some e => w2 ← terminateCalls e (with_client (set_cc c2) w);
                Ret (w2, Terminated e)
    end.
Proof.
  intros Hh Hp Hb.
  assert (receive_pass w = Ret (with_client (set_cc c2) w, e2)) as Hpass.
  { unfold receive_pass. rewrite Hh. unfold removeCall. simpl.
    rewrite Hp. simpl. rewrite Hb. simpl.
    rewrite delete_id by done. by destruct w as [[] ? ?]. }
  split; [done|]. rewrite receive_S, Hpass. by split.
Qed.



End receiver.

(** ** Sequence numbers *)

Section numbering.
Context {C : Type} `{!codec.Codec C}.
Implicit Types (w : World C) (p q : ptr).

Lemma wrap64_range z : (0 ≤ wrap64 z < 2 ^ 64)%Z.
Proof. unfold wrap64. apply Z.mod_pos_bound. lia. Qed.

Lemma wrap64_small z : (0 ≤ z < 2 ^ 64)%Z → wrap64 z = z.
Proof. unfold wrap64. apply Z.mod_small. Qed.

Lemma wrap64_succ z i : wrap64 (wrap64 (z + 1) + i) = wrap64 (z + (1 + i))%Z.
Proof.
  unfold wrap64. rewrite Zplus_mod_idemp_l. f_equal. lia.
Qed.

Lemma length_registerCalls ps : ∀ w,
  length (registerCalls ps w).2 = length ps.
Proof.
  induction ps as [|p ps IH]; intros w; [done|]. simpl.
  destruct (registerCall p w) as [w1 r].
  specialize (IH w1). destruct (registerCalls ps w1) as [w2 rs].
  simpl in *. by rewrite IH.
Qed.

(** On an available client whose counter is a [uint64], the [i]-th
    registration (from 0) succeeds with the number [seq + i], taken
    modulo 2^64. *)
Lemma registerCalls_lookup ps : ∀ w i,
  closing (client w) = false → shutdown (client w) = false →
  (0 ≤ seq (client w) < 2 ^ 64)%Z →
  i < length ps →
  (registerCalls ps w).2 !! i =
    Some (wrap64 (seq (client w) + Z.of_nat i), None).
Proof.
  induction ps as [|p ps IH]; intros w i Hc Hs Hr Hi; [simpl in Hi; lia|].
  simpl. unfold registerCall at 1. rewrite Hc, Hs. simpl.
  set (w1 := with_client (set_seq _) _).
  specialize (IH w1).
  destruct (registerCalls ps w1) as [w2 rs] eqn:Hrs. simpl in *.
  destruct i as [|i]; simpl.
  - rewrite Z.add_0_r. by rewrite wrap64_small.
  - rewrite (IH i); [|done|done|apply wrap64_range|lia].
    subst w1. simpl. rewrite wrap64_succ. do 3 f_equal. lia.
Qed.

(** C4, as the code has it.  On a client as [newClientCodec] makes it
    (counter 1, neither closing nor shut down), [N] registrations in a
    row with [N] below 2^64 all succeed, and they return 1, 2, ..., [N]
    in this order: the numbers follow the order of registration, each is
    one more than the one before, they are distinct and lie in
    [[1, N]]. *)
Theorem registerCalls_sequence ps w :
  closing (client w) = false → shutdown (client w) = false →
  seq (client w) = 1%Z →
  (Z.of_nat (length ps) < 2 ^ 64)%Z →
  let rs := (registerCalls ps w).2 in
  rs = (λ s, (s, None)) <$> seqZ 1 (Z.of_nat (length ps)) ∧
  Forall (λ r, r.2 = None) rs ∧
  rs.*1 = seqZ 1 (Z.of_nat (length ps)) ∧
  NoDup rs.*1 ∧
  (∀ i s, rs.*1 !! i = Some s →
     s = (1 + Z.of_nat i)%Z ∧ (1 ≤ s ≤ Z.of_nat (length ps))%Z) ∧
  (∀ i j s t, rs.*1 !! i = Some s → rs.*1 !! j = Some t →
     i < j → (s < t)%Z).
Proof.
  intros Hc Hs H1 HN rs.
  assert (rs = (λ s, (s, None)) <$> seqZ 1 (Z.of_nat (length ps))) as Hrs.
  { apply list_eq. intros i. subst rs.
    destruct (decide (i < length ps)) as [Hi|Hi].
    - rewrite registerCalls_lookup by (done || lia).
      rewrite list_lookup_fmap, lookup_seqZ_lt by lia. simpl.
      rewrite H1, wrap64_small by lia. done.
    - rewrite lookup_ge_None_2 by (rewrite length_registerCalls; lia).
      rewrite list_lookup_fmap, lookup_seqZ_ge by lia. done. }
  assert (rs.*1 = seqZ 1 (Z.of_nat (length ps))) as Hfst.
  { rewrite Hrs, <- list_fmap_compose. apply list_fmap_id. }
  assert (∀ i s, rs.*1 !! i = Some s →
            s = (1 + Z.of_nat i)%Z ∧ (1 ≤ s ≤ Z.of_nat (length ps))%Z)
    as Hnum.
  { intros i s. rewrite Hfst, lookup_seqZ. lia. }
  split; [done|]. split; [|split; [done|split; [|split; [done|]]]].
  - rewrite Hrs. apply Forall_fmap, Forall_forall. done.
  - rewrite Hfst. apply NoDup_seqZ.
  - intros i j s t Hi Hj Hij.
    apply Hnum in Hi as [-> _]. apply Hnum in Hj as [-> _]. lia.
Qed.

(** When the counter has gone through all of [uint64], it starts again:
    of 2^64 registrations on a new client, all succeed and the last one
    gets number 0. *)
Lemma registerCalls_wrap ps w N :
  closing (client w) = false → shutdown (client w) = false →
  seq (client w) = 1%Z →
  length ps = N → Z.of_nat N = (2 ^ 64)%Z →
  let rs := (registerCalls ps w).2 in
  length rs = N ∧
  (∀ i r, rs !! i = Some r → r.2 = None) ∧
  rs !! (N - 1) = Some (0%Z, None).
Proof.
  intros Hc Hs H1 Hlen HN rs. subst rs.
  split; [by rewrite length_registerCalls|]. split.
  - intros i r Hi.
    assert (i < length ps) as Hlt.
    { apply lookup_lt_Some in Hi. by rewrite length_registerCalls in Hi. }
    rewrite registerCalls_lookup in Hi by (done || lia).
    by injection Hi as <-.
  - rewrite registerCalls_lookup by (done || lia).
    rewrite H1. do 2 f_equal. unfold wrap64.
    replace (1 + Z.of_nat (N - 1))%Z with (2 ^ 64)%Z by lia.
    apply Z_mod_same_full.
Qed.

End numbering.

(** ** The goroutines and the functions of the package agree

    A goroutine that makes its moves without anybody else moving does
    what the function does: [send] for a sender, one pass of the loop of
    [receive] and then [terminateCalls] for the receiver. *)

Section agreement.
Context {C : Type} `{!codec.Codec C}.
Implicit Types (w : World C) (st : State C) (p q t : nat).

Lemma run_send_S n t pc st :
  pc ≠ SReturned →
  run_send (S n) t pc st =
  send_move t pc st ≫= λ '(pc', st'), run_send n t pc' st'.
Proof. by destruct pc. Qed.

Lemma run_send_returned n t st : run_send n t SReturned st = Some st.
Proof. by destruct n. Qed.

Lemma run_send_send t st :
  sending st = None → mu_held st = false →
  run_send 7 t SStart st =
  match send t (world st) with
  | Ret w' => Some (set_world w' st)
  | _ => None
  end.
Proof.
  intros Hs Hmu. destruct st as [w s l r]. simpl in Hs. subst s.
  assert (∀ w' h, mu_held {| world := w'; sending := h; senders := l;
                             recv := r |} = false) as Hmu'.
  { intros. exact Hmu. }
  rewrite run_send_S by done. unfold_moves.
  rewrite run_send_S by done. unfold_moves.
  rewrite Hmu'.
  unfold send. unfold_moves.
  destruct (registerCall t w) as [w1 [s [e|]]] eqn:Hreg; unfold_moves.
  - rewrite run_send_S by done. unfold_moves.
    rewrite run_send_S by done. unfold_moves.
    destruct (Call_done t (store_Error t e w1)) as [w2| |]; [|done|done].
    unfold_moves.
    rewrite run_send_S by done. unfold_moves.
    by rewrite run_send_returned.
  - rewrite run_send_S by done. unfold_moves.
    destruct (calls w1 !! t) as [call|]; [|done].
    unfold_moves.
    destruct (codec.Write _ _ _) as [c' [e|]]; unfold_moves.
    + rewrite run_send_S by done. unfold_moves.
      rewrite Hmu'.
      destruct (removeCall s _) as [w3 [q|]]; unfold_moves.
      * rewrite run_send_S by done. unfold_moves.
        rewrite run_send_S by done. unfold_moves.
        destruct (Call_done q (store_Error q e w3)) as [w4| |]; [|done|done].
        unfold_moves.
        rewrite run_send_S by done. unfold_moves.
        by rewrite run_send_returned.
      * rewrite run_send_S by done. unfold_moves.
        rewrite run_send_S by done. unfold_moves.
        by rewrite run_send_returned.
    + rewrite run_send_S by done. unfold_moves.
      by rewrite run_send_returned.
Qed.

Lemma run_pass_receive_pass st :
  recv st = RLoop →
  run_pass 4 st =
  match receive_pass (world st) with
  | Ret (w', err) => Some (set_recv (next_pass err) (set_world w' st))
  | _ => None
  end.
Proof.
  destruct st as [w s l r]. simpl. intros ->.
  unfold receive_pass, run_pass. unfold_moves.
  destruct (codec.ReadHeader (cc (client w))) as [[c1 h] [e|]]; unfold_moves; [done|].
  destruct (removeCall (codec.Seq h) (with_client (set_cc c1) w))
    as [w1 [p|]]; unfold_moves.
  - case_decide; unfold_moves.
    + destruct (codec.ReadBody _ _) as [c2 e2]. unfold_moves.
      destruct (Call_done p _) as [w2| |]; [|done|done].
      unfold_moves. by destruct e2.
    + destruct (codec.ReadBody _ _) as [c2 e2]. unfold_moves.
      destruct (Call_done p _) as [w2| |]; [|done|done].
      unfold_moves. by destruct e2.
  - destruct (codec.ReadBody _ _) as [c2 e2]. unfold_moves. by destruct e2.
Qed.

Lemma run_terminate_S n st :
  (∀ e, recv st ≠ RReturned e) →
  run_terminate (S n) st = receive_move st ≫= run_terminate n.
Proof. intros Hr. simpl. destruct (recv st) eqn:Hpc; try done. by destruct (Hr err). Qed.

Lemma run_terminate_range err l' rest : ∀ w h n,
  2 * length rest < n →
  run_terminate n
    {| world := w; sending := h; senders := l'; recv := RRange err rest |} =
  match terminate_range err rest w with
  | Ret w' =>
      Some {| world := w'; sending := None; senders := l';
              recv := RReturned err |}
  | _ => None
  end.
Proof.
  induction rest as [|p rest IH]; intros w h n Hn.
  - destruct n as [|n]; [simpl in Hn; lia|].
    rewrite run_terminate_S by done. unfold_moves. by destruct n.
  - destruct n as [|[|n]]; [simpl in Hn; lia..|].
    rewrite run_terminate_S by done. unfold_moves.
    rewrite run_terminate_S by done. unfold_moves.
    cbn [terminate_range]. 
    destruct (Call_done p (store_Error p err w)) as [w1| |]; [|done|done].
    unfold_moves. apply IH. simpl in Hn. lia.
Qed.

Lemma run_terminate_terminateCalls st err :
  recv st = RExit err → sending st = None →
  run_terminate (3 + 2 * length (pending_calls (world st))) st =
  match terminateCalls err (world st) with
  | Ret w' => Some (set_recv (RReturned err) (set_world w' st))
  | _ => None
  end.
Proof.
  destruct st as [w s l r]. cbn [recv sending world]. intros -> ->.
  change (3 + ?x) with (S (S (S x))).
  rewrite run_terminate_S by done. unfold_moves.
  rewrite run_terminate_S by done. unfold_moves.
  rewrite run_terminate_range by (unfold pending_calls; simpl; lia).
  done.
Qed.

End agreement.

(** ** Exactly one completion per call *)

Section exactly_once.
Context {C : Type} `{!codec.Codec C}.
Implicit Types (w : World C) (st : State C) (p q t : nat).

Lemma count_nil p : count p [] = 0.
Proof. done. Qed.

Lemma count_cons p q l :
  count p (q :: l) = (if decide (p = q) then 1 else 0) + count p l.
Proof.
  unfold count. case_decide.
  - subst. by rewrite filter_cons_True.
  - rewrite filter_cons_False; [done|]. congruence.
Qed.

Lemma count_Permutation p l1 l2 : l1 ≡ₚ l2 → count p l1 = count p l2.
Proof. intros Hp. unfold count. by rewrite Hp. Qed.

Lemma count_insert_fresh (m : gmap Z nat) k q p :
  m !! k = None →
  count p (map_to_list (<[k := q]> m)).*2 =
  (if decide (p = q) then 1 else 0) + count p (map_to_list m).*2.
Proof.
  intros Hk.
  rewrite (count_Permutation p _ (q :: (map_to_list m).*2)).
  - apply count_cons.
  - by rewrite map_to_list_insert.
Qed.

Lemma count_delete (m : gmap Z nat) k q p :
  m !! k = Some q →
  count p (map_to_list m).*2 =
  (if decide (p = q) then 1 else 0) + count p (map_to_list (delete k m)).*2.
Proof.
  intros Hk.
  rewrite (count_Permutation p _ (q :: (map_to_list (delete k m)).*2)).
  - apply count_cons.
  - by rewrite <- (map_to_list_delete m k q).
Qed.

Lemma count_insert_le (m : gmap Z nat) k q p :
  count p (map_to_list (<[k := q]> m)).*2 ≤
  (if decide (p = q) then 1 else 0) + count p (map_to_list m).*2.
Proof.
  rewrite <- insert_delete_eq.
  rewrite count_insert_fresh by apply lookup_delete_eq.
  destruct (m !! k) as [x|] eqn:Hk.
  - rewrite (count_delete m k x p Hk). lia.
  - by rewrite delete_id.
Qed.

Lemma sum_imap_insert {A} (f : nat → A → nat) (l : list A) t x y :
  l !! t = Some x →
  sum_list (imap f (<[t := y]> l)) + f t x = sum_list (imap f l) + f t y.
Proof.
  revert f t. induction l as [|a l IH]; intros f t Ht; [done|].
  destruct t as [|t]; simpl in *.
  - injection Ht as ->. lia.
  - specialize (IH (f ∘ S) t Ht). simpl in IH. lia.
Qed.

Lemma sum_imap_snoc {A} (f : nat → A → nat) (l : list A) x :
  sum_list (imap f (l ++ [x])) = sum_list (imap f l) + f (length l) x.
Proof.
  rewrite imap_app, sum_list_with_app. simpl.
  by rewrite !Nat.add_0_r.
Qed.

Lemma senders_owe_insert l t pc pc' p :
  l !! t = Some pc →
  senders_owe (<[t := pc']> l) p + sender_owes t pc p =
  senders_owe l p + sender_owes t pc' p.
Proof.
  intros. unfold senders_owe.
  by apply (sum_imap_insert (λ t pc, sender_owes t pc p)).
Qed.

Lemma senders_owe_snoc l pc p :
  senders_owe (l ++ [pc]) p = senders_owe l p + sender_owes (length l) pc p.
Proof.
  unfold senders_owe. apply (sum_imap_snoc (λ t pc, sender_owes t pc p)).
Qed.

Lemma invariant_init (c : C) : invariant (init c).
Proof.
  split; done.
Qed.

(** What a completed [done] changes. *)
Lemma Call_done_effect w q w' :
  Call_done q w = Ret w' →
  client w' = client w ∧ calls w' = calls w ∧
  length (chans w') = length (chans w) ∧
  q < length (calls w) ∧
  (∀ p, delivered w' p = (if decide (p = q) then 1 else 0) + delivered w p) ∧
  (∀ d ch x, chans w' !! d = Some ch → x ∈ chan_sent ch →
     x = q ∨ ∃ ch0, chans w !! d = Some ch0 ∧ x ∈ chan_sent ch0).
Proof.
  intros (c & ch & Hc & Hch & Hroom & ->)%Call_done_Ret. simpl.
  split; [done|]. split; [done|]. split; [by rewrite length_insert|].
  split; [by eapply lookup_lt_Some|]. split.
  - intros p. rewrite (delivered_push w p q c (Done c) ch) by done.
    case_decide; lia.
  - intros d ch1 x Hd Hx.
    destruct (decide (d = Done c)) as [->|Hne].
    + rewrite list_lookup_insert_eq in Hd by (by eapply lookup_lt_Some).
      injection Hd as <-. simpl in Hx.
      apply elem_of_app in Hx as [Hx|Hx%list_elem_of_singleton];
        [right; by exists ch|by left].
    + rewrite list_lookup_insert_ne in Hd by done. right. by exists ch1.
Qed.

Lemma pending_owes_eq w w' p :
  shutdown (client w') = shutdown (client w) →
  pending (client w') = pending (client w) →
  pending_owes w' p = pending_owes w p.
Proof. unfold pending_owes, pending_calls. by intros -> ->. Qed.

Lemma delivered_eq w w' p :
  calls w' = calls w → chans w' = chans w → delivered w' p = delivered w p.
Proof. unfold delivered. by intros -> ->. Qed.

Lemma sent_from_refl w w' : chans w' = chans w → sent_from w w'.
Proof. intros Heq d ch x Hd Hx. rewrite Heq in Hd. right. by exists ch. Qed.

Lemma sent_from_done w q w' : Call_done q w = Ret w' → sent_from w w'.
Proof.
  intros Hd. destruct (Call_done_effect _ _ _ Hd) as (_ & _ & _ & Hq & _ & Hs).
  intros d ch x Hl Hx. destruct (Hs d ch x Hl Hx) as [->|?]; [by left|by right].
Qed.

Lemma send_move_local t pc st pc' st1 :
  send_move t pc st = Some (pc', st1) →
  (registered pc = true → shutdown (client (world st)) = false) →
  senders st1 = senders st ∧ recv st1 = recv st ∧
  length (calls (world st1)) = length (calls (world st)) ∧
  shutdown (client (world st1)) = shutdown (client (world st)) ∧
  (registered pc' = true → shutdown (client (world st1)) = false) ∧
  lock_move t pc pc' st st1 ∧
  sent_from (world st) (world st1) ∧
  (∀ p, pending_owes (world st1) p + sender_owes t pc' p
        + delivered (world st1) p
        ≤ pending_owes (world st) p + sender_owes t pc p
          + delivered (world st) p) ∧
  ((pc = SLocked →
    pending (client (world st)) !! seq (client (world st)) = None) →
   ∀ p, pending_owes (world st1) p + sender_owes t pc' p
        + delivered (world st1) p
        = pending_owes (world st) p + sender_owes t pc p
          + delivered (world st) p).
Proof.
  intros Hmove Hreg.
  assert (∀ (P Q : nat → nat),
    (∀ p, P p = Q p) →
    (∀ p, P p ≤ Q p) ∧ ((pc = SLocked →
      pending (client (world st)) !! seq (client (world st)) = None) →
      ∀ p, P p = Q p)) as Heq.
  { intros P Q HPQ. split; [intros p; by rewrite HPQ|done]. }
  destruct pc as [| |e|s|s e|[q|] e|q| |]; simpl in Hmove.
  - (* Lock *)
    destruct (sending st) eqn:Hs; [done|]. injection Hmove as <- <-.
    simpl. repeat (split; [done|]). split; [by apply sent_from_refl|].
    by apply Heq.
  - (* registerCall *)
    destruct (mu_held st); [done|]. unfold registerCall in Hmove.
    destruct (closing (client (world st)) || shutdown (client (world st)))
      eqn:Hu.
    + injection Hmove as <- <-. simpl.
      repeat (split; [done|]). split; [by apply sent_from_refl|].
      by apply Heq.
    + injection Hmove as <- <-. simpl.
      apply orb_false_iff in Hu as [_ Hsh].
      split; [done|]. split; [done|]. split; [by rewrite length_alter|].
      split; [done|]. split; [done|]. split; [done|].
      split; [by apply sent_from_refl|].
      assert (∀ p, delivered (with_client
                (set_seq (wrap64 (seq (client (world st)) + 1)))
                (with_client (set_pending
                   (<[seq (client (world st)) := t]>
                      (pending (client (world st)))))
                   (store_Seq t (seq (client (world st))) (world st)))) p
              = delivered (world st) p) as Hdel.
      { intros p. rewrite <- (delivered_store_Seq (world st) p t
                               (seq (client (world st)))). done. }
      unfold pending_owes, pending_calls. simpl. rewrite Hsh. split.
      * intros p. rewrite Hdel.
        pose proof (count_insert_le (pending (client (world st)))
                      (seq (client (world st))) t p). lia.
      * intros Hfresh p. rewrite Hdel.
        rewrite count_insert_fresh by auto. lia.
  - (* call.Error = err, after a failed registration *)
    injection Hmove as <- <-. simpl.
    split; [done|]. split; [done|]. split; [by rewrite length_alter|].
    split; [done|]. split; [done|]. split; [done|].
    split; [by apply sent_from_refl|].
    apply Heq. intros p. by rewrite delivered_store_Error.
  - (* Write *)
    destruct (calls (world st) !! t) as [call|] eqn:Hcall; [|done].
    simpl in Hmove.
    destruct (codec.Write _ _ _) as [c' werr]. injection Hmove as <- <-.
    simpl. specialize (Hreg eq_refl).
    split; [done|]. split; [done|]. split; [done|]. split; [done|].
    split; [done|]. split; [by destruct werr|].
    split; [by apply sent_from_refl|].
    apply Heq. intros p. by destruct werr.
  - (* removeCall *)
    destruct (mu_held st); [done|]. injection Hmove as <- <-. simpl.
    specialize (Hreg eq_refl).
    repeat (split; [done|]). split; [by apply sent_from_refl|].
    apply Heq. intros p. unfold pending_owes, pending_calls. simpl.
    rewrite Hreg. change (delivered _ p) with (delivered (world st) p) at 1.
    destruct (pending (client (world st)) !! s) as [q|] eqn:Hq.
    + rewrite (count_delete _ s q p Hq). lia.
    + rewrite delete_id by done. lia.
  - (* call.Error = err, after a failed write *)
    injection Hmove as <- <-. simpl.
    split; [done|]. split; [done|]. split; [by rewrite length_alter|].
    split; [done|]. split; [done|]. split; [done|].
    split; [by apply sent_from_refl|].
    apply Heq. intros p. by rewrite delivered_store_Error.
  - (* the call was gone *)
    injection Hmove as <- <-. simpl.
    repeat (split; [done|]). split; [by apply sent_from_refl|].
    by apply Heq.
  - (* call.done() *)
    destruct (Call_done q (world st)) as [w'| |] eqn:Hdone; try done.
    injection Hmove as <- <-. simpl.
    destruct (Call_done_effect _ _ _ Hdone)
      as (Hcl & Hcalls & Hlen & Hq & Hdel & Hsent).
    split; [done|]. split; [done|]. split; [by rewrite Hcalls|].
    split; [by rewrite Hcl|]. split; [done|]. split; [done|].
    split; [by eapply sent_from_done|].
    apply Heq. intros p. rewrite Hdel.
    rewrite (pending_owes_eq w' (world st)) by (by rewrite Hcl).
    case_decide; lia.
  - (* Unlock *)
    injection Hmove as <- <-. simpl.
    repeat (split; [done|]). split; [by apply sent_from_refl|].
    by apply Heq.
  - done.
Qed.

Lemma receive_move_local st st1 :
  receive_move st = Some st1 →
  shutdown (client (world st)) = shut (recv st) →
  senders st1 = senders st ∧
  length (calls (world st1)) = length (calls (world st)) ∧
  shutdown (client (world st1)) = shut (recv st1) ∧
  recv_lock_move st st1 ∧
  sent_from (world st) (world st1) ∧
  (∀ p, pending_owes (world st1) p + receiver_owes (recv st1) p
        + delivered (world st1) p
        = pending_owes (world st) p + receiver_owes (recv st) p
          + delivered (world st) p).
Proof.
  unfold receive_move, recv_lock_move. intros Hmove Hsh.
  destruct (recv st) as [|h| |q h|q|q e2|err|err|err [|q rest]|err q rest|err]
    eqn:Hpc; simpl in Hsh.
  - (* ReadHeader *)
    destruct (codec.ReadHeader _) as [[c1 h] [e|]]; injection Hmove as <-;
      simpl; repeat (split; [done|]);
      (split; [by apply sent_from_refl|]); done.
  - (* removeCall *)
    injection Hmove as <-. simpl.
    split; [done|]. split; [done|].
    split; [by destruct (pending _ !! _); [case_decide|]|].
    split; [by destruct (pending _ !! _); [case_decide|]|].
    split; [by apply sent_from_refl|].
    intros p. unfold pending_owes, pending_calls. simpl. rewrite Hsh.
    change (delivered _ p) with (delivered (world st) p) at 1.
    destruct (pending (client (world st)) !! codec.Seq h) as [q|] eqn:Hq.
    + rewrite (count_delete _ (codec.Seq h) q p Hq).
      case_decide; simpl; lia.
    + rewrite delete_id by done. simpl. lia.
  - (* ReadBody(nil), nobody waiting *)
    destruct (codec.ReadBody _ _) as [c2 [e|]]; injection Hmove as <-;
      simpl; repeat (split; [done|]);
      (split; [by apply sent_from_refl|]); done.
  - (* the server reported an error *)
    simpl in Hmove.
    destruct (codec.ReadBody _ _) as [c2 e2]. injection Hmove as <-. simpl.
    split; [done|]. split; [by rewrite length_alter|].
    repeat (split; [done|]). split; [by apply sent_from_refl|].
    intros p.
    change (delivered _ p)
      with (delivered (store_Error q (fmt_Errorf (codec.Error h)) (world st)) p)
      at 1.
    by rewrite delivered_store_Error.
  - (* ReadBody(call.Reply) *)
    destruct (codec.ReadBody _ _) as [c2 [e|]]; injection Hmove as <-; simpl.
    + split; [done|]. split; [by rewrite length_alter|].
      repeat (split; [done|]). split; [by apply sent_from_refl|].
      intros p.
      change (delivered _ p)
        with (delivered (store_Error q
                (errors_New ("reading body " +:+ Error_text e)) (world st)) p)
        at 1.
      by rewrite delivered_store_Error.
    + repeat (split; [done|]). split; [by apply sent_from_refl|]. done.
  - (* call.done() *)
    destruct (Call_done q (world st)) as [w'| |] eqn:Hdone; try done.
    injection Hmove as <-. simpl.
    destruct (Call_done_effect _ _ _ Hdone)
      as (Hcl & Hcalls & Hlen & Hq & Hdel & Hsent).
    split; [done|]. split; [by rewrite Hcalls|].
    split; [rewrite Hcl; by destruct e2|].
    split; [by destruct e2|].
    split; [by eapply sent_from_done|].
    intros p. rewrite Hdel.
    rewrite (pending_owes_eq w' (world st)) by (by rewrite Hcl).
    destruct e2; simpl; case_decide; lia.
  - (* sending.Lock() *)
    destruct (sending st) eqn:Hs; [done|]. injection Hmove as <-. simpl.
    repeat (split; [done|]). split; [by apply sent_from_refl|]. done.
  - (* mu.Lock(); shutdown = true *)
    injection Hmove as <-. simpl.
    repeat (split; [done|]). split; [by apply sent_from_refl|].
    intros p. unfold pending_owes. simpl. rewrite Hsh.
    change (delivered _ p) with (delivered (world st) p) at 1.
    unfold pending_calls. simpl. lia.
  - (* end of the loop, unlock *)
    injection Hmove as <-. simpl.
    repeat (split; [done|]). split; [by apply sent_from_refl|]. done.
  - (* call.Error = err *)
    injection Hmove as <-. simpl.
    split; [done|]. split; [by rewrite length_alter|].
    repeat (split; [done|]). split; [by apply sent_from_refl|].
    intros p. rewrite delivered_store_Error, count_cons.
    unfold pending_owes. simpl. by rewrite Hsh.
  - (* call.done() in the loop *)
    destruct (Call_done q (world st)) as [w'| |] eqn:Hdone; try done.
    injection Hmove as <-. simpl.
    destruct (Call_done_effect _ _ _ Hdone)
      as (Hcl & Hcalls & Hlen & Hq & Hdel & Hsent).
    split; [done|]. split; [by rewrite Hcalls|].
    split; [by rewrite Hcl|]. split; [done|].
    split; [by eapply sent_from_done|].
    intros p. rewrite Hdel.
    rewrite (pending_owes_eq w' (world st)) by (by rewrite Hcl).
    case_decide; lia.
  - done.
Qed.

Lemma numbered_insert l t pc pc' :
  l !! t = Some pc →
  numbered (<[t := pc']> l) + started pc = numbered l + started pc'.
Proof.
  intros. unfold numbered.
  by apply (sum_imap_insert (λ _ pc, started pc)).
Qed.

Lemma numbered_snoc l pc : numbered (l ++ [pc]) = numbered l + started pc.
Proof. unfold numbered. apply (sum_imap_snoc (λ _ pc, started pc)). Qed.

Lemma sum_imap_bound {A} (f : nat → A → nat) (l : list A) :
  (∀ i x, f i x ≤ 1) → sum_list (imap f l) ≤ length l.
Proof.
  revert f. induction l as [|a l IH]; intros f Hf; simpl; [done|].
  specialize (IH (f ∘ S) (λ i x, Hf (S i) x)). specialize (Hf 0 a). lia.
Qed.

Lemma numbered_bound l : numbered l ≤ length l.
Proof. apply sum_imap_bound. intros _ []; simpl; lia. Qed.

(** What a move in [send] does to the counter and to the keys of the
    table. *)
Lemma send_move_numbers t pc st pc' st1 :
  send_move t pc st = Some (pc', st1) →
  let w := world st in let w1 := world st1 in
  (seq (client w1) = seq (client w) ∧ started pc' = started pc ∧
   ∀ k p, pending (client w1) !! k = Some p → pending (client w) !! k = Some p)
  ∨ (pc = SLocked ∧ started pc' = 1 ∧
     ((seq (client w1) = seq (client w) ∧ pending (client w1) = pending (client w))
      ∨ (seq (client w1) = wrap64 (seq (client w) + 1) ∧
         pending (client w1) = <[seq (client w) := t]> (pending (client w))))).
Proof.
  intros Hmove.
  destruct pc as [| |e|s|s e|[q|] e|q| |]; simpl in Hmove.
  - destruct (sending st); [done|]. injection Hmove as <- <-. by left.
  - destruct (mu_held st); [done|]. unfold registerCall in Hmove.
    destruct (closing (client (world st)) || shutdown (client (world st)));
      injection Hmove as <- <-; right; simpl; split; try done;
      split; try done; [by left|by right].
  - injection Hmove as <- <-. by left.
  - destruct (calls (world st) !! t); [|done]. simpl in Hmove.
    destruct (codec.Write _ _ _) as [c' [e|]];
      injection Hmove as <- <-; by left.
  - destruct (mu_held st); [done|]. injection Hmove as <- <-. left. simpl.
    split; [done|]. split; [done|]. intros k p.
    rewrite lookup_delete_Some. by intros [_ ?].
  - injection Hmove as <- <-. by left.
  - injection Hmove as <- <-. by left.
  - destruct (Call_done q (world st)) as [w'| |] eqn:Hdone; try done.
    injection Hmove as <- <-. simpl.
    destruct (Call_done_effect _ _ _ Hdone) as (-> & _). by left.
  - injection Hmove as <- <-. by left.
  - done.
Qed.

Lemma receive_move_numbers st st1 :
  receive_move st = Some st1 →
  seq (client (world st1)) = seq (client (world st)) ∧
  ∀ k p, pending (client (world st1)) !! k = Some p →
         pending (client (world st)) !! k = Some p.
Proof.
  unfold receive_move. intros Hmove.
  destruct (recv st) as [|h| |q h|q|q e2|err|err|err [|q rest]|err q rest|err].
  - destruct (codec.ReadHeader _) as [[c1 h] [e|]];
      by injection Hmove as <-.
  - injection Hmove as <-. simpl. split; [done|]. intros k p.
    rewrite lookup_delete_Some. by intros [_ ?].
  - destruct (codec.ReadBody _ _) as [c2 [e|]]; by injection Hmove as <-.
  - simpl in Hmove. destruct (codec.ReadBody _ _) as [c2 e2].
    by injection Hmove as <-.
  - destruct (codec.ReadBody _ _) as [c2 [e|]]; by injection Hmove as <-.
  - destruct (Call_done q (world st)) as [w'| |] eqn:Hdone; try done.
    injection Hmove as <-. simpl.
    by destruct (Call_done_effect _ _ _ Hdone) as (-> & _).
  - destruct (sending st); [done|]. by injection Hmove as <-.
  - by injection Hmove as <-.
  - by injection Hmove as <-.
  - by injection Hmove as <-.
  - destruct (Call_done q (world st)) as [w'| |] eqn:Hdone; try done.
    injection Hmove as <-. simpl.
    by destruct (Call_done_effect _ _ _ Hdone) as (-> & _).
  - done.
Qed.

Lemma exists_call_eq w w' p :
  length (calls w') = length (calls w) → exists_call w' p = exists_call w p.
Proof. unfold exists_call. by intros ->. Qed.

Lemma fresh_key w :
  (∀ k p, pending (client w) !! k = Some p → (1 ≤ k < seq (client w))%Z) →
  pending (client w) !! seq (client w) = None.
Proof.
  intros Hkeys. destruct (pending (client w) !! seq (client w)) eqn:Hk; [|done].
  apply Hkeys in Hk. lia.
Qed.

Lemma invariant_send st t st' :
  invariant st → step (ESend t) st = Some st' → invariant st'.
Proof.
  intros Hinv Hstep. simpl in Hstep.
  destruct (senders st !! t) as [pc|] eqn:Hpc; [|done]. simpl in Hstep.
  destruct (send_move t pc st) as [[pc' st1]|] eqn:Hmove; [|done].
  injection Hstep as <-.
  destruct (send_move_local t pc st pc' st1 Hmove)
    as (Hsend & Hrecv & Hlen & Hshut & Hreg' & Hlock & Hsent & Hle & Heq);
    [by apply (inv_registered st Hinv t)|].
  assert (in_send pc = true → sending st = Some (HSender t)) as Hmine
    by (by apply (inv_lock_sender st Hinv)).
  assert (∀ t' pc0, t' ≠ t → senders st !! t' = Some pc0 →
            in_send pc0 = false) as Hothers.
  { intros t' pc0 Hne Ht'. destruct (in_send pc0) eqn:Hin; [|done].
    pose proof (inv_lock_sender st Hinv t' pc0 Ht' Hin) as Hs.
    destruct pc; simpl in Hlock;
      first [ done
            | destruct Hlock as [Hnone _]; congruence
            | rewrite Hmine in Hs by done; congruence ]. }
  split; simpl.
  - rewrite length_insert, Hsend, Hlen. apply (inv_threads st Hinv).
  - intros d ch q Hd Hq. rewrite Hlen.
    destruct (Hsent d ch q Hd Hq) as [?|(ch0 & Hd0 & Hq0)]; [done|].
    by apply (inv_sent st Hinv d ch0).
  - intros t' pc0. rewrite Hsend. destruct (decide (t' = t)) as [->|Hne].
    + rewrite list_lookup_insert_eq by (by eapply lookup_lt_Some).
      intros [= <-] Hin.
      destruct pc; simpl in Hlock; try done;
        try (destruct Hlock as [-> _]; by apply Hmine);
        try (destruct Hlock as (_ & -> & _); done).
      destruct Hlock as [_ ->]. done.
    + rewrite list_lookup_insert_ne by done. intros Ht' Hin.
      by rewrite (Hothers t' pc0 Hne Ht') in Hin.
  - rewrite Hrecv. intros Hterm.
    pose proof (inv_lock_receiver st Hinv Hterm) as Hs.
    destruct pc; simpl in Hlock;
      first [ done
            | destruct Hlock as [Hnone _]; congruence
            | rewrite Hmine in Hs by done; congruence ].
  - rewrite Hshut, Hrecv. apply (inv_shutdown st Hinv).
  - intros t' pc0. rewrite Hsend. destruct (decide (t' = t)) as [->|Hne].
    + rewrite list_lookup_insert_eq by (by eapply lookup_lt_Some).
      intros [= <-]. exact Hreg'.
    + rewrite list_lookup_insert_ne by done. intros Ht' Hr.
      rewrite Hshut. by apply (inv_registered st Hinv t' pc0).
  - intros p. unfold owed. simpl. rewrite Hsend, Hrecv.
    pose proof (senders_owe_insert (senders st) t pc pc' p Hpc).
    pose proof (inv_owed st Hinv p) as Ho. unfold owed in Ho.
    rewrite (exists_call_eq (world st) (world st1)) by done.
    specialize (Hle p). lia.
  - intros Hrange.
    assert (in_range (world st)) as Hrange0
      by (unfold in_range in *; by rewrite <- Hlen).
    destruct (inv_numbers st Hinv Hrange0) as (Hseq & Hkeys & Hexact).
    pose proof (numbered_insert (senders st) t pc pc' Hpc) as Hnum.
    pose proof (numbered_bound (<[t := pc']> (senders st))) as Hbound.
    rewrite length_insert, (inv_threads st Hinv) in Hbound.
    rewrite Hsend.
    assert (∀ p, owed (set_senders (<[t := pc']> (senders st)) st1) p
                 + delivered (world st1) p = exists_call (world st1) p)
      as Hexact'.
    { intros p. unfold owed. simpl. rewrite Hrecv.
      pose proof (senders_owe_insert (senders st) t pc pc' p Hpc).
      specialize (Hexact p). unfold owed in Hexact.
      rewrite (exists_call_eq (world st) (world st1)) by done.
      specialize (Heq (λ _, fresh_key _ Hkeys) p). lia. }
    unfold in_range in Hrange0.
    destruct (send_move_numbers t pc st pc' st1 Hmove)
      as [(Hs & Hst & Hsub)|(-> & Hst & [[Hs Hp]|[Hs Hp]])].
    + rewrite Hs. split; [lia|]. split; [|done].
      intros k p Hk. by apply (Hkeys k p), Hsub.
    + rewrite Hs, Hp. simpl in Hnum. split; [lia|]. by split.
    + rewrite Hs, Hp. simpl in Hnum.
      rewrite wrap64_small by lia.
      split; [lia|]. split; [|done].
      intros k p [[<- <-]|[Hne Hk]]%lookup_insert_Some; [lia|].
      apply Hkeys in Hk. lia.
Qed.

Lemma invariant_receive st st' :
  invariant st → step EReceive st = Some st' → invariant st'.
Proof.
  intros Hinv Hstep. simpl in Hstep.
  destruct (receive_move_local st st' Hstep (inv_shutdown st Hinv))
    as (Hsend & Hlen & Hshut & Hlock & Hsent & Heq).
  pose proof (inv_lock_receiver st Hinv) as Hrecv.
  assert (∀ t pc, senders st !! t = Some pc → in_send pc = true →
            sending st' = Some (HSender t) ∧
            shut (recv st') = shut (recv st)) as Hsenders.
  { intros t pc Ht Hin.
    pose proof (inv_lock_sender st Hinv t pc Ht Hin) as Hs.
    unfold recv_lock_move in Hlock.
    destruct (recv st) as [|h| |q h|q|q e2|err|err|err [|q rest]|err q rest|err];
      simpl in Hrecv;
      first [ done
            | rewrite Hrecv in Hs by done; congruence
            | destruct Hlock as [Hnone _]; congruence
            | destruct Hlock as (-> & _ & ->); done ]. }
  split.
  - rewrite Hsend, Hlen. apply (inv_threads st Hinv).
  - intros d ch q Hd Hq. rewrite Hlen.
    destruct (Hsent d ch q Hd Hq) as [?|(ch0 & Hd0 & Hq0)]; [done|].
    by apply (inv_sent st Hinv d ch0).
  - rewrite Hsend. intros t pc Ht Hin. by apply (Hsenders t pc).
  - intros Hterm. unfold recv_lock_move in Hlock.
    destruct (recv st) as [|h| |q h|q|q e2|err|err|err [|q rest]|err q rest|err];
      simpl in Hrecv;
      first [ done
            | destruct Hlock as (_ & -> & _); done
            | destruct Hlock as (-> & _); by apply Hrecv
            | destruct Hlock as (_ & Hf & _); congruence
            | destruct Hlock as (_ & Hf & _); rewrite Hf in Hterm; done ].
  - done.
  - rewrite Hsend. intros t pc Ht Hr.
    assert (in_send pc = true) as Hin by (by destruct pc).
    destruct (Hsenders t pc Ht Hin) as [_ Hsame].
    rewrite Hshut, Hsame, <- (inv_shutdown st Hinv).
    by apply (inv_registered st Hinv t pc).
  - intros p. unfold owed. rewrite Hsend.
    pose proof (inv_owed st Hinv p) as Ho. unfold owed in Ho.
    rewrite (exists_call_eq (world st) (world st')) by done.
    specialize (Heq p). lia.
  - intros Hrange.
    assert (in_range (world st)) as Hrange0
      by (unfold in_range in *; by rewrite <- Hlen).
    destruct (inv_numbers st Hinv Hrange0) as (Hseq & Hkeys & Hexact).
    destruct (receive_move_numbers st st' Hstep) as [Hs Hsub].
    rewrite Hs, Hsend. split; [done|]. split.
    + intros k p Hk. by apply (Hkeys k p), Hsub.
    + intros p. unfold owed. rewrite Hsend.
      specialize (Hexact p). unfold owed in Hexact.
      rewrite (exists_call_eq (world st) (world st')) by done.
      specialize (Heq p). lia.
Qed.

Lemma count_absent p (l : list nat) : (∀ q, q ∈ l → q ≠ p) → count p l = 0.
Proof.
  intros Hl. unfold count.
  induction l as [|x l IH]; [done|].
  rewrite filter_cons_False by (apply Hl; left).
  apply IH. intros q Hq. apply Hl. by right.
Qed.

Lemma delivered_make w n p :
  delivered (with_chans (λ l, l ++ [make_chan n]) w) p = delivered w p.
Proof.
  unfold delivered. simpl. destruct (calls w !! p) as [c|]; [|done].
  destruct (decide (Done c < length (chans w))) as [Hlt|Hge].
  - by rewrite lookup_app_l.
  - rewrite (lookup_ge_None_2 (chans w)) by lia.
    destruct (decide (Done c = length (chans w))) as [->|Hne].
    + by rewrite lookup_snoc.
    + rewrite lookup_ge_None_2; [done|]. rewrite length_app. simpl. lia.
Qed.

Lemma delivered_alloc w c p :
  (∀ d ch q, chans w !! d = Some ch → q ∈ chan_sent ch →
     q < length (calls w)) →
  delivered (with_calls (λ l, l ++ [c]) w) p = delivered w p.
Proof.
  intros Hsent. unfold delivered. simpl.
  destruct (decide (p < length (calls w))) as [Hlt|Hge].
  - by rewrite lookup_app_l.
  - rewrite (lookup_ge_None_2 (calls w)) by lia.
    destruct (decide (p = length (calls w))) as [->|Hne].
    + rewrite lookup_snoc.
      destruct (chans w !! Done c) as [ch|] eqn:Hch; [|done].
      apply count_absent. intros q Hq ->.
      specialize (Hsent _ _ _ Hch Hq). lia.
    + rewrite lookup_ge_None_2; [done|]. rewrite length_app. simpl. lia.
Qed.

Lemma invariant_make st n st' :
  invariant st → step (EMake n) st = Some st' → invariant st'.
Proof.
  intros Hinv [= <-]. split; simpl.
  - apply (inv_threads st Hinv).
  - intros d ch q [Hd|[_ Hd]]%lookup_app_Some.
    + by apply (inv_sent st Hinv d ch).
    + destruct (d - length (chans (world st))); [|done].
      injection Hd as <-. by intros ?%elem_of_nil.
  - apply (inv_lock_sender st Hinv).
  - apply (inv_lock_receiver st Hinv).
  - apply (inv_shutdown st Hinv).
  - apply (inv_registered st Hinv).
  - intros p. rewrite delivered_make. apply (inv_owed st Hinv p).
  - intros Hrange.
    destruct (inv_numbers st Hinv Hrange) as (Hseq & Hkeys & Hexact).
    split; [done|]. split; [done|].
    intros p. rewrite delivered_make. apply (Hexact p).
Qed.

Lemma invariant_close st st' :
  invariant st → step EClose st = Some st' → invariant st'.
Proof.
  intros Hinv Hstep. simpl in Hstep.
  destruct (mu_held st); [done|]. injection Hstep as <-.
  assert (calls (Close (world st)).1 = calls (world st) ∧
          chans (Close (world st)).1 = chans (world st) ∧
          pending (client (Close (world st)).1) = pending (client (world st)) ∧
          shutdown (client (Close (world st)).1) = shutdown (client (world st)) ∧
          seq (client (Close (world st)).1) = seq (client (world st)))
    as (Hcalls & Hchans & Hpend & Hsh & Hseq).
  { unfold Close. destruct (closing (client (world st))); [done|].
    simpl. by destruct (codec.Close _). }
  assert (∀ p, owed (set_world (Close (world st)).1 st) p
               + delivered (Close (world st)).1 p
               = owed st p + delivered (world st) p) as Hsame.
  { intros p. unfold owed. simpl.
    by rewrite (pending_owes_eq (world st)), (delivered_eq (world st)). }
  split; simpl.
  - rewrite Hcalls. apply (inv_threads st Hinv).
  - rewrite Hcalls, Hchans. apply (inv_sent st Hinv).
  - apply (inv_lock_sender st Hinv).
  - apply (inv_lock_receiver st Hinv).
  - rewrite Hsh. apply (inv_shutdown st Hinv).
  - rewrite Hsh. apply (inv_registered st Hinv).
  - intros p. rewrite Hsame, (exists_call_eq (world st)) by (by rewrite Hcalls).
    apply (inv_owed st Hinv p).
  - unfold in_range. rewrite Hcalls, Hseq, Hpend. intros Hrange.
    destruct (inv_numbers st Hinv Hrange) as (Hs & Hkeys & Hexact).
    split; [done|]. split; [done|].
    intros p. rewrite Hsame, (exists_call_eq (world st)) by (by rewrite Hcalls).
    apply (Hexact p).
Qed.

Lemma invariant_take st d st' :
  invariant st → step (ETake d) st = Some st' → invariant st'.
Proof.
  intros Hinv Hstep. simpl in Hstep.
  destruct (chans (world st) !! d) as [ch|] eqn:Hd; [|done]. simpl in Hstep.
  destruct (chan_recv ch) as [[q ch']|] eqn:Hrecv; [|done].
  injection Hstep as <-.
  assert (chan_sent ch' = chan_sent ch) as Hsent.
  { unfold chan_recv in Hrecv. destruct (chan_buf ch); [done|].
    by injection Hrecv as _ <-. }
  assert (∀ p, delivered (with_chans (<[d := ch']>) (world st)) p
               = delivered (world st) p) as Hdel.
  { intros p. unfold delivered. simpl.
    destruct (calls (world st) !! p) as [c|]; [|done].
    destruct (decide (Done c = d)) as [->|Hne].
    - rewrite list_lookup_insert_eq by (by eapply lookup_lt_Some).
      by rewrite Hd, Hsent.
    - by rewrite list_lookup_insert_ne. }
  split; simpl.
  - apply (inv_threads st Hinv).
  - intros d' ch0 x Hd' Hx. destruct (decide (d' = d)) as [->|Hne].
    + rewrite list_lookup_insert_eq in Hd' by (by eapply lookup_lt_Some).
      injection Hd' as <-. rewrite Hsent in Hx.
      by apply (inv_sent st Hinv d ch).
    + rewrite list_lookup_insert_ne in Hd' by done.
      by apply (inv_sent st Hinv d' ch0).
  - apply (inv_lock_sender st Hinv).
  - apply (inv_lock_receiver st Hinv).
  - apply (inv_shutdown st Hinv).
  - apply (inv_registered st Hinv).
  - intros p. unfold owed. simpl. rewrite Hdel. apply (inv_owed st Hinv p).
  - intros Hrange.
    destruct (inv_numbers st Hinv Hrange) as (Hs & Hkeys & Hexact).
    split; [done|]. split; [done|].
    intros p. unfold owed. simpl. rewrite Hdel. apply (Hexact p).
Qed.

Lemma invariant_go st s m a r done st' :
  invariant st → step (EGo s m a r done) st = Some st' → invariant st'.
Proof.
  intros Hinv Hstep. simpl in Hstep. unfold Go_enter in Hstep.
  assert (∃ w1 d,
    st' = set_senders (senders st ++ [SStart])
            (set_world (with_calls (λ l, l ++
               [{| Seq := 0; Service := s; Method := m; Args := a;
                   Reply := r; Error := None; Done := d |}]) w1) st) ∧
    client w1 = client (world st) ∧ calls w1 = calls (world st) ∧
    (∀ p, delivered w1 p = delivered (world st) p) ∧
    (∀ d ch q, chans w1 !! d = Some ch → q ∈ chan_sent ch →
       q < length (calls w1)))
    as (w1 & d & -> & Hcl & Hcalls & Hdel & Hsent).
  { destruct done as [d|]; simpl in Hstep.
    - case_decide; [done|]. simpl in Hstep. injection Hstep as <-.
      exists (world st), d. split; [done|]. split; [done|]. split; [done|].
      split; [done|]. apply (inv_sent st Hinv).
    - injection Hstep as <-. eexists _, _. split; [done|].
      split; [done|]. split; [done|]. split; [apply delivered_make|].
      destruct (invariant_make st 10 _ Hinv eq_refl) as [_ Hs _ _ _ _ _ _].
      exact Hs. }
  set (c := Build_Call _ _ _ _ _ _ _).
  assert (∀ p, owed (set_senders (senders st ++ [SStart])
                 (set_world (with_calls (λ l, l ++ [c]) w1) st)) p
               + delivered (with_calls (λ l, l ++ [c]) w1) p
               = owed st p + delivered (world st) p
                 + (if decide (p = length (calls (world st))) then 1 else 0))
    as Hsame.
  { intros p. unfold owed. simpl.
    rewrite senders_owe_snoc, delivered_alloc, Hdel by done. simpl.
    rewrite (inv_threads st Hinv).
    rewrite (pending_owes_eq (world st) (with_calls _ w1))
      by (simpl; by rewrite Hcl).
    lia. }
  assert (∀ p, exists_call (with_calls (λ l, l ++ [c]) w1) p
               = exists_call (world st) p
                 + (if decide (p = length (calls (world st))) then 1 else 0))
    as Hex.
  { intros p. unfold exists_call. simpl. rewrite length_app, Hcalls. simpl.
    repeat case_decide; lia. }
  split; simpl.
  - rewrite !length_app, Hcalls. simpl. by rewrite (inv_threads st Hinv).
  - intros d' ch q Hd' Hq. rewrite length_app. simpl.
    specialize (Hsent d' ch q Hd' Hq). lia.
  - intros t pc [Ht|[_ Ht]]%lookup_app_Some.
    + by apply (inv_lock_sender st Hinv).
    + destruct (t - length (senders st)); [|done]. by injection Ht as <-.
  - apply (inv_lock_receiver st Hinv).
  - rewrite Hcl. apply (inv_shutdown st Hinv).
  - rewrite Hcl. intros t pc [Ht|[_ Ht]]%lookup_app_Some.
    + by apply (inv_registered st Hinv t).
    + destruct (t - length (senders st)); [|done]. by injection Ht as <-.
  - intros p. rewrite Hsame, Hex. pose proof (inv_owed st Hinv p). lia.
  - intros Hrange.
    assert (in_range (world st)) as Hrange0.
    { unfold in_range in *. simpl in Hrange.
      rewrite length_app, Hcalls in Hrange. lia. }
    destruct (inv_numbers st Hinv Hrange0) as (Hs & Hkeys & Hexact).
    rewrite Hcl, numbered_snoc. simpl.
    split; [lia|]. split; [done|].
    intros p. rewrite Hsame, Hex, Hexact. done.
Qed.

Lemma invariant_step e st st' :
  invariant st → step e st = Some st' → invariant st'.
Proof.
  destruct e.
  - apply invariant_make.
  - apply invariant_go.
  - apply invariant_send.
  - apply invariant_receive.
  - apply invariant_close.
  - apply invariant_take.
Qed.

Lemma invariant_exec es : ∀ st st',
  invariant st → exec es st = Some st' → invariant st'.
Proof.
  induction es as [|e es IH]; intros st st' Hinv Hexec; simpl in Hexec.
  - by injection Hexec as <-.
  - destruct (step e st) as [st1|] eqn:Hstep; [|done].
    eapply IH; [|exact Hexec]. by eapply invariant_step.
Qed.

Lemma sum_imap_ge {A} (f : nat → A → nat) (l : list A) t x :
  l !! t = Some x → f t x ≤ sum_list (imap f l).
Proof.
  revert f t. induction l as [|a l IH]; intros f t Ht; [done|].
  destruct t as [|t]; simpl in *.
  - injection Ht as ->. lia.
  - specialize (IH (f ∘ S) t Ht). simpl in IH. lia.
Qed.

Lemma sum_imap_zero {A} (f : nat → A → nat) (l : list A) :
  (∀ t x, l !! t = Some x → f t x = 0) → sum_list (imap f l) = 0.
Proof.
  revert f. induction l as [|a l IH]; intros f Hf; simpl; [done|].
  rewrite (Hf 0 a eq_refl). simpl. apply IH.
  intros t x Ht. by apply (Hf (S t)).
Qed.

Lemma senders_owe_ge l t pc p :
  l !! t = Some pc → sender_owes t pc p ≤ senders_owe l p.
Proof.
  intros. unfold senders_owe.
  by apply (sum_imap_ge (λ t pc, sender_owes t pc p)).
Qed.

Lemma owed_quiescent st p :
  shutdown (client (world st)) = shut (recv st) →
  quiescent st → owed st p = 0.
Proof.
  intros Hsh [Hsenders [err Hrecv]]. unfold owed, pending_owes.
  rewrite Hsh, Hrecv. simpl.
  unfold senders_owe.
  rewrite (sum_imap_zero (λ t pc, sender_owes t pc p)); [done|].
  intros t pc Ht.
  rewrite Forall_lookup in Hsenders. by rewrite (Hsenders t pc Ht).
Qed.

Lemma Error_of_store_Seq w q s p :
  Error_of (store_Seq q s w) p = Error_of w p.
Proof.
  unfold Error_of, store_Seq. simpl. destruct (decide (q = p)) as [->|].
  - rewrite list_lookup_alter_eq. by destruct (calls w !! p).
  - by rewrite list_lookup_alter_ne.
Qed.

Lemma Error_of_eq w w' p : calls w' = calls w → Error_of w' p = Error_of w p.
Proof. unfold Error_of. by intros ->. Qed.

Lemma Error_of_store_Error_eq w q e :
  q < length (calls w) → Error_of (store_Error q e w) q = Some e.
Proof.
  intros Hq. rewrite Error_of_store_Error, decide_True by done.
  by destruct (lookup_lt_is_Some_2 _ _ Hq) as [c ->].
Qed.

Lemma Error_of_store_Error_ne w q e p :
  p ≠ q → Error_of (store_Error q e w) p = Error_of w p.
Proof. intros Hp. by rewrite Error_of_store_Error, decide_False. Qed.

(** A move in [send] touches the error and the completions of no call
    but the one the goroutine owes a completion to. *)
Lemma send_move_frame t pc st pc' st1 :
  send_move t pc st = Some (pc', st1) →
  ∀ p, sender_owes t pc p = 0 →
    Error_of (world st1) p = Error_of (world st) p ∧
    delivered (world st1) p = delivered (world st) p.
Proof.
  intros Hmove p Hp.
  destruct pc as [| |e|s|s e|[q|] e|q| |]; simpl in Hmove, Hp.
  - destruct (sending st); [done|]. by injection Hmove as <- <-.
  - destruct (mu_held st); [done|]. unfold registerCall in Hmove.
    destruct (closing (client (world st)) || shutdown (client (world st)));
      injection Hmove as <- <-; [done|]. simpl. split.
    + apply (Error_of_store_Seq (world st)).
    + apply (delivered_store_Seq (world st)).
  - injection Hmove as <- <-. simpl. case_decide; [done|].
    split; [by apply Error_of_store_Error_ne|apply delivered_store_Error].
  - destruct (calls (world st) !! t); [|done]. simpl in Hmove.
    destruct (codec.Write _ _ _) as [c' [e|]]; by injection Hmove as <- <-.
  - destruct (mu_held st); [done|]. by injection Hmove as <- <-.
  - injection Hmove as <- <-. simpl. case_decide; [done|].
    split; [by apply Error_of_store_Error_ne|apply delivered_store_Error].
  - by injection Hmove as <- <-.
  - destruct (Call_done q (world st)) as [w'| |] eqn:Hdone; try done.
    injection Hmove as <- <-. simpl.
    destruct (Call_done_effect _ _ _ Hdone) as (_ & Hcalls & _ & _ & Hdel & _).
    split; [by apply Error_of_eq|].
    rewrite Hdel. by case_decide.
  - by injection Hmove as <- <-.
  - done.
Qed.

Lemma count_zero_cons p q l : count p (q :: l) = 0 → p ≠ q ∧ count p l = 0.
Proof. rewrite count_cons. case_decide; [lia|]. by split. Qed.

(** Likewise for a move of the receiver. *)
Lemma receive_move_frame st st1 :
  receive_move st = Some st1 →
  ∀ p, receiver_owes (recv st) p = 0 →
    Error_of (world st1) p = Error_of (world st) p ∧
    delivered (world st1) p = delivered (world st) p.
Proof.
  unfold receive_move. intros Hmove p Hp.
  destruct (recv st) as [|h| |q h|q|q e2|err|err|err [|q rest]|err q rest|err];
    simpl in Hp.
  - destruct (codec.ReadHeader _) as [[c1 h] [e|]];
      by injection Hmove as <-.
  - by injection Hmove as <-.
  - destruct (codec.ReadBody _ _) as [c2 [e|]]; by injection Hmove as <-.
  - simpl in Hmove. destruct (codec.ReadBody _ _) as [c2 e2].
    injection Hmove as <-. simpl. case_decide; [done|]. split.
    + by apply (Error_of_store_Error_ne (world st)).
    + apply (delivered_store_Error (world st)).
  - case_decide; [done|].
    destruct (codec.ReadBody _ _) as [c2 [e|]]; injection Hmove as <-;
      simpl; [|done]. split.
    + by apply (Error_of_store_Error_ne (world st)).
    + apply (delivered_store_Error (world st)).
  - destruct (Call_done q (world st)) as [w'| |] eqn:Hdone; try done.
    injection Hmove as <-. simpl.
    destruct (Call_done_effect _ _ _ Hdone) as (_ & Hcalls & _ & _ & Hdel & _).
    split; [by apply Error_of_eq|]. rewrite Hdel. by case_decide.
  - destruct (sending st); [done|]. by injection Hmove as <-.
  - by injection Hmove as <-.
  - by injection Hmove as <-.
  - injection Hmove as <-. simpl.
    apply count_zero_cons in Hp as [Hpq _].
    split; [by apply Error_of_store_Error_ne|apply delivered_store_Error].
  - destruct (Call_done q (world st)) as [w'| |] eqn:Hdone; try done.
    injection Hmove as <-. simpl.
    destruct (Call_done_effect _ _ _ Hdone) as (_ & Hcalls & _ & _ & Hdel & _).
    split; [by apply Error_of_eq|]. rewrite Hdel. case_decide; [lia|done].
  - done.
Qed.

Lemma Error_of_alloc w c p :
  Error c = None → Error_of (with_calls (λ l, l ++ [c]) w) p = Error_of w p.
Proof.
  intros Hc. unfold Error_of. simpl.
  destruct (decide (p < length (calls w))) as [Hlt|Hge].
  - by rewrite lookup_app_l.
  - rewrite (lookup_ge_None_2 (calls w)) by lia.
    destruct (decide (p = length (calls w))) as [->|Hne].
    + by rewrite lookup_snoc.
    + rewrite lookup_ge_None_2; [done|]. rewrite length_app. simpl. lia.
Qed.

(** In a state the system reaches, a step touches the error and the
    completions of no call but one that the mover owes a completion
    to. *)
Lemma step_frame e st st' :
  invariant st → step e st = Some st' →
  ∀ p, mover_owes e st p = 0 →
    Error_of (world st') p = Error_of (world st) p ∧
    delivered (world st') p = delivered (world st) p.
Proof.
  intros Hinv Hstep p Hp. destruct e; simpl in Hstep, Hp.
  - injection Hstep as <-. simpl. split; [done|apply delivered_make].
  - unfold Go_enter in Hstep. destruct done as [d|]; simpl in Hstep.
    + case_decide; [done|]. injection Hstep as <-. simpl.
      split; [by apply Error_of_alloc|].
      apply delivered_alloc, (inv_sent st Hinv).
    + injection Hstep as <-. simpl.
      split; [by rewrite Error_of_alloc|].
      rewrite delivered_alloc; [apply delivered_make|].
      destruct (invariant_make st 10 _ Hinv eq_refl) as [_ Hs _ _ _ _ _ _].
      exact Hs.
  - destruct (senders st !! t) as [pc|]; [|done]. simpl in Hstep, Hp.
    destruct (send_move t pc st) as [[pc' st1]|] eqn:Hmove; [|done].
    injection Hstep as <-. simpl.
    by apply (send_move_frame t pc st pc' st1).
  - by apply receive_move_frame.
  - destruct (mu_held st); [done|]. injection Hstep as <-. simpl.
    assert (calls (Close (world st)).1 = calls (world st) ∧
            chans (Close (world st)).1 = chans (world st))
      as [Hcalls Hchans].
    { unfold Close. destruct (closing (client (world st))); [done|].
      simpl. by destruct (codec.Close _). }
    split; [by apply Error_of_eq|by apply delivered_eq].
  - destruct (chans (world st) !! d) as [ch|] eqn:Hd; [|done].
    simpl in Hstep.
    destruct (chan_recv ch) as [[q ch']|] eqn:Hrecv; [|done].
    injection Hstep as <-. simpl. split; [done|].
    assert (chan_sent ch' = chan_sent ch) as Hsent.
    { unfold chan_recv in Hrecv. destruct (chan_buf ch); [done|].
      by injection Hrecv as _ <-. }
    unfold delivered. simpl.
    destruct (calls (world st) !! p) as [c|]; [|done].
    destruct (decide (Done c = d)) as [->|Hne].
    + rewrite list_lookup_insert_eq by (by eapply lookup_lt_Some).
      by rewrite Hd, Hsent.
    + by rewrite list_lookup_insert_ne.
Qed.

(** A call that somebody owes a completion to exists and has not been
    completed. *)
Lemma owed_call st p :
  invariant st → 1 ≤ owed st p →
  p < length (calls (world st)) ∧ delivered (world st) p = 0.
Proof.
  intros Hinv Ho. pose proof (inv_owed st Hinv p) as Hle.
  unfold exists_call in Hle. case_decide; [split; [done|lia]|lia].
Qed.

Lemma sender_owed st t pc p :
  invariant st → senders st !! t = Some pc → sender_owes t pc p = 1 →
  p < length (calls (world st)) ∧ delivered (world st) p = 0.
Proof.
  intros Hinv Ht Hp. apply owed_call; [done|].
  pose proof (senders_owe_ge _ _ _ p Ht). unfold owed. lia.
Qed.

Lemma receiver_owed st p :
  invariant st → 1 ≤ receiver_owes (recv st) p →
  p < length (calls (world st)) ∧ delivered (world st) p = 0.
Proof. intros Hinv Hp. apply owed_call; [done|]. unfold owed. lia. Qed.

(** A goroutine inside [send] holds [client.sending], so [client.mu] is
    free of the loop of [terminateCalls]. *)
Lemma in_send_mu_free st t pc :
  invariant st → senders st !! t = Some pc → in_send pc = true →
  mu_held st = false.
Proof.
  intros Hinv Ht Hin.
  pose proof (inv_lock_sender st Hinv t pc Ht Hin) as Hs.
  destruct (mu_held st) eqn:Hmu; [|done].
  assert (terminating (recv st) = true) as Hterm.
  { unfold mu_held in Hmu. by destruct (recv st). }
  pose proof (inv_lock_receiver st Hinv Hterm). congruence.
Qed.

(** The step of goroutine [t], from its move. *)
Lemma step_send st t pc pc' st1 :
  senders st !! t = Some pc → send_move t pc st = Some (pc', st1) →
  ∃ st', step (ESend t) st = Some st' ∧ world st' = world st1 ∧
    senders st' !! t = Some pc'.
Proof.
  intros Ht Hmove. simpl. rewrite Ht. simpl. rewrite Hmove. simpl.
  eexists. split; [done|]. split; [done|]. simpl.
  apply list_lookup_insert_eq.
  assert (senders st1 = senders st) as ->.
  { destruct pc as [| |e|s|s e|[q|] e|q| |]; simpl in Hmove.
    - destruct (sending st); [done|]. by injection Hmove as <- <-.
    - destruct (mu_held st); [done|].
      destruct (registerCall t (world st)) as [w1 [s [e|]]];
        by injection Hmove as <- <-.
    - by injection Hmove as <- <-.
    - destruct (calls (world st) !! t); [|done]. simpl in Hmove.
      destruct (codec.Write _ _ _) as [c' [e|]]; by injection Hmove as <- <-.
    - destruct (mu_held st); [done|]. by injection Hmove as <- <-.
    - by injection Hmove as <- <-.
    - by injection Hmove as <- <-.
    - destruct (Call_done q (world st)); try done.
      by injection Hmove as <- <-.
    - by injection Hmove as <- <-.
    - done. }
  by eapply lookup_lt_Some.
Qed.

Lemma Call_done_room_for w q :
  room_for 1 w q → ∃ w', Call_done q w = Ret w'.
Proof.
  unfold room_for. intros Hroom.
  destruct (calls w !! q) as [c|] eqn:Hc; [|done].
  destruct (chans w !! Done c) as [ch|] eqn:Hch; [|done].
  eexists. apply (Call_done_room w q c ch); [done|done|lia].
Qed.

(** Progress in [send]: a goroutine that has not returned makes its next
    move, unless it waits for [client.sending] at the entry or for room
    on the channel of the call that it completes. *)
Lemma send_progress st t pc :
  invariant st → senders st !! t = Some pc → pc ≠ SReturned →
  (pc = SStart → sending st = None) →
  (∀ q, pc = SDeliver q → room_for 1 (world st) q) →
  ∃ st', step (ESend t) st = Some st'.
Proof.
  intros Hinv Ht Hret Hlock Hroom.
  assert (∃ pc' st1, send_move t pc st = Some (pc', st1))
    as (pc' & st1 & Hmove).
  { destruct pc as [| |e|s|s e|[q|] e|q| |]; simpl.
    - rewrite Hlock by done. by eexists _, _.
    - rewrite (in_send_mu_free st t SLocked) by done.
      destruct (registerCall t (world st)) as [w1 [s e]]. by eexists _, _.
    - by eexists _, _.
    - assert (t < length (calls (world st))) as Hlt.
      { rewrite <- (inv_threads st Hinv). by eapply lookup_lt_Some. }
      destruct (lookup_lt_is_Some_2 _ _ Hlt) as [c ->]. simpl.
      destruct (codec.Write _ _ _) as [c' werr]. by eexists _, _.
    - rewrite (in_send_mu_free st t (SWriteFailed s e)) by done.
      by eexists _, _.
    - by eexists _, _.
    - by eexists _, _.
    - destruct (Call_done_room_for (world st) q) as [w' ->]; [by apply Hroom|].
      by eexists _, _.
    - by eexists _, _.
    - done. }
  destruct (step_send st t pc pc' st1 Ht Hmove) as (st' & Hstep & _).
  by exists st'.
Qed.

(** Progress in [receive]: the receiver makes its next move until it has
    returned, unless it waits for [client.sending] at the entry of
    [terminateCalls] or for room on the channel of the call that it
    completes. *)
Lemma receive_progress st :
  (∀ err, recv st ≠ RReturned err) →
  (∀ err, recv st = RExit err → sending st = None) →
  (∀ q e2, recv st = RDeliver q e2 → room_for 1 (world st) q) →
  (∀ err q rest, recv st = RRangeDone err q rest →
     room_for 1 (world st) q) →
  ∃ st', step EReceive st = Some st'.
Proof.
  intros Hret Hlock Hroom1 Hroom2. simpl. unfold receive_move.
  destruct (recv st) as [|h| |q h|q|q e2|err|err|err [|q rest]|err q rest|err]
    eqn:Hpc.
  - destruct (codec.ReadHeader _) as [[c1 h] e]. by eexists.
  - by eexists.
  - destruct (codec.ReadBody _ _) as [c2 e2]. by eexists.
  - simpl. destruct (codec.ReadBody _ _) as [c2 e2]. by eexists.
  - destruct (codec.ReadBody _ _) as [c2 e2]. by eexists.
  - destruct (Call_done_room_for (world st) q) as [w' ->];
      [by eapply Hroom1|]. by eexists.
  - rewrite (Hlock err) by done. by eexists.
  - by eexists.
  - by eexists.
  - by eexists.
  - destruct (Call_done_room_for (world st) q) as [w' ->];
      [by eapply Hroom2|]. by eexists.
  - by destruct (Hret err).
Qed.

(** The path that stores the error, in [send]: after a failed
    registration the goroutine stores the error in its own call, after a
    failed write in the call that it took out of the table. *)
Lemma send_sets_error st t pc q e :
  invariant st → senders st !! t = Some pc →
  (pc = SRegFailed e ∧ q = t) ∨ pc = SRemoved (Some q) e →
  ∃ st', step (ESend t) st = Some st' ∧
    senders st' !! t = Some (SDeliver q) ∧
    Error_of (world st') q = Some e ∧
    delivered (world st') q = 0.
Proof.
  intros Hinv Ht Hpc.
  assert (sender_owes t pc q = 1) as Howes.
  { destruct Hpc as [[-> ->]| ->]; simpl; by rewrite decide_True. }
  destruct (sender_owed st t pc q Hinv Ht Howes) as [Hq Hdel].
  assert (send_move t pc st
          = Some (SDeliver q, set_world (store_Error q e (world st)) st))
    as Hmove by (by destruct Hpc as [[-> ->]| ->]).
  destruct (step_send st t pc _ _ Ht Hmove) as (st' & Hstep & Hw & Hs).
  exists st'. split; [done|]. split; [done|]. rewrite Hw. simpl.
  split; [by apply Error_of_store_Error_eq|].
  by rewrite delivered_store_Error.
Qed.

(** The completion, in [send]. *)
Lemma send_delivers st t q :
  invariant st → senders st !! t = Some (SDeliver q) →
  room_for 1 (world st) q →
  ∃ st', step (ESend t) st = Some st' ∧
    senders st' !! t = Some SUnlock ∧
    delivered (world st') q = 1 ∧
    Error_of (world st') q = Error_of (world st) q.
Proof.
  intros Hinv Ht Hroom.
  destruct (sender_owed st t (SDeliver q) q Hinv Ht) as [Hq Hdel];
    [simpl; by rewrite decide_True|].
  destruct (Call_done_room_for (world st) q Hroom) as [w' Hdone].
  assert (send_move t (SDeliver q) st = Some (SUnlock, set_world w' st))
    as Hmove by (simpl; by rewrite Hdone).
  destruct (step_send st t _ _ _ Ht Hmove) as (st' & Hstep & Hw & Hs).
  exists st'. split; [done|]. split; [done|]. rewrite Hw. simpl.
  destruct (Call_done_effect _ _ _ Hdone) as (_ & Hcalls & _ & _ & Hd & _).
  split; [by rewrite Hd, decide_True, Hdel|by apply Error_of_eq].
Qed.

(** The paths that store the error, in [receive]: the error of the
    server, the decode failure, and the error that ended the loop. *)
Lemma receive_sets_error st :
  invariant st →
  (∀ q h, recv st = RRemote q h →
     ∃ st' e2, step EReceive st = Some st' ∧ recv st' = RDeliver q e2 ∧
       Error_of (world st') q = Some (fmt_Errorf (codec.Error h)) ∧
       delivered (world st') q = 0) ∧
  (∀ q, recv st = RNormal q →
     ∃ st' e2, step EReceive st = Some st' ∧ recv st' = RDeliver q e2 ∧
       Error_of (world st') q =
         match e2 with
         | Some err => Some (errors_New ("reading body " +:+ Error_text err))
         | None => Error_of (world st) q
         end ∧
       delivered (world st') q = 0) ∧
  (∀ err q rest, recv st = RRange err (q :: rest) →
     ∃ st', step EReceive st = Some st' ∧
       recv st' = RRangeDone err q rest ∧
       Error_of (world st') q = Some err ∧
       delivered (world st') q = 0).
Proof.
  intros Hinv. split; [|split].
  - intros q h Hpc.
    destruct (receiver_owed st q Hinv) as [Hq Hdel];
      [rewrite Hpc; simpl; by rewrite decide_True|].
    simpl. unfold receive_move. rewrite Hpc. simpl.
    destruct (codec.ReadBody _ _) as [c2 e2].
    eexists _, e2. split; [done|]. split; [done|]. simpl. split.
    + by apply (Error_of_store_Error_eq (world st)).
    + by rewrite <- Hdel, <- (delivered_store_Error (world st) q q
                               (fmt_Errorf (codec.Error h))).
  - intros q Hpc.
    destruct (receiver_owed st q Hinv) as [Hq Hdel];
      [rewrite Hpc; simpl; by rewrite decide_True|].
    simpl. unfold receive_move. rewrite Hpc.
    destruct (codec.ReadBody _ _) as [c2 [err|]].
    + eexists _, (Some err). split; [done|]. split; [done|]. simpl. split.
      * by apply (Error_of_store_Error_eq (world st)).
      * by rewrite <- Hdel,
          <- (delivered_store_Error (world st) q q
                (errors_New ("reading body " +:+ Error_text err))).
    + eexists _, None. by split.
  - intros err q rest Hpc.
    destruct (receiver_owed st q Hinv) as [Hq Hdel].
    { rewrite Hpc. simpl. rewrite count_cons, decide_True by done. lia. }
    simpl. unfold receive_move. rewrite Hpc.
    eexists. split; [done|]. split; [done|]. simpl.
    split; [by apply Error_of_store_Error_eq|].
    by rewrite delivered_store_Error.
Qed.

(** The completions, in [receive]. *)
Lemma receive_delivers st :
  invariant st →
  (∀ q e2, recv st = RDeliver q e2 → room_for 1 (world st) q →
     ∃ st', step EReceive st = Some st' ∧ recv st' = next_pass e2 ∧
       delivered (world st') q = 1 ∧
       Error_of (world st') q = Error_of (world st) q) ∧
  (∀ err q rest, recv st = RRangeDone err q rest →
     room_for 1 (world st) q →
     ∃ st', step EReceive st = Some st' ∧ recv st' = RRange err rest ∧
       delivered (world st') q = 1 ∧
       Error_of (world st') q = Error_of (world st) q).
Proof.
  intros Hinv. split.
  - intros q e2 Hpc Hroom.
    destruct (receiver_owed st q Hinv) as [Hq Hdel];
      [rewrite Hpc; simpl; by rewrite decide_True|].
    destruct (Call_done_room_for (world st) q Hroom) as [w' Hdone].
    simpl. unfold receive_move. rewrite Hpc, Hdone.
    eexists. split; [done|]. split; [done|]. simpl.
    destruct (Call_done_effect _ _ _ Hdone) as (_ & Hcalls & _ & _ & Hd & _).
    split; [by rewrite Hd, decide_True, Hdel|by apply Error_of_eq].
  - intros err q rest Hpc Hroom.
    destruct (receiver_owed st q Hinv) as [Hq Hdel].
    { rewrite Hpc. simpl. rewrite decide_True by done. lia. }
    destruct (Call_done_room_for (world st) q Hroom) as [w' Hdone].
    simpl. unfold receive_move. rewrite Hpc, Hdone.
    eexists. split; [done|]. split; [done|]. simpl.
    destruct (Call_done_effect _ _ _ Hdone) as (_ & Hcalls & _ & _ & Hd & _).
    split; [by rewrite Hd, decide_True, Hdel|by apply Error_of_eq].
Qed.

(** Who takes a call out of the table takes it over: the goroutine whose
    write failed, the receiver with the header of a response, and the
    receiver at the entry of the loop of [terminateCalls], which takes
    over all the calls of the table at once. *)
Lemma removal_hands_over st :
  invariant st →
  (∀ t s e, senders st !! t = Some (SWriteFailed s e) →
     ∃ st', step (ESend t) st = Some st' ∧
       senders st' !! t
       = Some (SRemoved (pending (client (world st)) !! s) e) ∧
       pending (client (world st'))
       = delete s (pending (client (world st)))) ∧
  (∀ h, recv st = RHeader h →
     ∃ st', step EReceive st = Some st' ∧
       recv st' =
         match pending (client (world st)) !! codec.Seq h with
         | None => RNoCall
         | Some q =>
             if decide (codec.Error h ≠ "") then RRemote q h else RNormal q
         end ∧
       pending (client (world st'))
       = delete (codec.Seq h) (pending (client (world st)))) ∧
  (∀ err, recv st = RLocked err →
     ∃ st', step EReceive st = Some st' ∧
       recv st' = RRange err (pending_calls (world st)) ∧
       shutdown (client (world st')) = true ∧
       pending (client (world st')) = pending (client (world st))).
Proof.
  intros Hinv. split; [|split].
  - intros t s e Ht.
    assert (send_move t (SWriteFailed s e) st
            = Some (SRemoved (pending (client (world st)) !! s) e,
                    set_world (removeCall s (world st)).1 st)) as Hmove.
    { simpl. by rewrite (in_send_mu_free st t (SWriteFailed s e)). }
    destruct (step_send st t _ _ _ Ht Hmove) as (st' & Hstep & Hw & Hs).
    exists st'. split; [done|]. split; [done|]. by rewrite Hw.
  - intros h Hpc. simpl. unfold receive_move. rewrite Hpc.
    eexists. split; [done|]. by split.
  - intros err Hpc. simpl. unfold receive_move. rewrite Hpc.
    eexists. split; [done|]. by split.
Qed.

(** C1. In every state the system reaches from a new client, whatever
    the schedule of the goroutines, the answers of the codec and the calls
    of [Close]:
    - every call has at most one completion on its [Done] channel, and a
      call that has its completion is owed none: together, what is owed
      and what is delivered never exceed one;
    - the goroutine in [send] that has taken a call out of the pending
      table after a failed write is the only one that owes it its
      completion: the table and the receiver owe it nothing and it has
      not been completed; likewise for the receiver and the call it has
      taken out; the goroutine that found no call moves on with the world
      untouched;
    - as long as the connection has made fewer than 2^64 - 1 calls, every
      call is either owed its completion by exactly one owner or has
      exactly one completion; so that, once every [send] and the receiver
      have returned, every call has exactly one completion;
    - only its owner touches a call: a step changes the error and the
      completions of no call but one that the goroutine making the step
      owes a completion to;
    - nobody is stuck on the way: a goroutine in [send] and the receiver
      make their next move until they have returned, unless they wait
      for [client.sending] at the entry or for room on the [Done]
      channel of the call they complete;
    - on every path the owner stores the error and then completes the
      call.  In [send]: after a failed registration, the error of the
      registration in the goroutine's own call; after a failed write,
      the error of the write in the call the goroutine took out of the
      table.  In [receive]: the error of the server, the decode failure
      (nothing for a body that decodes), and, in the loop of
      [terminateCalls], the error that ended the loop.  The move after
      that delivers the call, which has then exactly one completion and
      the error it was given;
    - who takes a call out of the table takes it over: the goroutine
      whose write failed, the receiver with the header of a response,
      and the receiver at the entry of the loop of [terminateCalls],
      which sets [shutdown] and takes over all the calls of the table;
    - the moves are those of the package: a goroutine that runs on its
      own through [send] does what the function [send] does, and the
      receiver what one pass of the loop of [receive] and
      [terminateCalls] do. *)
Theorem completion_exactly_once (c : C) es st :
  exec es (init c) = Some st →
  (∀ p, owed st p + delivered (world st) p ≤ 1) ∧
  (∀ p, delivered (world st) p ≤ 1) ∧
  (∀ t q e,
     senders st !! t = Some (SRemoved (Some q) e) ∨
     senders st !! t = Some (SDeliver q) →
     pending_owes (world st) q = 0 ∧ receiver_owes (recv st) q = 0 ∧
     delivered (world st) q = 0) ∧
  (∀ q, receiver_owes (recv st) q = 1 →
     pending_owes (world st) q = 0 ∧ senders_owe (senders st) q = 0 ∧
     delivered (world st) q = 0) ∧
  (∀ t e, senders st !! t = Some (SRemoved None e) →
     ∃ st', step (ESend t) st = Some st' ∧ world st' = world st) ∧
  (in_range (world st) →
   ∀ p, p < length (calls (world st)) →
     owed st p + delivered (world st) p = 1) ∧
  (in_range (world st) → quiescent st →
   ∀ p, p < length (calls (world st)) → delivered (world st) p = 1) ∧
  (* only the owner touches a call *)
  (∀ e st' p, step e st = Some st' → mover_owes e st p = 0 →
     Error_of (world st') p = Error_of (world st) p ∧
     delivered (world st') p = delivered (world st) p) ∧
  (* progress *)
  (∀ t pc, senders st !! t = Some pc → pc ≠ SReturned →
     (pc = SStart → sending st = None) →
     (∀ q, pc = SDeliver q → room_for 1 (world st) q) →
     ∃ st', step (ESend t) st = Some st') ∧
  ((∀ err, recv st ≠ RReturned err) →
   (∀ err, recv st = RExit err → sending st = None) →
   (∀ q e2, recv st = RDeliver q e2 → room_for 1 (world st) q) →
   (∀ err q rest, recv st = RRangeDone err q rest →
      room_for 1 (world st) q) →
   ∃ st', step EReceive st = Some st') ∧
  (* the paths of [send] *)
  (∀ t pc q e, senders st !! t = Some pc →
     (pc = SRegFailed e ∧ q = t) ∨ pc = SRemoved (Some q) e →
     ∃ st', step (ESend t) st = Some st' ∧
       senders st' !! t = Some (SDeliver q) ∧
       Error_of (world st') q = Some e ∧
       delivered (world st') q = 0) ∧
  (∀ t q, senders st !! t = Some (SDeliver q) →
     room_for 1 (world st) q →
     ∃ st', step (ESend t) st = Some st' ∧
       senders st' !! t = Some SUnlock ∧
       delivered (world st') q = 1 ∧
       Error_of (world st') q = Error_of (world st) q) ∧
  (* the paths of [receive] *)
  (∀ q h, recv st = RRemote q h →
     ∃ st' e2, step EReceive st = Some st' ∧ recv st' = RDeliver q e2 ∧
       Error_of (world st') q = Some (fmt_Errorf (codec.Error h)) ∧
       delivered (world st') q = 0) ∧
  (∀ q, recv st = RNormal q →
     ∃ st' e2, step EReceive st = Some st' ∧ recv st' = RDeliver q e2 ∧
       Error_of (world st') q =
         match e2 with
         | Some err => Some (errors_New ("reading body " +:+ Error_text err))
         | None => Error_of (world st) q
         end ∧
       delivered (world st') q = 0) ∧
  (∀ err q rest, recv st = RRange err (q :: rest) →
     ∃ st', step EReceive st = Some st' ∧
       recv st' = RRangeDone err q rest ∧
       Error_of (world st') q = Some err ∧
       delivered (world st') q = 0) ∧
  (∀ q e2, recv st = RDeliver q e2 → room_for 1 (world st) q →
     ∃ st', step EReceive st = Some st' ∧ recv st' = next_pass e2 ∧
       delivered (world st') q = 1 ∧
       Error_of (world st') q = Error_of (world st) q) ∧
  (∀ err q rest, recv st = RRangeDone err q rest →
     room_for 1 (world st) q →
     ∃ st', step EReceive st = Some st' ∧ recv st' = RRange err rest ∧
       delivered (world st') q = 1 ∧
       Error_of (world st') q = Error_of (world st) q) ∧
  (* taking a call out of the table *)
  (∀ t s e, senders st !! t = Some (SWriteFailed s e) →
     ∃ st', step (ESend t) st = Some st' ∧
       senders st' !! t
       = Some (SRemoved (pending (client (world st)) !! s) e) ∧
       pending (client (world st'))
       = delete s (pending (client (world st)))) ∧
  (∀ h, recv st = RHeader h →
     ∃ st', step EReceive st = Some st' ∧
       recv st' =
         match pending (client (world st)) !! codec.Seq h with
         | None => RNoCall
         | Some q =>
             if decide (codec.Error h ≠ "") then RRemote q h else RNormal q
         end ∧
       pending (client (world st'))
       = delete (codec.Seq h) (pending (client (world st)))) ∧
  (∀ err, recv st = RLocked err →
     ∃ st', step EReceive st = Some st' ∧
       recv st' = RRange err (pending_calls (world st)) ∧
       shutdown (client (world st')) = true ∧
       pending (client (world st')) = pending (client (world st))) ∧
  (* the goroutines and the functions of the package *)
  (∀ st0 t, sending st0 = None → mu_held st0 = false →
     run_send 7 t SStart st0 =
     match send t (world st0) with
     | Ret w' => Some (set_world w' st0)
     | _ => None
     end) ∧
  (∀ st0, recv st0 = RLoop →
     run_pass 4 st0 =
     match receive_pass (world st0) with
     | Ret (w', err) => Some (set_recv (next_pass err) (set_world w' st0))
     | _ => None
     end) ∧
  (∀ st0 err, recv st0 = RExit err → sending st0 = None →
     run_terminate (3 + 2 * length (pending_calls (world st0))) st0 =
     match terminateCalls err (world st0) with
     | Ret w' => Some (set_recv (RReturned err) (set_world w' st0))
     | _ => None
     end).
Proof.
  intros Hexec.
  pose proof (invariant_exec es (init c) st (invariant_init c) Hexec) as Hinv.
  assert (∀ p, owed st p + delivered (world st) p ≤ 1) as Hle.
  { intros p. pose proof (inv_owed st Hinv p) as Ho.
    unfold exists_call in Ho. case_decide; lia. }
  assert (in_range (world st) → ∀ p, p < length (calls (world st)) →
            owed st p + delivered (world st) p = 1) as Heq.
  { intros Hrange p Hp.
    destruct (inv_numbers st Hinv Hrange) as (_ & _ & Hexact).
    rewrite Hexact. unfold exists_call. by rewrite decide_True. }
  split; [done|]. split; [intros p; specialize (Hle p); lia|].
  split; [|split; [|split; [|split; [done|split]]]].
  - intros t q e Ht. specialize (Hle q). unfold owed in Hle.
    assert (1 ≤ senders_owe (senders st) q) as Hmine.
    { destruct Ht as [Ht|Ht];
        pose proof (senders_owe_ge _ _ _ q Ht) as Hge; simpl in Hge;
        by rewrite decide_True in Hge. }
    lia.
  - intros q Hq. specialize (Hle q). unfold owed in Hle. lia.
  - intros t e Ht. simpl. rewrite Ht. simpl. eexists. by split.
  - intros Hrange Hq p Hp.
    specialize (Heq Hrange p Hp).
    rewrite (owed_quiescent st p (inv_shutdown st Hinv) Hq) in Heq. lia.
  - destruct (receive_sets_error st Hinv) as (Hremote & Hnormal & Hrange).
    destruct (receive_delivers st Hinv) as (Hdeliver & Hrangedone).
    destruct (removal_hands_over st Hinv) as (Hwrite & Hheader & Hlocked).
    split; [intros e st' p Hstep; by apply step_frame|].
    split; [intros t pc; by apply send_progress|].
    split; [apply receive_progress|].
    split; [intros t pc q e; by apply send_sets_error|].
    split; [intros t q; by apply send_delivers|].
    split; [exact Hremote|]. split; [exact Hnormal|].
    split; [exact Hrange|]. split; [exact Hdeliver|].
    split; [exact Hrangedone|]. split; [exact Hwrite|].
    split; [exact Hheader|]. split; [exact Hlocked|].
    split; [intros st0 t; apply run_send_send|].
    split; [apply run_pass_receive_pass|].
    intros st0 err. apply run_terminate_terminateCalls.
Qed.

Lemma count_NoDup (l : list nat) : (∀ p, count p l ≤ 1) → NoDup l.
Proof.
  induction l as [|x l IH]; intros Hc; [constructor|].
  constructor.
  - intros Hx. specialize (Hc x). rewrite count_cons, decide_True in Hc by done.
    assert (0 < count x l); [|lia].
    unfold count. apply list_elem_of_In in Hx.
    destruct (filter (λ q, q = x) l) as [|y k] eqn:Hf; [|simpl; lia].
    assert (x ∈ filter (λ q, q = x) l) as Hin
      by (apply list_elem_of_filter; split; [done|by apply list_elem_of_In]).
    rewrite Hf in Hin. by apply elem_of_nil in Hin.
  - apply IH. intros p. specialize (Hc p). rewrite count_cons in Hc. lia.
Qed.

(** In a state the system can reach, as long as the client is not shut
    down, no call sits in the pending table under two numbers. *)
Lemma reachable_pending_NoDup (c : C) es st :
  exec es (init c) = Some st →
  shutdown (client (world st)) = false →
  NoDup (pending_calls (world st)).
Proof.
  intros Hexec Hsh.
  pose proof (invariant_exec es (init c) st (invariant_init c) Hexec) as Hinv.
  apply count_NoDup. intros p.
  pose proof (inv_owed st Hinv p) as Ho.
  unfold owed, pending_owes, exists_call in Ho. rewrite Hsh in Ho.
  case_decide; lia.
Qed.

Lemma Close_closing w : closing (client (Close w).1) = true.
Proof.
  unfold Close. destruct (closing (client w)) eqn:Hc; [done|].
  simpl. by destruct (codec.Close _).
Qed.

Lemma send_move_closing t pc st pc' st1 :
  send_move t pc st = Some (pc', st1) →
  closing (client (world st1)) = closing (client (world st)).
Proof.
  intros Hmove.
  destruct pc as [| |e|s|s e|[q|] e|q| |]; simpl in Hmove.
  - destruct (sending st); [done|]. by injection Hmove as <- <-.
  - destruct (mu_held st); [done|]. unfold registerCall in Hmove.
    destruct (closing (client (world st)) || shutdown (client (world st)));
      by injection Hmove as <- <-.
  - by injection Hmove as <- <-.
  - destruct (calls (world st) !! t); [|done]. simpl in Hmove.
    destruct (codec.Write _ _ _) as [c' [e|]]; by injection Hmove as <- <-.
  - destruct (mu_held st); [done|]. by injection Hmove as <- <-.
  - by injection Hmove as <- <-.
  - by injection Hmove as <- <-.
  - destruct (Call_done q (world st)) as [w'| |] eqn:Hdone; try done.
    injection Hmove as <- <-. simpl.
    by destruct (Call_done_effect _ _ _ Hdone) as (-> & _).
  - by injection Hmove as <- <-.
  - done.
Qed.

Lemma receive_move_closing st st1 :
  receive_move st = Some st1 →
  closing (client (world st1)) = closing (client (world st)).
Proof.
  unfold receive_move. intros Hmove.
  destruct (recv st) as [|h| |q h|q|q e2|err|err|err [|q rest]|err q rest|err].
  - destruct (codec.ReadHeader _) as [[c1 h] [e|]];
      by injection Hmove as <-.
  - by injection Hmove as <-.
  - destruct (codec.ReadBody _ _) as [c2 [e|]]; by injection Hmove as <-.
  - simpl in Hmove. destruct (codec.ReadBody _ _) as [c2 e2].
    by injection Hmove as <-.
  - destruct (codec.ReadBody _ _) as [c2 [e|]]; by injection Hmove as <-.
  - destruct (Call_done q (world st)) as [w'| |] eqn:Hdone; try done.
    injection Hmove as <-. simpl.
    by destruct (Call_done_effect _ _ _ Hdone) as (-> & _).
  - destruct (sending st); [done|]. by injection Hmove as <-.
  - by injection Hmove as <-.
  - by injection Hmove as <-.
  - by injection Hmove as <-.
  - destruct (Call_done q (world st)) as [w'| |] eqn:Hdone; try done.
    injection Hmove as <-. simpl.
    by destruct (Call_done_effect _ _ _ Hdone) as (-> & _).
  - done.
Qed.

(** Neither flag is ever cleared: a client that is closing stays
    closing, whatever happens next. *)
Lemma step_closing e st st' :
  step e st = Some st' →
  closing (client (world st)) = true → closing (client (world st')) = true.
Proof.
  intros Hstep Hc. destruct e; simpl in Hstep.
  - by injection Hstep as <-.
  - unfold Go_enter in Hstep. destruct done as [d|]; simpl in Hstep.
    + case_decide; [done|]. by injection Hstep as <-.
    + by injection Hstep as <-.
  - destruct (senders st !! t) as [pc|]; [|done]. simpl in Hstep.
    destruct (send_move t pc st) as [[pc' st1]|] eqn:Hmove; [|done].
    injection Hstep as <-. simpl.
    by rewrite (send_move_closing _ _ _ _ _ Hmove).
  - by rewrite (receive_move_closing _ _ Hstep).
  - destruct (mu_held st); [done|]. injection Hstep as <-.
    apply Close_closing.
  - destruct (chans (world st) !! d) as [ch|]; [|done]. simpl in Hstep.
    destruct (chan_recv ch) as [[q ch']|]; [|done]. by injection Hstep as <-.
Qed.

Lemma exec_closing es : ∀ st st',
  exec es st = Some st' →
  closing (client (world st)) = true → closing (client (world st')) = true.
Proof.
  induction es as [|e es IH]; intros st st' Hexec Hc; simpl in Hexec.
  - by injection Hexec as <-.
  - destruct (step e st) as [st1|] eqn:Hstep; [|done].
    eapply IH; [exact Hexec|]. by eapply step_closing.
Qed.

End exactly_once.

(** ** The numbers of the calls in a running system *)

Section reachable_numbers.
Context {C : Type} `{!codec.Codec C}.
Implicit Types (w : World C) (st : State C) (p q t : nat).

Lemma Seq_of_store_Error w q e p :
  Seq_of (store_Error q e w) p = Seq_of w p.
Proof.
  unfold Seq_of, store_Error. simpl. destruct (decide (q = p)) as [->|].
  - rewrite list_lookup_alter_eq. by destruct (calls w !! p).
  - by rewrite list_lookup_alter_ne.
Qed.

Lemma Seq_of_store_Seq w q s p :
  Seq_of (store_Seq q s w) p =
  if decide (p = q) then (λ _, s) <$> calls w !! p else Seq_of w p.
Proof.
  unfold Seq_of, store_Seq. simpl. case_decide as Hpq.
  - subst. rewrite list_lookup_alter_eq. by destruct (calls w !! q).
  - by rewrite list_lookup_alter_ne.
Qed.

Lemma Seq_of_eq w w' p : calls w' = calls w → Seq_of w' p = Seq_of w p.
Proof. unfold Seq_of. by intros ->. Qed.

(** A move in [send] either leaves the numbers of all calls alone, or it
    is the registration of call [t] under the current counter. *)
Lemma send_move_Seq t pc st pc' st1 :
  send_move t pc st = Some (pc', st1) →
  let w := world st in let w1 := world st1 in
  (seq (client w1) = seq (client w) ∧
   (started pc' = 0 → started pc = 0) ∧
   ∀ q, Seq_of w1 q = Seq_of w q)
  ∨ (pc = SLocked ∧ started pc' = 1 ∧
     seq (client w1) = wrap64 (seq (client w) + 1) ∧
     ∀ q, Seq_of w1 q =
          if decide (q = t) then (λ _, seq (client w)) <$> calls w !! q
          else Seq_of w q).
Proof.
  intros Hmove.
  destruct pc as [| |e|s|s e|[q|] e|q| |]; simpl in Hmove.
  - destruct (sending st); [done|]. injection Hmove as <- <-. by left.
  - destruct (mu_held st); [done|]. unfold registerCall in Hmove.
    destruct (closing (client (world st)) || shutdown (client (world st)));
      injection Hmove as <- <-.
    + left. done.
    + right. simpl. split; [done|]. split; [done|]. split; [done|].
      intros q. apply (Seq_of_store_Seq (world st) t).
  - injection Hmove as <- <-. left. simpl. split; [done|]. split; [done|].
    intros q. apply Seq_of_store_Error.
  - destruct (calls (world st) !! t); [|done]. simpl in Hmove.
    destruct (codec.Write _ _ _) as [c' [e|]];
      injection Hmove as <- <-; by left.
  - destruct (mu_held st); [done|]. injection Hmove as <- <-. by left.
  - injection Hmove as <- <-. left. simpl. split; [done|]. split; [done|].
    intros p. apply Seq_of_store_Error.
  - injection Hmove as <- <-. by left.
  - destruct (Call_done q (world st)) as [w'| |] eqn:Hdone; try done.
    injection Hmove as <- <-. simpl.
    destruct (Call_done_effect _ _ _ Hdone) as (-> & Hcalls & _). left.
    split; [done|]. split; [done|]. intros p. by apply Seq_of_eq.
  - injection Hmove as <- <-. by left.
  - done.
Qed.

Lemma receive_move_Seq st st1 :
  receive_move st = Some st1 → ∀ q, Seq_of (world st1) q = Seq_of (world st) q.
Proof.
  unfold receive_move. intros Hmove.
  destruct (recv st) as [|h| |q h|q|q e2|err|err|err [|q rest]|err q rest|err].
  - destruct (codec.ReadHeader _) as [[c1 h] [e|]];
      by injection Hmove as <-.
  - by injection Hmove as <-.
  - destruct (codec.ReadBody _ _) as [c2 [e|]]; by injection Hmove as <-.
  - simpl in Hmove. destruct (codec.ReadBody _ _) as [c2 e2].
    injection Hmove as <-. simpl. intros p.
    apply (Seq_of_store_Error (world st)).
  - destruct (codec.ReadBody _ _) as [c2 [e|]]; injection Hmove as <-;
      simpl; intros p; [|done].
    apply (Seq_of_store_Error (world st)).
  - destruct (Call_done q (world st)) as [w'| |] eqn:Hdone; try done.
    injection Hmove as <-. simpl.
    destruct (Call_done_effect _ _ _ Hdone) as (_ & Hcalls & _).
    intros p. by apply Seq_of_eq.
  - destruct (sending st); [done|]. by injection Hmove as <-.
  - by injection Hmove as <-.
  - by injection Hmove as <-.
  - injection Hmove as <-. simpl. intros p. apply Seq_of_store_Error.
  - destruct (Call_done q (world st)) as [w'| |] eqn:Hdone; try done.
    injection Hmove as <-. simpl.
    destruct (Call_done_effect _ _ _ Hdone) as (_ & Hcalls & _).
    intros p. by apply Seq_of_eq.
  - done.
Qed.


Lemma numbering_frame st st' :
  seq (client (world st')) = seq (client (world st)) →
  (∀ q, Seq_of (world st') q = Seq_of (world st) q) →
  (∀ t pc', senders st' !! t = Some pc' → started pc' = 0 →
     ∃ pc, senders st !! t = Some pc ∧ started pc = 0) →
  numbering st → numbering st'.
Proof.
  intros Hseq HSeq Hsend [Hr Hd Ha Hu]. split.
  - intros t s. rewrite HSeq, Hseq. apply Hr.
  - intros t1 t2 s. rewrite !HSeq. apply Hd.
  - intros s. rewrite Hseq. intros Hs. destruct (Ha s Hs) as [t Ht].
    exists t. by rewrite HSeq.
  - intros t pc' s Ht Hst. rewrite HSeq.
    destruct (Hsend t pc' Ht Hst) as (pc & Hpc & Hst0). by apply (Hu t pc).
Qed.

Lemma numbering_init (c : C) : numbering (init c).
Proof.
  split; simpl; try done. intros s Hs. lia.
Qed.

Lemma numbering_step e st st' :
  invariant st → (in_range (world st) → numbering st) →
  step e st = Some st' → in_range (world st') → numbering st'.
Proof.
  intros Hinv Hnum Hstep Hrange. destruct e; simpl in Hstep.
  - (* make *)
    injection Hstep as <-. by apply (numbering_frame st); [..|eauto|apply Hnum].
  - (* Go *)
    unfold Go_enter in Hstep.
    assert (∃ w1 d,
      st' = set_senders (senders st ++ [SStart])
              (set_world (with_calls (λ l, l ++
                 [{| Seq := 0; Service := service; Method := method;
                     Args := args; Reply := reply; Error := None;
                     Done := d |}]) w1) st) ∧
      client w1 = client (world st) ∧ calls w1 = calls (world st))
      as (w1 & d & -> & Hcl & Hcalls).
    { destruct done as [d|]; simpl in Hstep.
      - case_decide; [done|]. injection Hstep as <-. by exists (world st), d.
      - injection Hstep as <-. by eexists _, _. }
    assert (in_range (world st)) as Hrange0.
    { unfold in_range in *. simpl in Hrange.
      rewrite length_app, Hcalls in Hrange. lia. }
    destruct (Hnum Hrange0) as [Hr Hd Ha Hu].
    destruct (inv_numbers st Hinv Hrange0) as (Hseq & _ & _).
    assert (∀ q s, Seq_of
              (with_calls (λ l, l ++
                 [{| Seq := 0; Service := service; Method := method;
                     Args := args; Reply := reply; Error := None;
                     Done := d |}]) w1) q = Some s →
              Seq_of (world st) q = Some s ∨
              (q = length (calls (world st)) ∧ s = 0%Z)) as Hnew.
    { intros q s. unfold Seq_of. simpl. rewrite Hcalls.
      intros (c & [Hc|[Hge Hc]]%lookup_app_Some & ->)%fmap_Some.
      - left. by rewrite Hc.
      - right. destruct (q - length (calls (world st))) eqn:Hq; [|done].
        injection Hc as <-. split; [lia|done]. }
    split; simpl; rewrite ?Hcl.
    + intros t s [Hs|[_ ->]]%Hnew; [by apply (Hr t)|lia].
    + intros t1 t2 s [H1|[_ ->]]%Hnew [H2|[_ H0]]%Hnew Hne;
        try done. by apply (Hd t1 t2 s).
    + intros s Hs. destruct (Ha s Hs) as [t Ht]. exists t.
      unfold Seq_of in *. simpl. rewrite Hcalls.
      destruct (calls (world st) !! t) as [c|] eqn:Hc; [|done].
      by rewrite (lookup_app_l_Some _ _ _ _ Hc).
    + intros t pc s [Ht|[Hge Ht]]%lookup_app_Some Hst [Hs|[_ ->]]%Hnew;
        try done; [by apply (Hu t pc)|].
      rewrite (inv_threads st Hinv) in Hge. unfold Seq_of in Hs.
      by rewrite lookup_ge_None_2 in Hs.
  - (* send *)
    destruct (senders st !! t) as [pc|] eqn:Hpc; [|done]. simpl in Hstep.
    destruct (send_move t pc st) as [[pc' st1]|] eqn:Hmove; [|done].
    injection Hstep as <-.
    destruct (send_move_local t pc st pc' st1 Hmove)
      as (Hsend & _ & Hlen & _);
      [by apply (inv_registered st Hinv t)|].
    assert (in_range (world st)) as Hrange0
      by (unfold in_range in *; simpl in Hrange; by rewrite <- Hlen).
    specialize (Hnum Hrange0).
    destruct (send_move_Seq t pc st pc' st1 Hmove)
      as [(Hseq & Hst & HSeq)|(-> & Hst & Hseq & HSeq)].
    + apply (numbering_frame st); simpl; try done.
      rewrite Hsend. intros t' pc0. destruct (decide (t' = t)) as [->|Hne].
      * rewrite list_lookup_insert_eq by (by eapply lookup_lt_Some).
        intros [= <-] H0. exists pc. split; [done|]. by apply Hst.
      * rewrite list_lookup_insert_ne by done. intros Ht' H0. by exists pc0.
    + destruct Hnum as [Hr Hd Ha Hu].
      destruct (inv_numbers st Hinv Hrange0) as (Hs & _ & _).
      pose proof (numbered_insert (senders st) t SLocked pc' Hpc) as Hn.
      pose proof (numbered_bound (<[t := pc']> (senders st))) as Hb.
      rewrite length_insert, (inv_threads st Hinv) in Hb.
      rewrite Hst in Hn. simpl in Hn. unfold in_range in Hrange0.
      assert (is_Some (calls (world st) !! t)) as [c Hc].
      { apply lookup_lt_is_Some. rewrite <- (inv_threads st Hinv).
        by eapply lookup_lt_Some. }
      assert (seq (client (world st1)) = (seq (client (world st)) + 1)%Z)
        as Hseq' by (rewrite Hseq; apply wrap64_small; lia).
      assert (∀ q s, Seq_of (world st1) q = Some s →
                (q = t ∧ s = seq (client (world st))) ∨
                (q ≠ t ∧ Seq_of (world st) q = Some s)) as Hcase.
      { intros q s. rewrite HSeq. case_decide as Hq.
        - subst. rewrite Hc. simpl. intros [= <-]. by left.
        - intros. by right. }
      split; simpl.
      * intros t' s [[-> ->]|[_ Hold]]%Hcase; [lia|].
        apply Hr in Hold. lia.
      * intros t1 t2 s [[-> ->]|[? H1]]%Hcase [[-> Heq]|[? H2]]%Hcase Hne;
          try done.
        -- apply Hr in H2. lia.
        -- apply Hr in H1. lia.
        -- by apply (Hd t1 t2 s).
      * intros s Hs'. destruct (decide (s = seq (client (world st)))) as [->|].
        -- exists t. rewrite HSeq, decide_True by done. by rewrite Hc.
        -- destruct (Ha s) as [t' Ht']; [lia|]. exists t'.
           rewrite HSeq. case_decide as Heq; [|done]. subst.
           pose proof (Hu t SLocked s Hpc eq_refl Ht'). lia.
      * rewrite Hsend. intros t' pc0 s.
        destruct (decide (t' = t)) as [->|Hne].
        -- rewrite list_lookup_insert_eq by (by eapply lookup_lt_Some).
           intros [= <-]. rewrite Hst. done.
        -- rewrite list_lookup_insert_ne by done. intros Ht' H0.
           rewrite HSeq, decide_False by done. by apply (Hu t' pc0).
  - (* receive *)
    destruct (receive_move_local st st' Hstep (inv_shutdown st Hinv))
      as (Hsend & Hlen & _).
    assert (in_range (world st)) as Hrange0
      by (unfold in_range in *; by rewrite <- Hlen).
    destruct (receive_move_numbers st st' Hstep) as [Hseq _].
    apply (numbering_frame st); [done|by apply receive_move_Seq| |by apply Hnum].
    rewrite Hsend. eauto.
  - (* Close *)
    destruct (mu_held st); [done|]. injection Hstep as <-.
    assert (calls (Close (world st)).1 = calls (world st) ∧
            seq (client (Close (world st)).1) = seq (client (world st)))
      as [Hcalls Hseq].
    { unfold Close. destruct (closing (client (world st))); [done|].
      simpl. by destruct (codec.Close _). }
    apply (numbering_frame st); simpl; [done| |eauto|].
    + intros q. by apply Seq_of_eq.
    + apply Hnum. unfold in_range in *. simpl in Hrange. by rewrite <- Hcalls.
  - (* take *)
    destruct (chans (world st) !! d) as [ch|]; [|done]. simpl in Hstep.
    destruct (chan_recv ch) as [[q ch']|]; [|done]. injection Hstep as <-.
    by apply (numbering_frame st); [..|eauto|apply Hnum].
Qed.

Lemma numbering_exec es : ∀ st st',
  invariant st → (in_range (world st) → numbering st) →
  exec es st = Some st' → in_range (world st') → numbering st'.
Proof.
  induction es as [|e es IH]; intros st st' Hinv Hnum Hexec; simpl in Hexec.
  - by injection Hexec as <-.
  - destruct (step e st) as [st1|] eqn:Hstep; [|done].
    apply (IH st1); [by eapply invariant_step| |done].
    by apply (numbering_step e st).
Qed.

(** In every state a new client reaches while fewer than 2^64 - 1 calls
    have been made, the registered calls carry the numbers from 1 to the
    counter minus one, each number on exactly one call; the calls that
    have not been registered carry 0. *)
Lemma reachable_numbering (c : C) es st :
  exec es (init c) = Some st → in_range (world st) → numbering st.
Proof.
  intros Hexec. apply (numbering_exec es (init c)); [| |done].
  - apply invariant_init.
  - intros _. apply numbering_init.
Qed.

End reachable_numbers.

(** ** Setting a connection up *)

Section setup_facts.
Context {Net Conn C : Type} `{!codec.Codec C} `{!Transport Net Conn C}.
Variable DefaultOption : nat.
Implicit Types (h : list server.Option) (opts : list (option nat)).

Lemma parseOptions_one h o d opt :
  h !! DefaultOption = Some d → h !! o = Some opt →
  parseOptions DefaultOption [Some o] h =
  Ret (<[o := parsed d opt]> h, (Some o, None)).
Proof.
  intros Hd Ho. unfold parseOptions. simpl.
  rewrite Hd, Ho.
  rewrite list_lookup_alter_eq, Ho. simpl.
  assert (∃ d', alter (server.set_RpcNumber (server.RpcNumber d)) o h
                  !! DefaultOption = Some d' ∧
                server.CodecType d' = server.CodecType d) as (d' & -> & Hd').
  { destruct (decide (o = DefaultOption)) as [->|Hne].
    - rewrite list_lookup_alter_eq, Ho. eexists. split; [done|].
      rewrite Hd in Ho. by injection Ho as ->.
    - rewrite list_lookup_alter_ne by done. by exists d. }
  f_equal. f_equal.
  apply list_eq. intros i.
  destruct (decide (i = o)) as [->|Hne].
  - rewrite list_lookup_insert_eq by (by eapply lookup_lt_Some).
    unfold parsed. simpl. case_decide as Hct.
    + rewrite list_lookup_alter_eq, list_lookup_alter_eq, Ho. simpl.
      by rewrite Hd'.
    + by rewrite list_lookup_alter_eq, Ho.
  - rewrite list_lookup_insert_ne by done.
    case_decide; by rewrite ?list_lookup_alter_ne.
Qed.

(** X1. [parseOptions] fails exactly when it is given two options or more
    and the first of them is not nil; it then changes nothing.  A nil
    first option hides whatever follows it: the default comes back and
    the other options are not looked at. *)
Theorem parseOptions_error opts h :
  is_Some (h !! DefaultOption) →
  (∀ o, head opts = Some (Some o) → is_Some (h !! o)) →
  ∃ h' p e, parseOptions DefaultOption opts h = Ret (h', (p, e)) ∧
    (is_Some e ↔ ∃ o x rest, opts = Some o :: x :: rest) ∧
    (is_Some e →
       h' = h ∧ p = None ∧ e = Some (errors_New "options are more than 1")) ∧
    (e = None → is_Some p) ∧
    (head opts = Some None → h' = h ∧ p = Some DefaultOption ∧ e = None).
Proof.
  intros [d Hd] Hvalid.
  assert (∀ h' p, is_Some p →
    (head opts = Some None → h' = h ∧ p = Some DefaultOption) →
    (¬ ∃ o x rest, opts = Some o :: x :: rest) →
    parseOptions DefaultOption opts h = Ret (h', (p, None)) →
    ∃ h' p e, parseOptions DefaultOption opts h = Ret (h', (p, e)) ∧
      (is_Some e ↔ ∃ o x rest, opts = Some o :: x :: rest) ∧
      (is_Some e →
         h' = h ∧ p = None ∧
         e = Some (errors_New "options are more than 1")) ∧
      (e = None → is_Some p) ∧
      (head opts = Some None → h' = h ∧ p = Some DefaultOption ∧ e = None))
    as Hok.
  { intros h' p Hp Hnil Hshape Hrun. exists h', p, None.
    split; [done|]. split; [|split; [|split]].
    - split; [by intros [? [=]]|done].
    - by intros [? [=]].
    - done.
    - intros Hhead. by destruct (Hnil Hhead). }
  destruct opts as [|[o|] [|x rest]].
  - apply (Hok h (Some DefaultOption)); try done.
    by intros (? & ? & ? & [=]).
  - destruct (Hvalid o eq_refl) as [opt Ho].
    apply (Hok (<[o := parsed d opt]> h) (Some o)); try done.
    + by intros (? & ? & ? & [=]).
    + by apply parseOptions_one.
  - unfold parseOptions. rewrite decide_True by (simpl; lia).
    eexists _, _, _. split; [done|]. split; [|split; [|split]]; try done.
    split; [|done]. intros _. by exists o, x, rest.
  - apply (Hok h (Some DefaultOption)); try done.
    by intros (? & ? & ? & [=]).
  - apply (Hok h (Some DefaultOption)); try done.
    by intros (? & ? & ? & [=]).
Qed.

(** The option [parseOptions] returns when it succeeds. *)
Lemma parseOptions_normal opts h h' p d :
  h !! DefaultOption = Some d →
  parseOptions DefaultOption opts h = Ret (h', (Some p, None)) →
  ∃ opt', h' !! p = Some opt' ∧
    server.RpcNumber opt' = server.RpcNumber d ∧
    (server.CodecType d ≠ "" → server.CodecType opt' ≠ "") ∧
    (∀ opt, h !! p = Some opt → server.CodecType opt ≠ "" →
       server.CodecType opt' = server.CodecType opt) ∧
    (∀ opt, h !! p = Some opt → server.CodecType opt = "" →
       server.CodecType opt' = server.CodecType d) ∧
    (∀ i, i ≠ p → h' !! i = h !! i) ∧
    length h' = length h ∧
    parseOptions DefaultOption [Some p] h' = Ret (h', (Some p, None)).
Proof.
  intros Hd Hparse.
  assert (parseOptions DefaultOption [Some DefaultOption] h
          = Ret (h, (Some DefaultOption, None))) as Hdefault.
  { rewrite (parseOptions_one h DefaultOption d d Hd Hd).
    do 2 f_equal. apply list_insert_id. rewrite Hd. f_equal.
    unfold parsed. destruct d as [n t]. simpl. by case_decide. }
  assert ((h' = h ∧ p = DefaultOption) ∨
          ∃ opt, h !! p = Some opt ∧ h' = <[p := parsed d opt]> h)
    as [[-> ->]|(opt & Ho & ->)].
  { destruct opts as [|[o|] [|x rest]].
    - injection Hparse as <- <-. by left.
    - right. destruct (h !! o) as [opt|] eqn:Ho.
      + rewrite (parseOptions_one h o d opt Hd Ho) in Hparse.
        injection Hparse as <- <-. by exists opt.
      + unfold parseOptions in Hparse. simpl in Hparse.
        by rewrite Hd, Ho in Hparse.
    - by vm_compute in Hparse.
    - injection Hparse as <- <-. by left.
    - injection Hparse as <- <-. by left. }
  - exists d. split; [done|]. split; [done|]. split; [done|].
    split; [intros opt; rewrite Hd; by intros [= <-]|].
    split; [done|].
    split; [done|]. split; [done|]. exact Hdefault.
  - assert (p < length h) as Hp by (by eapply lookup_lt_Some).
    exists (parsed d opt).
    split; [by apply list_lookup_insert_eq|]. split; [done|].
    split; [unfold parsed; simpl; by case_decide|].
    split.
    { intros opt0. rewrite Ho. intros [= <-] Hne. unfold parsed. simpl.
      by rewrite decide_False. }
    split.
    { intros opt0. rewrite Ho. intros [= <-] Hempty. unfold parsed. simpl.
      by rewrite decide_True. }
    split; [intros i Hi; by apply list_lookup_insert_ne|].
    split; [by rewrite length_insert|].
    assert (∃ d', <[p := parsed d opt]> h !! DefaultOption = Some d' ∧
                  parsed d' (parsed d opt) = parsed d opt)
      as (d' & Hd' & Hfix).
    { destruct (decide (p = DefaultOption)) as [->|Hne].
      - rewrite list_lookup_insert_eq by done. eexists. split; [done|].
        unfold parsed. simpl. by repeat case_decide.
      - rewrite list_lookup_insert_ne by done. exists d. split; [done|].
        unfold parsed. simpl. by repeat case_decide. }
    rewrite (parseOptions_one _ p d' (parsed d opt) Hd')
      by (by apply list_lookup_insert_eq).
    by rewrite list_insert_insert_eq, Hfix.
Qed.

(** X2. When [parseOptions] succeeds, the option it returns has the protocol
    number of the default, whatever the caller had put there, and the
    caller's codec name, or the default's when the caller had left it
    empty; no other option has changed.  Parsing the returned option
    again changes nothing more. *)
Theorem parseOptions_normalizes opts h h' p d :
  h !! DefaultOption = Some d →
  parseOptions DefaultOption opts h = Ret (h', (Some p, None)) →
  ∃ opt', h' !! p = Some opt' ∧
    server.RpcNumber opt' = server.RpcNumber d ∧
    (server.CodecType d ≠ "" → server.CodecType opt' ≠ "") ∧
    (∀ opt, h !! p = Some opt → server.CodecType opt ≠ "" →
       server.CodecType opt' = server.CodecType opt) ∧
    (∀ opt, h !! p = Some opt → server.CodecType opt = "" →
       server.CodecType opt' = server.CodecType d) ∧
    (∀ i, i ≠ p → h' !! i = h !! i) ∧
    length h' = length h ∧
    parseOptions DefaultOption [Some p] h' = Ret (h', (Some p, None)).
Proof. apply parseOptions_normal. Qed.

(** The two ways [parseOptions] ends on a heap that holds the default and
    the caller's first option. *)
Lemma parseOptions_cases opts h :
  is_Some (h !! DefaultOption) →
  (∀ o, head opts = Some (Some o) → is_Some (h !! o)) →
  (∃ o x rest, opts = Some o :: x :: rest ∧
     parseOptions DefaultOption opts h
     = Ret (h, (None, Some (errors_New "options are more than 1"))))
  ∨ (∃ h' p opt', parseOptions DefaultOption opts h = Ret (h', (Some p, None)) ∧
       h' !! p = Some opt').
Proof.
  intros [d Hd] Hvalid.
  destruct opts as [|[o|] [|x rest]].
  - right. by exists h, DefaultOption, d.
  - right. destruct (Hvalid o eq_refl) as [opt Ho].
    exists (<[o := parsed d opt]> h), o, (parsed d opt).
    split; [by apply parseOptions_one|].
    apply list_lookup_insert_eq. by eapply lookup_lt_Some.
  - left. exists o, x, rest. split; [done|].
    unfold parseOptions. by rewrite decide_True by (simpl; lia).
  - right. by exists h, DefaultOption, d.
  - right. by exists h, DefaultOption, d.
Qed.

(** [Dial] after the options have been parsed into [opt'] at [p]. *)
Lemma Dial_parsed network address opts n h h' p opt' :
  parseOptions DefaultOption opts h = Ret (h', (Some p, None)) →
  h' !! p = Some opt' →
  Dial DefaultOption network address opts n h =
  let '(n1, dialed) := net_Dial network address n in
  let answer conn client err :=
    Ret {| dialed_net := n1; dialed_options := h'; dialed_conn := conn;
           dialed_client := client; dialed_err := err |} in
  match dialed with
  | inr e => answer None None (Some e)
  | inl conn =>
      match NewCodecFuncMap (server.CodecType opt') with
      | None =>
          answer (Some (conn_Close conn).1) None
            (Some (invalid_codec_type (server.CodecType opt')))
      | Some f =>
          match json_Encode conn opt' with
          | (conn1, Some e) =>
              answer (Some (conn_Close (conn_Close conn1).1).1) None (Some e)
          | (conn1, None) =>
              answer (Some conn1) (Some (newClientCodec (f conn1))) None
          end
      end
  end.
Proof.
  intros Hparse Hp. unfold Dial. rewrite Hparse. simpl.
  destruct (net_Dial network address n) as [n1 [conn|e]]; [|done].
  unfold NewClient. simpl. rewrite Hp. simpl.
  destruct (NewCodecFuncMap (server.CodecType opt')) as [f|]; [|done].
  destruct (json_Encode conn opt') as [conn1 [e|]]; [|done].
  simpl. by destruct (conn_Close conn1).
Qed.

(** X3. [Dial] returns a client exactly when it returns no error, and what it
    returns never lacks both. *)
Theorem Dial_client_or_error network address opts n h :
  is_Some (h !! DefaultOption) →
  (∀ o, head opts = Some (Some o) → is_Some (h !! o)) →
  ∃ r, Dial DefaultOption network address opts n h = Ret r ∧
    (is_Some (dialed_client r) ↔ dialed_err r = None) ∧
    (is_Some (dialed_client r) → is_Some (dialed_conn r)).
Proof.
  intros Hd Hvalid.
  destruct (parseOptions_cases opts h Hd Hvalid)
    as [(o & x & rest & -> & Hparse)|(h' & p & opt' & Hparse & Hp)].
  - eexists. split; [done|]. simpl.
    split; [|by intros [? [=]]]. split; [by intros [? [=]]|done].
  - rewrite (Dial_parsed _ _ _ _ _ _ _ _ Hparse Hp).
    destruct (net_Dial network address n) as [n1 [conn|e]].
    + destruct (NewCodecFuncMap _) as [f|].
      * destruct (json_Encode conn opt') as [conn1 [e|]];
          eexists; (split; [done|]); simpl;
          (split; [split; [try by intros [? [=]]|try done]|try done]);
          by intros [? [=]].
      * eexists. split; [done|]. simpl.
        split; [|by intros [? [=]]]. split; [by intros [? [=]]|done].
    + eexists. split; [done|]. simpl.
      split; [|by intros [? [=]]]. split; [by intros [? [=]]|done].
Qed.

(** X4. How [Dial] fails.  With options that do not parse it has not
    dialled: the network is as it was.  When [net.Dial] fails there is no
    connection.  When the connection is made and the codec of the options
    is not known, nothing is written and the connection is closed once,
    by the deferred function.  When the options cannot be written, the
    connection is closed twice: by [NewClient], and again by the deferred
    function. *)
Theorem Dial_failure network address opts n h :
  is_Some (h !! DefaultOption) →
  (∀ o, head opts = Some (Some o) → is_Some (h !! o)) →
  ∃ r, Dial DefaultOption network address opts n h = Ret r ∧
    (is_Some (dialed_err r) →
     dialed_client r = None ∧
     ((∃ o x rest, opts = Some o :: x :: rest) ∧
      dialed_net r = n ∧ dialed_conn r = None ∧ dialed_options r = h ∧
      dialed_err r = Some (errors_New "options are more than 1")
      ∨
      ∃ p opt',
        parseOptions DefaultOption opts h
        = Ret (dialed_options r, (Some p, None)) ∧
        dialed_options r !! p = Some opt' ∧
        dialed_net r = (net_Dial network address n).1 ∧
        match (net_Dial network address n).2 with
        | inr e => dialed_conn r = None ∧ dialed_err r = Some e
        | inl conn =>
            match NewCodecFuncMap (server.CodecType opt') with
            | None =>
                dialed_conn r = Some (conn_Close conn).1 ∧
                dialed_err r
                = Some (invalid_codec_type (server.CodecType opt'))
            | Some _ =>
                dialed_conn r
                = Some (conn_Close
                          (conn_Close (json_Encode conn opt').1).1).1 ∧
                dialed_err r = (json_Encode conn opt').2
            end
        end)).
Proof.
  intros Hd Hvalid.
  destruct (parseOptions_cases opts h Hd Hvalid)
    as [(o & x & rest & -> & Hparse)|(h' & p & opt' & Hparse & Hp)].
  - eexists. split; [done|]. intros _. split; [done|]. left.
    split; [by exists o, x, rest|done].
  - rewrite (Dial_parsed _ _ _ _ _ _ _ _ Hparse Hp).
    destruct (net_Dial network address n) as [n1 [conn|e]] eqn:HDial.
    + destruct (NewCodecFuncMap (server.CodecType opt')) as [f|] eqn:Hf.
      * destruct (json_Encode conn opt') as [conn1 [e|]] eqn:Henc.
        -- eexists. split; [done|]. intros _. split; [done|]. right.
           exists p, opt'. simpl. by rewrite Hf, Henc.
        -- eexists. split; [done|]. simpl. by intros [? [=]].
      * eexists. split; [done|]. intros _. split; [done|]. right.
        exists p, opt'. simpl. by rewrite Hf.
    + eexists. split; [done|]. intros _. split; [done|]. right.
      by exists p, opt'.
Qed.

(** X5. When [Dial] succeeds, the client is a new one (counter 1, nothing
    pending, available) on the codec that the name in the options
    selects, built on the connection; the connection has not been closed,
    and the options written to it are the parsed ones: they carry the
    protocol number of the default, whatever the caller had asked for. *)
Theorem Dial_success network address opts n h r cl :
  is_Some (h !! DefaultOption) →
  (∀ o, head opts = Some (Some o) → is_Some (h !! o)) →
  Dial DefaultOption network address opts n h = Ret r →
  dialed_client r = Some cl →
  ∃ conn p opt' f d,
    (net_Dial network address n).2 = inl conn ∧
    dialed_net r = (net_Dial network address n).1 ∧
    parseOptions DefaultOption opts h
    = Ret (dialed_options r, (Some p, None)) ∧
    dialed_options r !! p = Some opt' ∧
    h !! DefaultOption = Some d ∧
    server.RpcNumber opt' = server.RpcNumber d ∧
    NewCodecFuncMap (server.CodecType opt') = Some f ∧
    json_Encode conn opt' = ((json_Encode conn opt').1, None) ∧
    dialed_conn r = Some (json_Encode conn opt').1 ∧
    cl = newClientCodec (f (json_Encode conn opt').1) ∧
    seq cl = 1%Z ∧ pending cl = ∅ ∧
    closing cl = false ∧ shutdown cl = false ∧
    dialed_err r = None.
Proof.
  intros Hd Hvalid HDial Hcl.
  destruct (parseOptions_cases opts h Hd Hvalid)
    as [(o & x & rest & -> & Hparse)|(h' & p & opt' & Hparse & Hp)].
  - injection HDial as <-. done.
  - rewrite (Dial_parsed _ _ _ _ _ _ _ _ Hparse Hp) in HDial.
    destruct Hd as [d Hd].
    destruct (parseOptions_normal opts h h' p d Hd Hparse)
      as (opt0 & Hp0 & Hnum & _).
    rewrite Hp in Hp0. injection Hp0 as <-.
    destruct (net_Dial network address n) as [n1 [conn|e]] eqn:Hnet;
      [|by injection HDial as <-].
    destruct (NewCodecFuncMap (server.CodecType opt')) as [f|] eqn:Hf;
      [|by injection HDial as <-].
    destruct (json_Encode conn opt') as [conn1 [e|]] eqn:Henc;
      injection HDial as <-; [done|].
    simpl in Hcl. injection Hcl as <-.
    exists conn, p, opt', f, d. rewrite Henc. by repeat split.
Qed.

End setup_facts.

(** ** More on the registry and the receiver *)

Section more_registry.
Context {C : Type} `{!codec.Codec C}.
Implicit Types (w : World C) (p q : nat).

Lemma terminate_range_client err l : ∀ w w',
  terminate_range err l w = Ret w' → client w' = client w.
Proof.
  induction l as [|p l IH]; intros w w' Hrun; simpl in Hrun.
  - by injection Hrun as <-.
  - destruct (Call_done p (store_Error p err w)) as [w1| |] eqn:Hd;
      try done.
    simpl in Hrun. rewrite (IH _ _ Hrun).
    by destruct (Call_done_Ret _ _ _ Hd) as (c & ch & _ & _ & _ & ->).
Qed.

(** X6. [IsAvailable] tells whether a registration would succeed: it is true
    exactly when [registerCall] returns no error.  It is false after
    [Close], whatever the codec answers, and after [terminateCalls]. *)
Theorem IsAvailable_registerCall w p :
  (IsAvailable w = true ↔ (registerCall p w).2.2 = None) ∧
  IsAvailable (Close w).1 = false ∧
  (∀ err w', terminateCalls err w = Ret w' → IsAvailable w' = false).
Proof.
  split; [|split].
  - unfold IsAvailable, registerCall.
    destruct (closing (client w)), (shutdown (client w)); simpl;
      split; done.
  - unfold IsAvailable, Close.
    destruct (closing (client w)) eqn:Hc.
    + simpl. rewrite Hc. apply andb_false_r.
    + simpl. destruct (codec.Close _). simpl. apply andb_false_r.
  - intros err w' Hterm. unfold terminateCalls in Hterm.
    apply terminate_range_client in Hterm. unfold IsAvailable.
    by rewrite Hterm.
Qed.

(** X7. [removeCall] gives the call found under the number and takes exactly
    that entry out; a second [removeCall] of the same number finds
    nothing and changes nothing.  Nothing but the table is touched. *)
Theorem removeCall_twice w s :
  let '(w1, call) := removeCall s w in
  call = pending (client w) !! s ∧
  pending (client w1) !! s = None ∧
  (∀ k, k ≠ s → pending (client w1) !! k = pending (client w) !! k) ∧
  removeCall s w1 = (w1, None) ∧
  calls w1 = calls w ∧ chans w1 = chans w ∧
  seq (client w1) = seq (client w) ∧ cc (client w1) = cc (client w) ∧
  closing (client w1) = closing (client w) ∧
  shutdown (client w1) = shutdown (client w).
Proof.
  unfold removeCall. simpl.
  split; [done|]. split; [apply lookup_delete_eq|].
  split; [intros k Hk; by apply lookup_delete_ne|].
  split; [|done].
  rewrite lookup_delete_eq. f_equal.
  unfold with_client. simpl. f_equal. unfold set_pending. simpl.
  f_equal. apply delete_id, lookup_delete_eq.
Qed.

(** X8. A call that is registered and removed again: [removeCall] under the
    number [registerCall] returned gives the same call back, and the
    table is as before the registration when the number was free.  The
    number itself is used up: the counter stays advanced. *)
Theorem register_then_remove w p :
  closing (client w) = false → shutdown (client w) = false →
  let '(w1, (s, err)) := registerCall p w in
  let '(w2, call) := removeCall s w1 in
  err = None ∧ call = Some p ∧
  pending (client w2) = delete s (pending (client w)) ∧
  (pending (client w) !! s = None → pending (client w2) = pending (client w)) ∧
  seq (client w2) = wrap64 (seq (client w) + 1).
Proof.
  intros Hc Hs. unfold registerCall. rewrite Hc, Hs. simpl.
  split; [done|]. split; [by rewrite lookup_insert_eq|].
  split; [by rewrite delete_insert_eq|].
  split; [|done]. intros Hfree. by rewrite delete_insert_eq, delete_id.
Qed.

End more_registry.

Section more_receiver.
Context {C : Type} `{!codec.Codec C}.
Implicit Types (w : World C) (p q : nat).

(** One pass for a header that matches the pending call [p], up to the
    completion: [target] is what [ReadBody] is given and [e] the error the
    call gets, if any. *)
Lemma receive_pass_match w c1 h p c ch c2 e2 :
  codec.ReadHeader (cc (client w)) = (c1, h, None) →
  pending (client w) !! codec.Seq h = Some p →
  calls w !! p = Some c → chans w !! Done c = Some ch →
  length (chan_buf ch) < chan_cap ch →
  codec.ReadBody c1
    (if decide (codec.Error h ≠ "") then any_nil else Reply c) = (c2, e2) →
  ∃ w1, receive_pass w = Ret (w1, e2) ∧
    cc (client w1) = c2 ∧
    pending (client w1) = delete (codec.Seq h) (pending (client w)) ∧
    seq (client w1) = seq (client w) ∧
    closing (client w1) = closing (client w) ∧
    shutdown (client w1) = shutdown (client w) ∧
    Error_of w1 p =
      (if decide (codec.Error h ≠ "") then Some (fmt_Errorf (codec.Error h))
       else match e2 with
            | Some err =>
                Some (errors_New ("reading body " +:+ Error_text err))
            | None => Error c
            end) ∧
    delivered w1 p = S (delivered w p) ∧
    chans w1 = <[Done c := chan_push p ch]> (chans w) ∧
    ∀ q, q ≠ p →
      Error_of w1 q = Error_of w q ∧ delivered w1 q = delivered w q.
Proof.
  intros Hh Hp Hc Hch Hroom Hb.
  unfold receive_pass. rewrite Hh. unfold removeCall. simpl. rewrite Hp.
  simpl.
  assert (∀ w0 c0,
    calls w0 !! p = Some c0 → Done c0 = Done c → chans w0 = chans w →
    (∀ q, q ≠ p → calls w0 !! q = calls w !! q) →
    ∃ w1, Call_done p w0 = Ret w1 ∧ client w1 = client w0 ∧
      Error_of w1 p = Error c0 ∧
      delivered w1 p = S (delivered w p) ∧
      chans w1 = <[Done c := chan_push p ch]> (chans w) ∧
      ∀ q, q ≠ p →
        Error_of w1 q = Error_of w q ∧ delivered w1 q = delivered w q)
    as Hdone.
  { intros w0 c0 Hc0 HD Hchans Hcalls.
    rewrite (Call_done_room w0 p c0 ch); [|done|by rewrite HD, Hchans|done].
    eexists. split; [done|]. split; [done|].
    assert (∀ q, delivered w0 q = delivered w q) as Hdel0.
    { intros q. unfold delivered. rewrite Hchans.
      destruct (decide (q = p)) as [->|Hq].
      - by rewrite Hc0, Hc, HD.
      - by rewrite Hcalls. }
    assert (∀ q, delivered (with_chans <[Done c0 := chan_push p ch]> w0) q =
                 if decide (q = p) then S (delivered w q) else delivered w q)
      as Hdel.
    { intros q.
      rewrite (delivered_push w0 q p c0 (Done c0) ch);
        [|done|done|by rewrite HD, Hchans].
      by rewrite Hdel0. }
    split; [unfold Error_of; simpl; by rewrite Hc0|].
    split; [by rewrite Hdel, decide_True|].
    split; [simpl; by rewrite HD, Hchans|].
    intros q Hq. rewrite Hdel, decide_False by done. split; [|done].
    unfold Error_of. simpl. by rewrite Hcalls. }
  case_decide as Herr.
  - rewrite Hb. simpl.
    set (e := fmt_Errorf _).
    set (w0 := with_client _ (store_Error p e _)).
    destruct (Hdone w0 (Call_set_Error e c))
      as (w1 & -> & Hcl & He & Hd & Hchans & Hothers); try done.
    { subst w0. simpl. by rewrite list_lookup_alter_eq, Hc. }
    { intros q Hq. subst w0. simpl. by rewrite list_lookup_alter_ne. }
    exists w1. split; [done|]. rewrite Hcl. subst w0. simpl.
    split; [done|]. split; [done|]. split; [done|]. split; [done|].
    split; [done|]. split; [exact He|]. by split.
  - rewrite Hc. simpl. rewrite Hb. simpl.
    destruct e2 as [err|].
    + set (e := errors_New _).
      set (w0 := store_Error p e _).
      destruct (Hdone w0 (Call_set_Error e c))
        as (w1 & -> & Hcl & He & Hd & Hchans & Hothers); try done.
      { subst w0. simpl. by rewrite list_lookup_alter_eq, Hc. }
      { intros q Hq. subst w0. simpl. by rewrite list_lookup_alter_ne. }
      exists w1. split; [done|]. rewrite Hcl. subst w0. simpl.
    split; [done|]. split; [done|]. split; [done|]. split; [done|].
    split; [done|]. split; [exact He|]. by split.
    + set (w0 := with_client _ _).
      destruct (Hdone w0 c)
        as (w1 & -> & Hcl & He & Hd & Hchans & Hothers); try done.
      exists w1. split; [done|]. rewrite Hcl. subst w0. simpl.
    split; [done|]. split; [done|]. split; [done|]. split; [done|].
    split; [done|]. split; [exact He|]. by split.
Qed.

(** X9. An error reported by the server concerns one call only.  The call
    under the header's number gets [fmt.Errorf(header.Error)] and its one
    completion, the body is read with a nil target so that the stream
    stays in step, and no other call is touched.  The connection goes on:
    the loop reads the next header unless reading that body failed. *)
Theorem receive_remote_error w c1 h p c ch c2 e2 n :
  codec.ReadHeader (cc (client w)) = (c1, h, None) →
  pending (client w) !! codec.Seq h = Some p →
  codec.Error h ≠ "" →
  calls w !! p = Some c → chans w !! Done c = Some ch →
  length (chan_buf ch) < chan_cap ch →
  codec.ReadBody c1 any_nil = (c2, e2) →
  ∃ w1, receive_pass w = Ret (w1, e2) ∧
    cc (client w1) = c2 ∧
    pending (client w1) = delete (codec.Seq h) (pending (client w)) ∧
    shutdown (client w1) = shutdown (client w) ∧
    Error_of w1 p = Some (fmt_Errorf (codec.Error h)) ∧
    delivered w1 p = S (delivered w p) ∧
    (∀ q, q ≠ p →
       Error_of w1 q = Error_of w q ∧ delivered w1 q = delivered w q) ∧
    (e2 = None → receive (S n) w = receive n w1).
Proof.
  intros Hh Hp He Hc Hch Hroom Hb.
  destruct (receive_pass_match w c1 h p c ch c2 e2)
    as (w1 & Hpass & Hcc & Hpend & _ & _ & Hsh & Herr & Hdel & _ & Hothers);
    try done.
  { by rewrite decide_True. }
  rewrite decide_True in Herr by done.
  exists w1. repeat (split; [done|]).
  intros ->. by rewrite receive_S, Hpass.
Qed.

(** X10. A good reply.  The body is read into the reply target of the call
    under the header's number; the call keeps the error it had (none, for
    a call made by [Go]), gets its one completion and leaves the table;
    no other call is touched and the loop goes on with the next header. *)
Theorem receive_reply w c1 h p c ch c2 n :
  codec.ReadHeader (cc (client w)) = (c1, h, None) →
  pending (client w) !! codec.Seq h = Some p →
  codec.Error h = "" →
  calls w !! p = Some c → chans w !! Done c = Some ch →
  length (chan_buf ch) < chan_cap ch →
  codec.ReadBody c1 (Reply c) = (c2, None) →
  ∃ w1, receive_pass w = Ret (w1, None) ∧
    receive (S n) w = receive n w1 ∧
    cc (client w1) = c2 ∧
    pending (client w1) = delete (codec.Seq h) (pending (client w)) ∧
    Error_of w1 p = Error c ∧
    delivered w1 p = S (delivered w p) ∧
    (∀ q, q ≠ p →
       Error_of w1 q = Error_of w q ∧ delivered w1 q = delivered w q).
Proof.
  intros Hh Hp He Hc Hch Hroom Hb.
  destruct (receive_pass_match w c1 h p c ch c2 None)
    as (w1 & Hpass & Hcc & Hpend & _ & _ & Hsh & Herr & Hdel & _ & Hothers);
    try done.
  { rewrite decide_False; [done|]. by rewrite He; intros []. }
  rewrite decide_False in Herr by (by rewrite He; intros []).
  exists w1. split; [done|]. split; [by rewrite receive_S, Hpass|].
  by repeat (split; [done|]).
Qed.



End more_receiver.

(** ** More on [Go] and [Call] *)

Section more_facade.
Context {C : Type} `{!codec.Codec C}.
Implicit Types (w : World C) (p q : nat).

Lemma Go_available w s m a r done c' oe :
  closing (client w) = false → shutdown (client w) = false →
  (∀ d, done = Some d → cap w d ≠ 0) →
  let n := seq (client w) in
  let p := length (calls w) in
  codec.Write (cc (client w))
    (request_header (sent_call s m a r n (done_chan w done)) n) a = (c', oe) →
  Go s m a r done w =
  match oe with
  | None =>
      Ret (after_Go w s m a r done c' (<[n := p]> (pending (client w))), p)
  | Some e =>
      w3 ← Call_done p
             (store_Error p e
                (after_Go w s m a r done c'
                   (delete n (<[n := p]> (pending (client w))))));
      Ret (w3, p)
  end.
Proof.
  intros Hc Hs Hcap n p Hw. subst n p. unfold Go.
  assert (∃ w0, (match done with
                 | Some d =>
                     if decide (cap w d = 0)
                     then Panic "rpc client: done channel is unbuffered"
                     else Ret (w, d)
                 | None =>
                     Ret (with_chans (λ l, l ++ [make_chan 10]) w,
                          length (chans w))
                 end) = Ret (w0, done_chan w done) ∧
                client w0 = client w ∧ calls w0 = calls w ∧
                chans w0 = chans_after_Go w done)
    as (w0 & -> & Hcl & Hcalls & Hchans).
  { destruct done as [d|].
    - rewrite decide_False by (by apply Hcap). by exists w.
    - by eexists. }
  destruct w0 as [cl0 ca0 ch0]. simpl in Hcl, Hcalls, Hchans.
  subst cl0 ca0 ch0.
  simpl. unfold send, registerCall. simpl.
  rewrite Hc, Hs. simpl.
  rewrite alter_snoc, lookup_snoc. simpl.
  unfold request_header, sent_call in Hw. simpl in Hw.
  rewrite Hw.
  unfold after_Go, request_header, sent_call. simpl.
  destruct oe as [e|]; simpl.
  - rewrite lookup_insert_eq. unfold removeCall, store_Error. simpl.
    destruct (client w); simpl in *. subst.
    unfold store_Seq, with_calls, with_client. simpl. by rewrite alter_snoc.
  - destruct (client w); simpl in *. subst.
    unfold store_Seq, with_calls, with_client. simpl. by rewrite alter_snoc.
Qed.

(** X13. [Go] on an available client whose codec takes the request.  The call
    gets the current sequence number and enters the table under it, the
    counter moves on by one, the request goes out with that number, and
    [Go] returns with the call not completed: nothing has been sent on
    its channel, which is the caller's own or a new one of capacity 10.
    The client stays available. *)
Theorem Go_sends w s m a r done c' :
  closing (client w) = false → shutdown (client w) = false →
  (∀ d, done = Some d → cap w d ≠ 0) →
  let n := seq (client w) in
  let p := length (calls w) in
  let call := sent_call s m a r n (done_chan w done) in
  codec.Write (cc (client w)) (request_header call n) a = (c', None) →
  ∃ w1,
    Go s m a r done w = Ret (w1, p) ∧
    calls w1 = calls w ++ [call] ∧
    chans w1 = chans_after_Go w done ∧
    pending (client w1) = <[n := p]> (pending (client w)) ∧
    seq (client w1) = wrap64 (n + 1) ∧
    cc (client w1) = c' ∧
    IsAvailable w1 = true.
Proof.
  intros Hc Hs Hcap n p call Hw.
  rewrite (Go_available w s m a r done c' None Hc Hs Hcap Hw).
  by eexists.
Qed.

(** X14. [Call] when the codec refuses the request.  [Call] does not wait for
    the server: it returns the error of the write.  The call has been
    taken out of the table again, so that the receiver will not find it,
    and was completed once, on the channel of capacity 1 that [Call]
    made; its sequence number is used up. *)
Theorem Call_write_failure w s m a r c' e :
  closing (client w) = false → shutdown (client w) = false →
  let n := seq (client w) in
  let call := sent_call s m a r n (length (chans w)) in
  codec.Write (cc (client w)) (request_header call n) a = (c', Some e) →
  ∃ w1,
    Client_Call s m a r w = Ret (w1, Some e) ∧
    pending (client w1) = delete n (pending (client w)) ∧
    seq (client w1) = wrap64 (n + 1) ∧
    cc (client w1) = c' ∧
    calls w1 = calls w ++ [Call_set_Error e call] ∧
    chans w1 = chans w ++ [{| chan_cap := 1; chan_buf := [];
                              chan_sent := [length (calls w)] |}].
Proof.
  intros Hc Hs n call Hw. unfold Client_Call.
  set (w0 := with_chans (λ l, l ++ [make_chan 1]) w).
  assert (Hcap : ∀ d, Some (length (chans w)) = Some d → cap w0 d ≠ 0).
  { intros d [= <-]. unfold cap, w0. simpl. by rewrite lookup_snoc. }
  rewrite (Go_available w0 s m a r (Some (length (chans w))) c' (Some e)
             Hc Hs Hcap Hw).
  unfold Call_done, store_Error, after_Go, with_calls, with_chans. simpl.
  repeat (rewrite ?alter_snoc, ?lookup_snoc, ?insert_snoc; simpl).

  eexists. split; [done|]. simpl.
  by rewrite delete_insert_eq.
Qed.

(** X15. A call and its reply.  After [Go] has sent a request, a pass of the
    receiver over a response that carries the number of that request and
    no error reads the body into the reply of the call, takes the call
    out of the table, leaves its error nil and sends it on its channel,
    where the caller finds it.  The calls made before keep their
    errors. *)
Theorem Go_then_reply w s m a r done c' c1 h c2 :
  closing (client w) = false → shutdown (client w) = false →
  (∀ d, done = Some d →
     ∃ ch, chans w !! d = Some ch ∧ length (chan_buf ch) < chan_cap ch) →
  let n := seq (client w) in
  let p := length (calls w) in
  let call := sent_call s m a r n (done_chan w done) in
  codec.Write (cc (client w)) (request_header call n) a = (c', None) →
  codec.ReadHeader c' = (c1, h, None) →
  codec.Seq h = n → codec.Error h = "" →
  codec.ReadBody c1 r = (c2, None) →
  ∃ w1 w2 ch,
    Go s m a r done w = Ret (w1, p) ∧
    receive_pass w1 = Ret (w2, None) ∧
    pending (client w2) = delete n (pending (client w)) ∧
    Error_of w2 p = None ∧
    chans w1 !! done_chan w done = Some ch ∧
    chans w2 = <[done_chan w done := chan_push p ch]> (chans w1) ∧
    delivered w2 p = S (delivered w1 p) ∧
    (∀ q, q < p → Error_of w2 q = Error_of w q).
Proof.
  intros Hc Hs Hroom n p call Hw Hh Hn He Hb.
  assert (Hcap : ∀ d, done = Some d → cap w d ≠ 0).
  { intros d Hd. destruct (Hroom d Hd) as (ch & Hch & Hlt).
    unfold cap. rewrite Hch. simpl. lia. }
  pose proof (Go_available w s m a r done c' None Hc Hs Hcap Hw) as HGo.
  simpl in HGo. fold n p in HGo.
  set (w1 := after_Go w s m a r done c' (<[n:=p]> (pending (client w))))
    in HGo.
  assert (∃ ch, chans w1 !! done_chan w done = Some ch ∧
                length (chan_buf ch) < chan_cap ch) as (ch & Hch & Hlt).
  { subst w1. simpl. destruct done as [d|]; simpl.
    - by apply Hroom.
    - exists (make_chan 10). rewrite lookup_snoc. split; [done|].
      simpl. lia. }
  assert (Hp : calls w1 !! p = Some call).
  { subst w1 p. simpl. by rewrite lookup_snoc. }
  destruct (receive_pass_match w1 c1 h p call ch c2 None)
    as (w2 & Hpass & _ & Hpend & _ & _ & _ & Herr & Hdel & Hchans & Hothers);
    try done.
  { subst w1. simpl. by rewrite Hn, lookup_insert_eq. }
  { rewrite decide_False; [done|]. by rewrite He; intros []. }
  rewrite decide_False in Herr by (by rewrite He; intros []).
  exists w1, w2, ch. split; [done|]. split; [done|].
  split. { rewrite Hpend, Hn. subst w1. simpl. by rewrite delete_insert_eq. }
  split; [done|]. split; [done|]. split; [done|]. split; [done|].
  intros q Hq.
  assert (Hqp : q ≠ p) by lia.
  assert (Hlook : calls w1 !! q = calls w !! q).
  { subst w1. simpl. by rewrite lookup_app_l. }
  destruct (Hothers q Hqp) as [-> _]. unfold Error_of. by rewrite Hlook.
Qed.

End more_facade.

(** ** More on the states the system reaches *)

Section reachable_flags.
Context {C : Type} `{!codec.Codec C}.
Implicit Types (w : World C) (st : State C) (p q t : nat).

Lemma send_move_shutdown t pc st pc' st1 :
  send_move t pc st = Some (pc', st1) →
  shutdown (client (world st1)) = shutdown (client (world st)).
Proof.
  intros Hmove.
  destruct pc as [| |e|s|s e|[q|] e|q| |]; simpl in Hmove.
  - destruct (sending st); [done|]. by injection Hmove as <- <-.
  - destruct (mu_held st); [done|]. unfold registerCall in Hmove.
    destruct (closing (client (world st)) || shutdown (client (world st)));
      by injection Hmove as <- <-.
  - by injection Hmove as <- <-.
  - destruct (calls (world st) !! t); [|done]. simpl in Hmove.
    destruct (codec.Write _ _ _) as [c' [e|]]; by injection Hmove as <- <-.
  - destruct (mu_held st); [done|]. by injection Hmove as <- <-.
  - by injection Hmove as <- <-.
  - by injection Hmove as <- <-.
  - destruct (Call_done q (world st)) as [w'| |] eqn:Hdone; try done.
    injection Hmove as <- <-. simpl.
    by destruct (Call_done_effect _ _ _ Hdone) as (-> & _).
  - by injection Hmove as <- <-.
  - done.
Qed.

Lemma receive_move_shutdown st st1 :
  receive_move st = Some st1 →
  shutdown (client (world st)) = true →
  shutdown (client (world st1)) = true.
Proof.
  unfold receive_move. intros Hmove Hs.
  destruct (recv st) as [|h| |q h|q|q e2|err|err|err [|q rest]|err q rest|err].
  - destruct (codec.ReadHeader _) as [[c1 h] [e|]];
      by injection Hmove as <-.
  - by injection Hmove as <-.
  - destruct (codec.ReadBody _ _) as [c2 [e|]]; by injection Hmove as <-.
  - simpl in Hmove. destruct (codec.ReadBody _ _) as [c2 e2].
    by injection Hmove as <-.
  - destruct (codec.ReadBody _ _) as [c2 [e|]]; by injection Hmove as <-.
  - destruct (Call_done q (world st)) as [w'| |] eqn:Hdone; try done.
    injection Hmove as <-. simpl.
    by destruct (Call_done_effect _ _ _ Hdone) as (-> & _).
  - destruct (sending st); [done|]. by injection Hmove as <-.
  - by injection Hmove as <-.
  - by injection Hmove as <-.
  - by injection Hmove as <-.
  - destruct (Call_done q (world st)) as [w'| |] eqn:Hdone; try done.
    injection Hmove as <-. simpl.
    by destruct (Call_done_effect _ _ _ Hdone) as (-> & _).
  - done.
Qed.

Lemma Close_shutdown w : shutdown (client (Close w).1) = shutdown (client w).
Proof.
  unfold Close. destruct (closing (client w)); [done|].
  simpl. by destruct (codec.Close _).
Qed.

Lemma step_shutdown e st st' :
  step e st = Some st' →
  shutdown (client (world st)) = true → shutdown (client (world st')) = true.
Proof.
  intros Hstep Hc. destruct e; simpl in Hstep.
  - by injection Hstep as <-.
  - unfold Go_enter in Hstep. destruct done as [d|]; simpl in Hstep.
    + case_decide; [done|]. by injection Hstep as <-.
    + by injection Hstep as <-.
  - destruct (senders st !! t) as [pc|]; [|done]. simpl in Hstep.
    destruct (send_move t pc st) as [[pc' st1]|] eqn:Hmove; [|done].
    injection Hstep as <-. simpl.
    by rewrite (send_move_shutdown _ _ _ _ _ Hmove).
  - by apply (receive_move_shutdown st).
  - destruct (mu_held st); [done|]. injection Hstep as <-. simpl.
    by rewrite Close_shutdown.
  - destruct (chans (world st) !! d) as [ch|]; [|done]. simpl in Hstep.
    destruct (chan_recv ch) as [[q ch']|]; [|done]. by injection Hstep as <-.
Qed.

Lemma exec_shutdown es : ∀ st st',
  exec es st = Some st' →
  shutdown (client (world st)) = true → shutdown (client (world st')) = true.
Proof.
  induction es as [|e es IH]; intros st st' Hexec Hc; simpl in Hexec.
  - by injection Hexec as <-.
  - destruct (step e st) as [st1|] eqn:Hstep; [|done].
    eapply IH; [exact Hexec|]. by eapply step_shutdown.
Qed.

Lemma exec_app es1 es2 st :
  exec (es1 ++ es2) st = st1 ← exec es1 st; exec es2 st1.
Proof.
  revert st. induction es1 as [|e es1 IH]; intros st; simpl; [done|].
  destruct (step e st); simpl; [apply IH|done].
Qed.

(** X16. Nothing re-opens a client.  From any state and along any schedule of
    callers and receiver, a client that is closing stays closing and a
    client that is shut down stays shut down; so a client that has been
    unavailable once is unavailable ever after. *)
Theorem flags_never_cleared es st st' :
  exec es st = Some st' →
  (closing (client (world st)) = true →
   closing (client (world st')) = true) ∧
  (shutdown (client (world st)) = true →
   shutdown (client (world st')) = true) ∧
  (IsAvailable (world st) = false → IsAvailable (world st') = false).
Proof.
  intros Hexec.
  pose proof (exec_closing es st st' Hexec) as Hc.
  pose proof (exec_shutdown es st st' Hexec) as Hs.
  split; [done|]. split; [done|].
  unfold IsAvailable.
  destruct (shutdown (client (world st))); simpl.
  - intros _. by rewrite Hs.
  - destruct (closing (client (world st))); [|done].
    intros _. rewrite Hc by done. apply andb_false_r.
Qed.

(** X17. The two locks at work.  In every state a new client reaches: at most
    one goroutine is inside [send], and it holds [client.sending]; none
    is inside while the receiver runs [terminateCalls]; the client is
    shut down exactly when the receiver has set the flag in
    [terminateCalls], never by anybody else; and a goroutine between its
    registration and the end of its write finds the client not shut
    down. *)
Theorem lock_discipline (c : C) es st :
  exec es (init c) = Some st →
  (∀ t1 t2 pc1 pc2,
     senders st !! t1 = Some pc1 → in_send pc1 = true →
     senders st !! t2 = Some pc2 → in_send pc2 = true → t1 = t2) ∧
  (terminating (recv st) = true →
   ∀ t pc, senders st !! t = Some pc → in_send pc = false) ∧
  shutdown (client (world st)) = shut (recv st) ∧
  (∀ t pc, senders st !! t = Some pc → registered pc = true →
     shutdown (client (world st)) = false).
Proof.
  intros Hexec.
  pose proof (invariant_exec es (init c) st (invariant_init c) Hexec) as Hinv.
  split; [|split; [|split]].
  - intros t1 t2 pc1 pc2 H1 Hin1 H2 Hin2.
    pose proof (inv_lock_sender st Hinv t1 pc1 H1 Hin1) as Hl1.
    pose proof (inv_lock_sender st Hinv t2 pc2 H2 Hin2) as Hl2.
    congruence.
  - intros Hterm t pc Ht. destruct (in_send pc) eqn:Hin; [|done].
    pose proof (inv_lock_sender st Hinv t pc Ht Hin) as Hl1.
    pose proof (inv_lock_receiver st Hinv Hterm) as Hl2.
    congruence.
  - apply (inv_shutdown st Hinv).
  - apply (inv_registered st Hinv).
Qed.

End reachable_flags.

Section reachable_table.
Context {C : Type} `{!codec.Codec C}.
Implicit Types (w : World C) (st : State C) (p q t : nat).

Lemma count_elem_of p (l : list nat) : p ∈ l → 1 ≤ count p l.
Proof.
  induction l as [|x l IH]; intros Hin.
  - by apply elem_of_nil in Hin.
  - rewrite count_cons. apply elem_of_cons in Hin as [->|Hin].
    + rewrite decide_True by done. lia.
    + specialize (IH Hin). lia.
Qed.

Lemma table_numbers_frame w w' :
  (∀ k p, pending (client w') !! k = Some p →
     pending (client w) !! k = Some p) →
  (∀ k p, pending (client w) !! k = Some p → Seq_of w' p = Seq_of w p) →
  table_numbers w → table_numbers w'.
Proof.
  intros Hsub Hseq Htab k p Hk. apply Hsub in Hk as Hk0.
  rewrite (Hseq k p Hk0). by apply Htab.
Qed.

Lemma send_move_table t pc st pc' st1 :
  send_move t pc st = Some (pc', st1) →
  t < length (calls (world st)) →
  (pc = SLocked → shutdown (client (world st)) = false →
   ∀ k, pending (client (world st)) !! k ≠ Some t) →
  table_numbers (world st) → table_numbers (world st1).
Proof.
  intros Hmove Ht Hfree Htab.
  destruct pc as [| |e|s|s e|[q|] e|q| |]; simpl in Hmove.
  - destruct (sending st); [done|]. by injection Hmove as <- <-.
  - destruct (mu_held st); [done|]. unfold registerCall in Hmove.
    destruct (closing (client (world st))) eqn:Hc; simpl in Hmove;
      [by injection Hmove as <- <-|].
    destruct (shutdown (client (world st))) eqn:Hs; simpl in Hmove;
      [by injection Hmove as <- <-|].
    injection Hmove as <- <-. simpl. intros k p. simpl.
    destruct (decide (k = seq (client (world st)))) as [->|Hk].
    + rewrite lookup_insert_eq. intros [= <-].
      fold (store_Seq t (seq (client (world st))) (world st)).
      change (Seq_of (store_Seq t (seq (client (world st))) (world st)) t
              = Some (seq (client (world st)))).
      rewrite Seq_of_store_Seq, decide_True by done.
      destruct (lookup_lt_is_Some_2 _ _ Ht) as [c0 ->]. done.
    + rewrite lookup_insert_ne by done. intros Hp.
      change (Seq_of (store_Seq t (seq (client (world st))) (world st)) p
              = Some k).
      rewrite Seq_of_store_Seq, decide_False; [by apply Htab|].
      intros ->. by apply (Hfree eq_refl eq_refl k).
  - injection Hmove as <- <-. simpl.
    apply (table_numbers_frame (world st)); [done| |done].
    intros k p _. apply Seq_of_store_Error.
  - destruct (calls (world st) !! t); [|done]. simpl in Hmove.
    destruct (codec.Write _ _ _) as [c' [e|]];
      by injection Hmove as <- <-.
  - destruct (mu_held st); [done|]. injection Hmove as <- <-. simpl.
    apply (table_numbers_frame (world st)); [|done|done].
    simpl. intros k p Hk. by apply lookup_delete_Some in Hk as [_ ?].
  - injection Hmove as <- <-. simpl.
    apply (table_numbers_frame (world st)); [done| |done].
    intros k p _. apply Seq_of_store_Error.
  - by injection Hmove as <- <-.
  - destruct (Call_done q (world st)) as [w'| |] eqn:Hdone; try done.
    injection Hmove as <- <-. simpl.
    destruct (Call_done_effect _ _ _ Hdone) as (Hcl & Hcalls & _).
    apply (table_numbers_frame (world st)); [by rewrite Hcl| |done].
    intros k p _. by apply Seq_of_eq.
  - by injection Hmove as <- <-.
  - done.
Qed.

Lemma receive_move_pending st st1 :
  receive_move st = Some st1 →
  ∀ k p, pending (client (world st1)) !! k = Some p →
         pending (client (world st)) !! k = Some p.
Proof.
  unfold receive_move. intros Hmove.
  destruct (recv st) as [|h| |q h|q|q e2|err|err|err [|q rest]|err q rest|err].
  - destruct (codec.ReadHeader _) as [[c1 h] [e|]];
      by injection Hmove as <-.
  - injection Hmove as <-. simpl. intros k p Hk.
    by apply lookup_delete_Some in Hk as [_ ?].
  - destruct (codec.ReadBody _ _) as [c2 [e|]]; by injection Hmove as <-.
  - simpl in Hmove. destruct (codec.ReadBody _ _) as [c2 e2].
    by injection Hmove as <-.
  - destruct (codec.ReadBody _ _) as [c2 [e|]]; by injection Hmove as <-.
  - destruct (Call_done q (world st)) as [w'| |] eqn:Hdone; try done.
    injection Hmove as <-. simpl.
    by destruct (Call_done_effect _ _ _ Hdone) as (-> & _).
  - destruct (sending st); [done|]. by injection Hmove as <-.
  - by injection Hmove as <-.
  - by injection Hmove as <-.
  - by injection Hmove as <-.
  - destruct (Call_done q (world st)) as [w'| |] eqn:Hdone; try done.
    injection Hmove as <-. simpl.
    by destruct (Call_done_effect _ _ _ Hdone) as (-> & _).
  - done.
Qed.

Lemma table_numbers_step e st st' :
  invariant st → table_numbers (world st) →
  step e st = Some st' → table_numbers (world st').
Proof.
  intros Hinv Htab Hstep. destruct e; simpl in Hstep.
  - by injection Hstep as <-.
  - unfold Go_enter in Hstep.
    assert (∀ w0 call, client w0 = client (world st) →
              calls w0 = calls (world st) →
              table_numbers (with_calls (λ l, l ++ [call]) w0)) as Happ.
    { intros w0 call Hcl Hcalls k p. simpl. rewrite Hcl. intros Hk.
      specialize (Htab k p Hk). unfold Seq_of in *. simpl. rewrite Hcalls.
      destruct (calls (world st) !! p) as [c0|] eqn:Hp; [|done].
      by rewrite (lookup_app_l_Some _ _ _ _ Hp). }
    destruct done as [d|]; simpl in Hstep.
    + case_decide; [done|]. injection Hstep as <-. simpl. by apply Happ.
    + injection Hstep as <-. simpl. by apply Happ.
  - destruct (senders st !! t) as [pc|] eqn:Ht; [|done]. simpl in Hstep.
    destruct (send_move t pc st) as [[pc' st1]|] eqn:Hmove; [|done].
    injection Hstep as <-. simpl.
    apply (send_move_table t pc st pc' st1 Hmove); [| |done].
    + rewrite <- (inv_threads st Hinv). by eapply lookup_lt_Some.
    + intros -> Hs k Hk.
      pose proof (inv_owed st Hinv t) as Ho.
      pose proof (senders_owe_ge _ _ _ t Ht) as Hge. simpl in Hge.
      rewrite decide_True in Hge by done.
      assert (1 ≤ count t (pending_calls (world st))) as Hcount.
      { apply count_elem_of, elem_of_pending_calls. by exists k. }
      unfold owed, pending_owes, exists_call in Ho. rewrite Hs in Ho.
      case_decide; lia.
  - apply (table_numbers_frame (world st)); [| |done].
    + by apply receive_move_pending.
    + intros k p _. by apply receive_move_Seq.
  - destruct (mu_held st); [done|]. injection Hstep as <-. simpl.
    unfold Close. destruct (closing (client (world st))); [done|].
    simpl. by destruct (codec.Close _).
  - destruct (chans (world st) !! d) as [ch|]; [|done]. simpl in Hstep.
    destruct (chan_recv ch) as [[q ch']|]; [|done]. by injection Hstep as <-.
Qed.

Lemma table_numbers_exec es : ∀ st st',
  invariant st → table_numbers (world st) →
  exec es st = Some st' → table_numbers (world st').
Proof.
  induction es as [|e es IH]; intros st st' Hinv Htab Hexec; simpl in Hexec.
  - by injection Hexec as <-.
  - destruct (step e st) as [st1|] eqn:Hstep; [|done].
    apply (IH st1); [by eapply invariant_step| |done].
    by apply (table_numbers_step e st).
Qed.

(** X18. The pending table is sound in every state a new client reaches.  A
    number of the table leads to a call that exists and carries that
    number in its [Seq] field, so that a response is matched with the
    request it answers.  Until the client is shut down, no call sits in
    the table twice and no call of the table has been completed. *)
Theorem pending_table_sound (c : C) es st :
  exec es (init c) = Some st →
  (∀ k p, pending (client (world st)) !! k = Some p →
     Seq_of (world st) p = Some k ∧ p < length (calls (world st))) ∧
  (shutdown (client (world st)) = false →
   NoDup (pending_calls (world st)) ∧
   ∀ k p, pending (client (world st)) !! k = Some p →
     delivered (world st) p = 0).
Proof.
  intros Hexec.
  pose proof (invariant_exec es (init c) st (invariant_init c) Hexec) as Hinv.
  assert (table_numbers (world st)) as Htab.
  { apply (table_numbers_exec es (init c)); [apply invariant_init| |done].
    intros k p Hk. simpl in Hk. by rewrite lookup_empty in Hk. }
  split.
  - intros k p Hk. split; [by apply Htab|].
    specialize (Htab k p Hk). unfold Seq_of in Htab.
    destruct (calls (world st) !! p) eqn:Hp; [|done].
    by eapply lookup_lt_Some.
  - intros Hs. split; [by apply (reachable_pending_NoDup c es)|].
    intros k p Hk.
    pose proof (inv_owed st Hinv p) as Ho.
    assert (1 ≤ count p (pending_calls (world st))) as Hcount.
    { apply count_elem_of, elem_of_pending_calls. by exists k. }
    unfold owed, pending_owes, exists_call in Ho. rewrite Hs in Ho.
    case_decide; lia.
Qed.

(** X19. The numbers under concurrency.  In every state a new client
    reaches, whatever the schedule of callers and receiver, and as long
    as fewer than 2^64 - 1 calls have been made: every call carries a
    number below the counter; two calls never carry the same number
    other than 0; every number from 1 up to the counter is the number of
    some call; and a call whose goroutine has not yet been through
    [registerCall] carries 0. *)
Theorem numbers_in_reachable_states (c : C) es st :
  exec es (init c) = Some st → in_range (world st) →
  (∀ t s, Seq_of (world st) t = Some s →
     (0 ≤ s < seq (client (world st)))%Z) ∧
  (∀ t1 t2 s, Seq_of (world st) t1 = Some s →
     Seq_of (world st) t2 = Some s → s ≠ 0%Z → t1 = t2) ∧
  (∀ s, (1 ≤ s < seq (client (world st)))%Z →
     ∃ t, Seq_of (world st) t = Some s) ∧
  (∀ t pc s, senders st !! t = Some pc → started pc = 0 →
     Seq_of (world st) t = Some s → s = 0%Z).
Proof.
  intros Hexec Hrange.
  by destruct (reachable_numbering c es st Hexec Hrange) as [? ? ? ?].
Qed.

End reachable_table.


(** ** Examples on the scripted codec *)

Example closed_world_flags :
  closing (client closed_world) = true ∧
  shutdown (client closed_world) = false ∧
  fake.closed (cc (client closed_world)) = 1.
Proof. done. Qed.

Example shut_world_flags :
  receive 1 (new_world fake.idle) = Ret (shut_world, Terminated fake.EOF) ∧
  closing (client shut_world) = false ∧
  shutdown (client shut_world) = true.
Proof. done. Qed.

(** Closing twice: the codec is closed once. *)
Lemma Close_then_unavailable_witness :
  ∃ w1, Close (new_world fake.idle) = (w1, None) ∧
    fake.closed (cc (client w1)) = 1 ∧
    Close w1 = (w1, Some ErrShutdown) ∧
    ∃ w3, Client_Call "Arith" "Add" (any_val 2) (any_val 0) w1
          = Ret (w3, Some ErrShutdown).
Proof.
  destruct (Close_then_unavailable (new_world fake.idle) eq_refl)
    as (w1 & e1 & HClose & Hclosing & Hcc & Hafter).
  injection HClose as <- <-.
  eexists. split; [reflexivity|]. split; [reflexivity|].
  destruct (Hafter _ Hclosing) as [H2 Hcalls].
  split; [exact H2|].
  destruct (Hcalls "Arith" "Add" (any_val 2) (any_val 0))
    as (_ & _ & w3 & HCall & _).
  by exists w3.
Defined.

(** Closing after the receiver has shut the client down. *)
Lemma Close_after_shutdown_witness :
  (Close shut_world).2 = None ∧
  closing (client (Close shut_world).1) = true ∧
  fake.closed (cc (client (Close shut_world).1)) = 1.
Proof.
  destruct (Close_after_shutdown shut_world eq_refl eq_refl)
    as (HClose & Hclosing & _).
  rewrite HClose. split; [reflexivity|]. split; reflexivity.
Defined.

(** An unbuffered channel handed to [Go]. *)
Lemma Go_done_channel_witness :
  let w := with_chans (λ l, l ++ [make_chan 0]) (new_world fake.idle) in
  Go "Arith" "Add" (any_val 2) (any_val 0) (Some 0) w
  = Panic "rpc client: done channel is unbuffered".
Proof.
  intros w.
  exact (proj1 (Go_done_channel w "Arith" "Add" (any_val 2) (any_val 0))
           0 eq_refl).
Defined.

(** C8, refuted as stated: on a closed client [Go] returns a call that
    has been delivered on its completion channel with [ErrShutdown] as
    its error, and [Call] returns that error after taking the call from
    the channel. *)
Lemma ErrShutdown_delivered_counterexample :
  ∃ w' p,
    Go "Arith" "Add" (any_val 2) (any_val 0) None closed_world = Ret (w', p) ∧
    Error_of w' p = Some ErrShutdown ∧ delivered w' p = 1 ∧
    ∃ w'', Client_Call "Arith" "Add" (any_val 2) (any_val 0) closed_world
           = Ret (w'', Some ErrShutdown).
Proof.
  eexists _, _. split; [reflexivity|]. split; [reflexivity|].
  split; [reflexivity|]. eexists. reflexivity.
Qed.

(** [Go] and [Call] on the closed client. *)
Lemma ErrShutdown_through_completion_witness :
  (∃ w', Go "Arith" "Add" (any_val 2) (any_val 0) None closed_world
         = Ret (w', 0) ∧
     Error_of w' 0 = Some ErrShutdown ∧ delivered w' 0 = 1 ∧
     chans w' !! 0 = Some (chan_push 0 (make_chan 10))) ∧
  ∃ w', Client_Call "Arith" "Add" (any_val 2) (any_val 0) closed_world
        = Ret (w', Some ErrShutdown).
Proof.
  destruct (ErrShutdown_through_completion closed_world eq_refl)
    as (_ & _ & _ & HGo & _ & HCall).
  split.
  - destruct (HGo "Arith" "Add" (any_val 2) (any_val 0))
      as (w' & Hrun & Herr & Hdel & _ & Hch & _).
    by exists w'.
  - destruct (HCall "Arith" "Add" (any_val 2) (any_val 0)) as (w' & Hrun & _).
    by exists w'.
Defined.

Example two_calls_pending :
  map_to_list (pending (client two_calls)) = [(2%Z, 1); (1%Z, 0)] ∧
  Error_of two_calls 0 = None ∧ Error_of two_calls 1 = None ∧
  delivered two_calls 0 = 0 ∧ delivered two_calls 1 = 0.
Proof. done. Qed.



(** Two calls on one channel of capacity 1: [terminateCalls] completes
    the first one and waits for somebody to take it from the channel. *)
Example terminateCalls_one_channel :
  ¬ room_for_all (pending_calls one_channel) one_channel ∧
  terminateCalls fake.EOF one_channel = Block.
Proof. split; [by_evaluation|vm_compute; reflexivity]. Qed.



Lemma receive_no_matching_call_witness :
  ∃ w1 w2, receive_pass orphaned = Ret (w1, None) ∧
    pending (client w1) = pending (client orphaned) ∧
    delivered w1 0 = 0 ∧
    receive 2 orphaned = Ret (w2, Looping) ∧
    delivered w2 0 = 1 ∧ Error_of w2 0 = None ∧
    fake.headers (cc (client w2)) = [].
Proof.
  destruct (receive_no_matching_call orphaned
              (fake.ReadHeader (cc (client orphaned))).1.1
              (fake.response 7 "").1
              (fake.ReadBody (fake.ReadHeader (cc (client orphaned))).1.1
                 any_nil).1
              None 1)
    as (Hpass & _ & Hrec); [reflexivity|reflexivity|reflexivity|].
  eexists _, _. split; [exact Hpass|]. split; [done|]. split; [done|].
  rewrite Hrec. by repeat split.
Defined.

Lemma registerCalls_sequence_witness :
  (registerCalls [0; 1; 2] (unsent 3)).2 =
  [(1%Z, None); (2%Z, None); (3%Z, None)].
Proof.
  exact (proj1 (registerCalls_sequence [0; 1; 2] (unsent 3)
                  eq_refl eq_refl eq_refl eq_refl)).
Defined.

(** C4, refuted as stated: with [N] = 2^64 registrations on a new
    client, every registration succeeds, and the last one is given the
    number 0, which is not in [[1, N]]. *)
Lemma registerCalls_wrap_counterexample :
  let N := Z.to_nat (2 ^ 64) in
  let rs := (registerCalls (List.seq 0 N) (unsent N)).2 in
  length rs = N ∧
  (∀ i r, rs !! i = Some r → r.2 = None) ∧
  rs !! (N - 1) = Some (0%Z, None) ∧
  ¬ (1 ≤ 0 ≤ Z.of_nat N)%Z.
Proof.
  cbv zeta.
  destruct (registerCalls_wrap (List.seq 0 (Z.to_nat (2 ^ 64)))
              (unsent (Z.to_nat (2 ^ 64))) (Z.to_nat (2 ^ 64)))
    as (Hlen & Herr & Hlast).
  - reflexivity.
  - reflexivity.
  - reflexivity.
  - apply length_seq.
  - apply Z2Nat.id. apply Z.pow_nonneg. lia.
  - split; [exact Hlen|]. split; [exact Herr|]. split; [exact Hlast|].
    intros [? _]. lia.
Qed.

(** The race between a failed write and the receiver: when the receiver
    wins, the call has its one completion, without error, once everybody
    has returned; when the sender wins, it has taken the call out of the
    table and its next move stores the error of the write in it. *)
Lemma completion_exactly_once_witness :
  let st := default (init racing) (exec receiver_first (init racing)) in
  let mid := default (init racing) (exec (take 5 sender_first) (init racing)) in
  exec receiver_first (init racing) = Some st ∧
  quiescent st ∧ delivered (world st) 0 = 1 ∧
  Error_of (world st) 0 = None ∧
  exec (take 5 sender_first) (init racing) = Some mid ∧
  senders mid !! 0 = Some (SRemoved (Some 0) (ext_error "broken pipe")) ∧
  ∃ st', step (ESend 0) mid = Some st' ∧
    senders st' !! 0 = Some (SDeliver 0) ∧
    Error_of (world st') 0 = Some (ext_error "broken pipe") ∧
    delivered (world st') 0 = 0.
Proof.
  intros st mid.
  assert (exec receiver_first (init racing) = Some st) as Hexec
    by (vm_compute; reflexivity).
  assert (quiescent st) as Hq.
  { split; [vm_compute; by repeat constructor|].
    exists fake.EOF. vm_compute. reflexivity. }
  destruct (completion_exactly_once racing receiver_first st Hexec)
    as (_ & _ & _ & _ & _ & _ & Hdone & _).
  split; [exact Hexec|]. split; [exact Hq|].
  split; [apply Hdone; [unfold in_range; by_evaluation|exact Hq|by_evaluation]|].
  split; [vm_compute; reflexivity|].
  assert (exec (take 5 sender_first) (init racing) = Some mid) as Hmid
    by (vm_compute; reflexivity).
  assert (senders mid !! 0 = Some (SRemoved (Some 0) (ext_error "broken pipe")))
    as Hpc by (vm_compute; reflexivity).
  split; [exact Hmid|]. split; [exact Hpc|].
  destruct (completion_exactly_once racing (take 5 sender_first) mid Hmid)
    as (_ & _ & _ & _ & _ & _ & _ & _ & _ & _ & Hsets & _).
  apply (Hsets 0 _ 0 (ext_error "broken pipe") Hpc). by right.
Defined.

Example sender_first_once :
  ∃ st, exec sender_first (init racing) = Some st ∧
    delivered (world st) 0 = 1 ∧
    Error_of (world st) 0 = Some (ext_error "broken pipe") ∧
    recv st = RReturned fake.EOF.
Proof. eexists. split; [vm_compute; reflexivity|]. by vm_compute. Qed.

(** ** Examples for the set-up, the receiver and the schedules *)

(** Two options handed to [parseOptions]. *)
Lemma parseOptions_error_witness :
  parseOptions 0 [Some 1; Some 2] fake_net.options
  = Ret (fake_net.options, (None, Some (errors_New "options are more than 1"))).
Proof.
  destruct (parseOptions_error 0 [Some 1; Some 2] fake_net.options)
    as (h' & p & e & Hrun & Hiff & Herr & _).
  - eexists. reflexivity.
  - intros o [= <-]. eexists. reflexivity.
  - destruct Herr as (-> & -> & ->); [|exact Hrun].
    apply Hiff. by exists 1, (Some 2), [].
Defined.

(** An option that asks for protocol number 7 and names no codec. *)
Lemma parseOptions_normalizes_witness :
  let h' := <[1 := {| server.RpcNumber := 4242; server.CodecType := "gob" |}]>
              fake_net.options in
  parseOptions 0 [Some 1] fake_net.options = Ret (h', (Some 1, None)) ∧
  ∃ opt', h' !! 1 = Some opt' ∧ server.RpcNumber opt' = 4242%Z ∧
    server.CodecType opt' = "gob".
Proof.
  intros h'.
  assert (parseOptions 0 [Some 1] fake_net.options = Ret (h', (Some 1, None)))
    as Hrun by (vm_compute; reflexivity).
  split; [exact Hrun|].
  destruct (parseOptions_normalizes 0 [Some 1] fake_net.options h' 1
              {| server.RpcNumber := 4242; server.CodecType := "gob" |}
              eq_refl Hrun)
    as (opt' & Hopt & Hnum & _ & _ & Hempty & _).
  exists opt'. split; [exact Hopt|]. split; [exact Hnum|].
  exact (Hempty {| server.RpcNumber := 7; server.CodecType := "" |}
           eq_refl eq_refl).
Defined.

(** Dialling with a codec nobody knows. *)
Lemma Dial_client_or_error_witness :
  ∃ r, Dial 0 "tcp" "localhost:9999" [Some 3] 0 fake_net.options = Ret r ∧
    (is_Some (dialed_client r) ↔ dialed_err r = None).
Proof.
  destruct (Dial_client_or_error 0 "tcp" "localhost:9999" [Some 3] 0
              fake_net.options)
    as (r & Hr & Hiff & _).
  - eexists. reflexivity.
  - intros o [= <-]. eexists. reflexivity.
  - by exists r.
Defined.

(** Dialling with options that the connection does not take: the
    connection has been closed twice. *)
Lemma Dial_failure_witness :
  ∃ r, Dial 0 "tcp" "localhost:9999" [Some 2] 0 fake_net.options = Ret r ∧
    dialed_client r = None ∧
    dialed_err r = Some (ext_error "write timeout") ∧
    fake_net.closes <$> dialed_conn r = Some 2.
Proof.
  destruct (Dial_failure 0 "tcp" "localhost:9999" [Some 2] 0
              fake_net.options)
    as (r & Hr & Hfail).
  - eexists. reflexivity.
  - intros o [= <-]. eexists. reflexivity.
  - exists r. split; [exact Hr|].
    vm_compute in Hr. injection Hr as <-.
    split; [reflexivity|]. split; reflexivity.
Defined.

(** Dialling with an option that asks for protocol number 7 and names no
    codec. *)
Lemma Dial_success_witness :
  let r := {| dialed_net := 1;
              dialed_options :=
                <[1 := {| server.RpcNumber := 4242;
                          server.CodecType := "gob" |}]> fake_net.options;
              dialed_conn :=
                Some {| fake_net.closes := 0;
                        fake_net.wrote :=
                          [{| server.RpcNumber := 4242;
                              server.CodecType := "gob" |}] |};
              dialed_client := Some (newClientCodec fake.idle);
              dialed_err := None |} in
  Dial 0 "tcp" "localhost:9999" [Some 1] 0 fake_net.options = Ret r ∧
  ∃ p opt', dialed_options r !! p = Some opt' ∧
    server.RpcNumber opt' = 4242%Z ∧
    is_Some (fake_net.codecs (server.CodecType opt')).
Proof.
  intros r.
  assert (Dial 0 "tcp" "localhost:9999" [Some 1] 0 fake_net.options = Ret r)
    as Hr by (vm_compute; reflexivity).
  split; [exact Hr|].
  destruct (Dial_success 0 "tcp" "localhost:9999" [Some 1] 0
              fake_net.options r (newClientCodec fake.idle))
    as (conn & p & opt' & f & d & _ & _ & _ & Hp & Hd & Hnum & Hf & _).
  - eexists. reflexivity.
  - intros o [= <-]. eexists. reflexivity.
  - exact Hr.
  - reflexivity.
  - injection Hd as <-.
    exists p, opt'. split; [exact Hp|]. split; [exact Hnum|]. by exists f.
Defined.

(** Registering the one call of a new client and removing it again. *)
Lemma register_then_remove_witness :
  let '(w1, (s, err)) := registerCall 0 (unsent 1) in
  let '(w2, call) := removeCall s w1 in
  err = None ∧ call = Some 0 ∧
  pending (client w2) = delete s (pending (client (unsent 1))) ∧
  (pending (client (unsent 1)) !! s = None →
   pending (client w2) = pending (client (unsent 1))) ∧
  seq (client w2) = wrap64 (seq (client (unsent 1)) + 1).
Proof. exact (register_then_remove (unsent 1) 0 eq_refl eq_refl). Defined.

(** The server answers the call with an error. *)
Lemma receive_remote_error_witness :
  ∃ w1, receive_pass refused = Ret (w1, None) ∧
    Error_of w1 0 = Some (fmt_Errorf "rpc server: no such method") ∧
    delivered w1 0 = 1 ∧
    receive 1 refused = Ret (w1, Looping).
Proof.
  destruct (receive_remote_error refused
              (fake.ReadHeader (cc (client refused))).1.1
              (fake.response 1 "rpc server: no such method").1 0
              {| Seq := 1; Service := "Arith"; Method := "Sub";
                 Args := any_val 2; Reply := any_val 0; Error := None;
                 Done := 0 |}
              (make_chan 10)
              (fake.ReadBody (fake.ReadHeader (cc (client refused))).1.1
                 any_nil).1
              None 0)
    as (w1 & Hpass & _ & _ & _ & Herr & Hdel & _ & Hnext);
    [vm_compute; reflexivity|vm_compute; reflexivity|discriminate
    |vm_compute; reflexivity|vm_compute; reflexivity
    |simpl; lia|vm_compute; reflexivity|].
  exists w1. split; [exact Hpass|]. split; [exact Herr|].
  split; [exact Hdel|]. exact (Hnext eq_refl).
Defined.

(** The server answers the call. *)
Lemma receive_reply_witness :
  ∃ w1, receive_pass answered = Ret (w1, None) ∧
    Error_of w1 0 = None ∧ delivered w1 0 = 1 ∧
    pending (client w1) = delete 1%Z (pending (client answered)).
Proof.
  destruct (receive_reply answered
              (fake.ReadHeader (cc (client answered))).1.1
              (fake.response 1 "").1 0
              {| Seq := 1; Service := "Arith"; Method := "Add";
                 Args := any_val 2; Reply := any_val 0; Error := None;
                 Done := 0 |}
              (make_chan 10)
              (fake.ReadBody (fake.ReadHeader (cc (client answered))).1.1
                 (any_val 0)).1
              0)
    as (w1 & Hpass & _ & _ & Hpend & Herr & Hdel & _);
    [vm_compute; reflexivity|vm_compute; reflexivity|reflexivity
    |vm_compute; reflexivity|vm_compute; reflexivity
    |simpl; lia|vm_compute; reflexivity|].
  exists w1. split; [exact Hpass|]. split; [exact Herr|].
  split; [exact Hdel|exact Hpend].
Defined.



(** The first call on a new client. *)
Lemma Go_sends_witness :
  ∃ w1, Go "Arith" "Add" (any_val 2) (any_val 0) None (new_world fake.idle)
        = Ret (w1, 0) ∧
    pending (client w1) = <[1%Z := 0]> ∅ ∧
    seq (client w1) = wrap64 (1 + 1) ∧ IsAvailable w1 = true.
Proof.
  destruct (Go_sends (new_world fake.idle) "Arith" "Add" (any_val 2)
              (any_val 0) None
              (fake.Write fake.idle Add_request (any_val 2)).1)
    as (w1 & HGo & _ & _ & Hpend & Hseq & _ & Hav);
    [reflexivity|reflexivity|intros d [=]|vm_compute; reflexivity|].
  by exists w1.
Defined.

(** [Call] on a connection whose first write fails. *)
Lemma Call_write_failure_witness :
  ∃ w1, Client_Call "Arith" "Add" (any_val 2) (any_val 0) (new_world racing)
        = Ret (w1, Some (ext_error "broken pipe")) ∧
    pending (client w1) = delete 1%Z ∅ ∧
    chans w1 = [{| chan_cap := 1; chan_buf := []; chan_sent := [0] |}].
Proof.
  destruct (Call_write_failure (new_world racing) "Arith" "Add" (any_val 2)
              (any_val 0)
              (fake.Write racing Add_request (any_val 2)).1
              (ext_error "broken pipe"))
    as (w1 & HCall & Hpend & _ & _ & _ & Hchans);
    [reflexivity|reflexivity|vm_compute; reflexivity|].
  by exists w1.
Defined.

(** A call on a stream that holds its response. *)
Lemma Go_then_reply_witness :
  let c := fake.script [fake.response 1 ""] [None] [] in
  ∃ w1 w2, Go "Arith" "Add" (any_val 2) (any_val 0) None (new_world c)
           = Ret (w1, 0) ∧
    receive_pass w1 = Ret (w2, None) ∧
    Error_of w2 0 = None ∧ delivered w2 0 = S (delivered w1 0) ∧
    pending (client w2) = delete 1%Z ∅.
Proof.
  intros c.
  destruct (Go_then_reply (new_world c) "Arith" "Add" (any_val 2)
              (any_val 0) None
              (fake.Write c Add_request (any_val 2)).1
              (fake.ReadHeader
                 (fake.Write c Add_request (any_val 2)).1).1.1
              (fake.response 1 "").1
              (fake.ReadBody
                 (fake.ReadHeader
                    (fake.Write c Add_request (any_val 2)).1).1.1
                 (any_val 0)).1)
    as (w1 & w2 & ch & HGo & Hpass & Hpend & Herr & _ & _ & Hdel & _);
    [reflexivity|reflexivity|intros d [=]|vm_compute; reflexivity
    |vm_compute; reflexivity|reflexivity|reflexivity
    |vm_compute; reflexivity|].
  by exists w1, w2.
Defined.

(** Two callers on a client that has been closed. *)
Lemma flags_never_cleared_witness :
  let st := default (init fake.idle) (exec [EClose] (init fake.idle)) in
  let st' := default st (exec two_callers st) in
  exec two_callers st = Some st' ∧
  closing (client (world st')) = true ∧
  IsAvailable (world st') = false.
Proof.
  intros st st'.
  assert (exec two_callers st = Some st') as Hexec
    by (vm_compute; reflexivity).
  destruct (flags_never_cleared two_callers st st' Hexec)
    as (Hc & _ & Hav).
  split; [exact Hexec|]. split; [apply Hc|apply Hav]; reflexivity.
Defined.

(** Two callers: one has registered its call, the other one waits. *)
Lemma lock_discipline_witness :
  let st := default (init racing) (exec two_callers (init racing)) in
  exec two_callers (init racing) = Some st ∧
  senders st !! 0 = Some (SRegistered 1) ∧
  senders st !! 1 = Some SStart ∧
  shutdown (client (world st)) = false.
Proof.
  intros st.
  assert (exec two_callers (init racing) = Some st) as Hexec
    by (vm_compute; reflexivity).
  destruct (lock_discipline racing two_callers st Hexec)
    as (_ & _ & _ & Hreg).
  split; [exact Hexec|].
  assert (senders st !! 0 = Some (SRegistered 1)) as H0
    by (vm_compute; reflexivity).
  split; [exact H0|]. split; [vm_compute; reflexivity|].
  exact (Hreg 0 (SRegistered 1) H0 eq_refl).
Defined.

(** The table while the first caller is about to write. *)
Lemma pending_table_sound_witness :
  let st := default (init racing) (exec two_callers (init racing)) in
  exec two_callers (init racing) = Some st ∧
  pending (client (world st)) !! 1%Z = Some 0 ∧
  Seq_of (world st) 0 = Some 1%Z ∧
  delivered (world st) 0 = 0.
Proof.
  intros st.
  assert (exec two_callers (init racing) = Some st) as Hexec
    by (vm_compute; reflexivity).
  destruct (pending_table_sound racing two_callers st Hexec)
    as (Hseq & Hlive).
  assert (pending (client (world st)) !! 1%Z = Some 0) as H1
    by (vm_compute; reflexivity).
  split; [exact Hexec|]. split; [exact H1|]. split.
  - exact (proj1 (Hseq 1%Z 0 H1)).
  - destruct Hlive as [_ Hdel]; [vm_compute; reflexivity|].
    exact (Hdel 1%Z 0 H1).
Defined.

(** The numbers of the two calls while the first caller is about to write. *)
Lemma numbers_in_reachable_states_witness :
  let st := default (init racing) (exec two_callers (init racing)) in
  exec two_callers (init racing) = Some st ∧
  Seq_of (world st) 0 = Some 1%Z ∧ Seq_of (world st) 1 = Some 0%Z ∧
  ∀ t, Seq_of (world st) t = Some 1%Z → t = 0.
Proof.
  intros st.
  assert (exec two_callers (init racing) = Some st) as Hexec
    by (vm_compute; reflexivity).
  destruct (numbers_in_reachable_states racing two_callers st Hexec)
    as (_ & Hdistinct & _ & _); [unfold in_range; by_evaluation|].
  split; [exact Hexec|].
  assert (Seq_of (world st) 0 = Some 1%Z) as H0 by (vm_compute; reflexivity).
  split; [exact H0|]. split; [vm_compute; reflexivity|].
  intros t Ht. by apply (Hdistinct t 0 1%Z).
Defined.
